(** * Timing engine of the audio-driven video assembler

    A shallow embedding of the three timing modules of
    [aidobe_video_processor]:

    - [scene_timing.py]        (class [SceneTimingCalculator]),
    - [scene_gap_validator.py] (class [SceneGapValidator]),
    - [audio_master_sync.py]   (class [AudioMasterSync]),

    followed by the properties the design document states about them.

    Python's [float] is kept abstract behind the interface [Num], which
    lists exactly the operations the three modules perform on numbers.
    Two implementations are given: [binary64], IEEE 754 double precision
    as CPython computes it, and [exact], the rationals.  Everything that
    depends only on the control flow is proved for every implementation;
    the two statements that are about sums of rescaled durations are
    proved for [exact], rounding being outside their reach. *)

From Stdlib Require Import ZArith QArith Qcanon Qround Qabs Qcabs Floats Lia Lqa
  Sorted.
From stdpp Require Import base option list gmap strings.

Set Default Proof Using "Type".
#[local] Set Warnings "-clear-no-such-hyp,-inexact-float".

(** ** Exceptions and the error monad *)

(** What a [ValueError] of the three modules says.  The f-strings of
    [_validate_scene_data] carry the scene index and the values they
    print. *)
Inductive value_error (F : Type) : Type :=
| AudioDurationNotPositive
| SceneCountNotPositive
| WeightsNotPositive
| CannotConvertNaN
| SceneMissingField (i : nat) (field : string)
| SceneEndNotAfterStart (i : nat) (end_time start_time : F)
| SceneDurationMismatch (i : nat) (calculated specified : F)
| SceneNegativeValue (i : nat).

Arguments AudioDurationNotPositive {F}.
Arguments SceneCountNotPositive {F}.
Arguments WeightsNotPositive {F}.
Arguments CannotConvertNaN {F}.
Arguments SceneMissingField {F} i field.
Arguments SceneEndNotAfterStart {F} i end_time start_time.
Arguments SceneDurationMismatch {F} i calculated specified.
Arguments SceneNegativeValue {F} i.

Inductive exn (F : Type) : Type :=
| ValueError (e : value_error F)
| KeyError (key : string)
| IndexError
| ZeroDivisionError
| OverflowError.

Arguments ValueError {F} e.
Arguments KeyError {F} key.
Arguments IndexError {F}.
Arguments ZeroDivisionError {F}.
Arguments OverflowError {F}.

Inductive result (E A : Type) : Type :=
| Ok (a : A)
| Raise (e : E).

Arguments Ok {E A} a.
Arguments Raise {E A} e.

#[global] Instance result_ret {E} : MRet (result E) := λ A a, Ok a.
#[global] Instance result_bind {E} : MBind (result E) :=
  λ A B f m, match m with Ok a => f a | Raise e => Raise e end.

Definition is_ok {E A} (r : result E A) : bool :=
  match r with Ok _ => true | Raise _ => false end.

(** [for x in xs: body], the loop state threaded through the body. *)
Fixpoint for_each {E A S} (xs : list A) (body : A → S → result E S) (s : S)
  : result E S :=
  match xs with
  | [] => Ok s
  | x :: xs' => s' ← body x s; for_each xs' body s'
  end.

(** [range(a, b)] *)
Definition range (a b : nat) : list nat := seq a (b - a).

(** ** Numbers *)

(** The operations the modules apply to a [float] (or to an [int] mixed
    with one).  [of_int] is the implicit conversion of an [int] operand,
    which overflows on huge integers; [nceil] is [math.ceil], which
    refuses infinities and NaN. *)
Class Num (F : Type) : Type := {
  nzero : F;
  nadd : F → F → F;
  nsub : F → F → F;
  nmul : F → F → F;
  ndiv : F → F → F;
  nopp : F → F;
  nabs : F → F;
  nltb : F → F → bool;
  nleb : F → F → bool;
  neqb : F → F → bool;
  of_int : Z → option F;
  nceil : F → result (exn F) Z;
  lit_0_001 : F;
  lit_0_1 : F;
}.

(** The one fact about the order that a proof below relies on: with a
    non-negative tolerance, nothing lies above the tolerance and below
    its opposite at once. *)
Class NumOrder (F : Type) `{Num F} : Prop := {
  tolerance_band : ∀ tol x : F,
    nleb nzero tol = true → nltb tol x = true → nltb x (nopp tol) = false;
}.

(** *** IEEE 754 binary64 *)

Definition float_of_int (z : Z) : option float :=
  let f := SF2Prim (binary_normalize prec emax z 0 false) in
  if PrimFloat.eqb (PrimFloat.abs f) PrimFloat.infinity then None else Some f.

Definition float_ceil (x : float) : result (exn float) Z :=
  match Prim2SF x with
  | S754_zero _ => Ok 0%Z
  | S754_infinity _ => Raise OverflowError
  | S754_nan => Raise (ValueError CannotConvertNaN)
  | S754_finite s m e =>
      let v := if s then Z.neg m else Z.pos m in
      Ok (if (0 <=? e)%Z then (v * 2 ^ e)%Z else (- ((- v) / 2 ^ (- e)))%Z)
  end.

#[global] Instance binary64 : Num float := {|
  nzero := PrimFloat.zero;
  nadd := PrimFloat.add;
  nsub := PrimFloat.sub;
  nmul := PrimFloat.mul;
  ndiv := PrimFloat.div;
  nopp := PrimFloat.opp;
  nabs := PrimFloat.abs;
  nltb := PrimFloat.ltb;
  nleb := PrimFloat.leb;
  neqb := PrimFloat.eqb;
  of_int := float_of_int;
  nceil := float_ceil;
  lit_0_001 := 0x1.0624dd2f1a9fcp-10%float;
  lit_0_1 := 0x1.999999999999ap-4%float;
|}.

(** *** Exact arithmetic *)

#[global] Instance exact : Num Qc := {|
  nzero := Q2Qc 0;
  nadd := Qcplus;
  nsub := Qcminus;
  nmul := Qcmult;
  ndiv := Qcdiv;
  nopp := Qcopp;
  nabs := Qcabs;
  nltb := λ x y, negb (Qle_bool y x);
  nleb := λ x y, Qle_bool x y;
  neqb := λ x y, Qeq_bool x y;
  of_int := λ z, Some (Q2Qc (inject_Z z));
  nceil := λ x, Ok (Qceiling x);
  lit_0_001 := Q2Qc (1 # 1000);
  lit_0_1 := Q2Qc (1 # 10);
|}.

(** ** Python's arithmetic on top of the interface *)

Section PythonArith.
Context {F : Type} `{Num F}.

(** Truth value of a number: anything but zero. *)
Definition truthy (x : F) : bool := negb (neqb x nzero).

(** [x > y], [x >= y] *)
Definition ngtb (x y : F) : bool := nltb y x.
Definition ngeb (x y : F) : bool := nleb y x.

(** [float(z)] for an [int] operand of a mixed operation *)
Definition to_float (z : Z) : result (exn F) F :=
  match of_int z with
  | Some x => Ok x
  | None => Raise OverflowError
  end.

(** [x / y] *)
Definition pydiv (x y : F) : result (exn F) F :=
  if neqb y nzero then Raise ZeroDivisionError else Ok (ndiv x y).

(** [sum(xs)]: left to right, starting from 0 *)
Definition pysum (xs : list F) : F := foldl nadd nzero xs.

(** [max(0, x)] and [min(x, y)]: the first argument wins ties *)
Definition pymax0 (x : F) : F := if ngtb x nzero then x else nzero.
Definition pymin (x y : F) : F := if nltb y x then y else x.

(** [xs[-1] += d] *)
Definition add_to_last (xs : list F) (d : F) : result (exn F) (list F) :=
  match last xs with
  | Some x => Ok (<[pred (length xs) := nadd x d]> xs)
  | None => Raise IndexError
  end.
End PythonArith.

(** ** [scene_timing.py] *)

Module SceneTiming.
Section SceneTiming.
Context {F : Type} `{Num F}.

(** The instance attributes: the entries [{'scene': i, 'deficit': d}]
    and [{'scene': i, 'surplus': s}], and a log nothing writes to. *)
Record SceneTimingCalculator : Type := {
  _deficits : list (nat * F);
  _surpluses : list (nat * F);
  _rebalancing_log : list unit;
}.

(** [__init__] *)
Definition init : SceneTimingCalculator :=
  {| _deficits := []; _surpluses := []; _rebalancing_log := [] |}.

(** A method: it reads and updates [self] and returns or raises. *)
Definition method (A : Type) : Type :=
  SceneTimingCalculator → result (exn F) A * SceneTimingCalculator.

#[export] Instance method_ret : MRet method := λ A a self, (Ok a, self).
#[export] Instance method_bind : MBind method :=
  λ A B f m self,
    match m self with
    | (Ok a, self') => f a self'
    | (Raise e, self') => (Raise e, self')
    end.

Definition lift {A} (r : result (exn F) A) : method A := λ self, (r, self).
Definition modify (f : SceneTimingCalculator → SceneTimingCalculator)
  : method unit := λ self, (Ok (), f self).

Fixpoint for_each_m {A S} (xs : list A) (body : A → S → method S) (s : S)
  : method S :=
  match xs with
  | [] => mret s
  | x :: xs' => s' ← body x s; for_each_m xs' body s'
  end.

Definition append_deficit (i : nat) (d : F) : method unit :=
  modify (λ self, {| _deficits := _deficits self ++ [(i, d)];
                     _surpluses := _surpluses self;
                     _rebalancing_log := _rebalancing_log self |}).

Definition append_surplus (i : nat) (s : F) : method unit :=
  modify (λ self, {| _deficits := _deficits self;
                     _surpluses := _surpluses self ++ [(i, s)];
                     _rebalancing_log := _rebalancing_log self |}).

Definition reset_tracking : method unit :=
  modify (λ self, {| _deficits := []; _surpluses := [];
                     _rebalancing_log := _rebalancing_log self |}).

(** One turn of the loop of [_distribute_with_tracking]; the loop
    state is [(durations, running_total)]. *)
Definition tracking_step (base_duration : F) (track_deficit_surplus : bool)
    (i : nat) (st : list F * F) : method (list F * F) :=
  let '(durations, running_total) := st in
  k ← lift (to_float (Z.of_nat i + 1));
  let ideal_total := nmul k base_duration in
  let scene_duration := nsub ideal_total running_total in
  _ ← (if track_deficit_surplus then
         let deficit := pymax0 (nsub base_duration scene_duration) in
         let surplus := pymax0 (nsub scene_duration base_duration) in
         _ ← (if ngtb deficit nzero then append_deficit i deficit
              else mret ());
         if ngtb surplus nzero then append_surplus i surplus else mret ()
       else mret ());
  mret (durations ++ [scene_duration], nadd running_total scene_duration).

Definition _distribute_with_tracking (audio_duration : F) (scene_count : Z)
    (track_deficit_surplus : bool) : method (list F) :=
  n ← lift (to_float scene_count);
  base_duration ← lift (pydiv audio_duration n);
  st ← for_each_m (range 0 (Z.to_nat scene_count))
         (tracking_step base_duration track_deficit_surplus) ([], nzero);
  let durations := st.1 in
  let actual_total := pysum durations in
  if ngtb (nabs (nsub actual_total audio_duration)) lit_0_001 then
    let adjustment := nsub audio_duration actual_total in
    lift (add_to_last durations adjustment)
  else mret durations.

Definition _distribute_with_minimum_constraint (audio_duration : F)
    (scene_count : Z) (min_duration : F) : method (list F) :=
  let durations := replicate (Z.to_nat scene_count) min_duration in
  let total_min := pysum durations in
  if ngtb total_min audio_duration then mret durations
  else
    let remaining := nsub audio_duration total_min in
    n ← lift (to_float scene_count);
    bonus_per_scene ← lift (pydiv remaining n);
    mret ((λ duration, nadd duration bonus_per_scene) <$> durations).

(** One turn of the loop that appends the extra scenes; the state is
    [(durations, remaining, stopped)], [stopped] once [break] ran. *)
Definition extra_scene_step (max_duration : F) (_ : nat)
    (st : list F * F * bool) : method (list F * F * bool) :=
  let '(durations, remaining, stopped) := st in
  if stopped then mret st
  else
    let scene_duration := pymin remaining max_duration in
    let remaining' := nsub remaining scene_duration in
    mret (durations ++ [scene_duration], remaining', nleb remaining' nzero).

Definition _distribute_with_maximum_constraint (audio_duration : F)
    (scene_count : Z) (max_duration : F) : method (list F) :=
  n ← lift (to_float scene_count);
  base_duration ← lift (pydiv audio_duration n);
  if nleb base_duration max_duration then
    _distribute_with_tracking audio_duration scene_count false
  else
    let durations := replicate (Z.to_nat scene_count) max_duration in
    let total_capped := pysum durations in
    if nltb total_capped audio_duration then
      let remaining := nsub audio_duration total_capped in
      q ← lift (pydiv remaining max_duration);
      additional_scenes ← lift (nceil q);
      st ← for_each_m (range 0 (Z.to_nat additional_scenes))
             (extra_scene_step max_duration) (durations, remaining, false);
      mret st.1.1
    else mret durations.

(** The optional constraint is used when it is given and not zero. *)
Definition constraint_set (c : option F) : option F :=
  match c with
  | Some x => if truthy x then Some x else None
  | None => None
  end.

Definition distribute_scene_durations (audio_duration : F) (scene_count : Z)
    (min_scene_duration max_scene_duration : option F)
    (track_deficit_surplus : bool) : method (list F) :=
  if nleb audio_duration nzero then
    lift (Raise (ValueError AudioDurationNotPositive))
  else if (scene_count <=? 0)%Z then
    lift (Raise (ValueError SceneCountNotPositive))
  else
    _ ← (if track_deficit_surplus then reset_tracking else mret ());
    n ← lift (to_float scene_count);
    base_duration ← lift (pydiv audio_duration n);
    let standard :=
      _distribute_with_tracking audio_duration scene_count
        track_deficit_surplus in
    let maximum :=
      match constraint_set max_scene_duration with
      | Some max_d =>
          if ngtb base_duration max_d then
            q ← lift (pydiv audio_duration max_d);
            adjusted_scene_count ← lift (nceil q);
            _distribute_with_maximum_constraint
              audio_duration adjusted_scene_count max_d
          else standard
      | None => standard
      end in
    match constraint_set min_scene_duration with
    | Some min_d =>
        if nltb base_duration min_d then
          q ← lift (pydiv audio_duration min_d);
          adjusted_scene_count ← lift (nceil q);
          _distribute_with_minimum_constraint
            audio_duration adjusted_scene_count min_d
        else maximum
    | None => maximum
    end.
(** The loop of [distribute_scene_durations_weighted]: the share of
    each weight is appended to [durations]. *)
Definition weighted_step (audio_duration total_weight weight : F)
    (durations : list F) : result (exn F) (list F) :=
  share ← pydiv weight total_weight;
  let duration := nmul share audio_duration in
  Ok (durations ++ [duration]).

(** [not scene_weights or any(w <= 0 for w in scene_weights)] *)
Definition weights_rejected (scene_weights : list F) : bool :=
  bool_decide (scene_weights = []) || existsb (λ w, nleb w nzero) scene_weights.

Definition distribute_scene_durations_weighted (audio_duration : F)
    (scene_weights : list F) : method (list F) :=
  if nleb audio_duration nzero then
    lift (Raise (ValueError AudioDurationNotPositive))
  else if weights_rejected scene_weights then
    lift (Raise (ValueError WeightsNotPositive))
  else
    let total_weight := pysum scene_weights in
    durations ← lift (for_each scene_weights
                        (weighted_step audio_duration total_weight) []);
    let actual_total := pysum durations in
    if ngtb (nabs (nsub actual_total audio_duration)) lit_0_001 then
      lift (add_to_last durations (nsub audio_duration actual_total))
    else mret durations.

(** [xs[i]] *)
Definition getindex (xs : list F) (i : nat) : result (exn F) F :=
  match xs !! i with
  | Some x => Ok x
  | None => Raise IndexError
  end.

(** What [calculate_scene_timing] returns; a gap is
    [{'after_scene': i, 'gap_duration': gap}], and the log is there
    when rebalancing was asked for. *)
Record timing : Type := {
  durations : list F;
  start_times : list F;
  end_times : list F;
  gaps_detected : list (nat * F);
  total_duration : F;
  rebalancing_log : option (list unit);
}.

(** The loop that lays the scenes one after the other; the state is
    [(start_times, end_times, current_time)]. *)
Definition lay_step (duration : F) (st : list F * list F * F)
  : result (exn F) (list F * list F * F) :=
  let '(start_times, end_times, current_time) := st in
  let start_times := start_times ++ [current_time] in
  let current_time := nadd current_time duration in
  Ok (start_times, end_times ++ [current_time], current_time).

(** The loop that looks for gaps between the scenes laid. *)
Definition gap_step (start_times end_times : list F) (i : nat)
    (gaps_detected : list (nat * F)) : result (exn F) (list (nat * F)) :=
  next_start ← getindex start_times (i + 1);
  current_end ← getindex end_times i;
  let gap := nsub next_start current_end in
  if ngtb (nabs gap) lit_0_001 then Ok (gaps_detected ++ [(i, gap)])
  else Ok gaps_detected.

(** An attribute of [self], read. *)
Definition read {A} (f : SceneTimingCalculator → A) : method A :=
  λ self, (Ok (f self), self).

Definition calculate_scene_timing (audio_duration : F) (scene_count : Z)
    (enable_rebalancing : bool) : method timing :=
  durations ← distribute_scene_durations audio_duration scene_count None None
                enable_rebalancing;
  st ← lift (for_each durations lay_step ([], [], nzero));
  let start_times := st.1.1 in
  let end_times := st.1.2 in
  gaps_detected ← lift (for_each (range 0 (length start_times - 1))
                          (gap_step start_times end_times) []);
  log ← read _rebalancing_log;
  mret {| durations := durations; start_times := start_times;
          end_times := end_times; gaps_detected := gaps_detected;
          total_duration := pysum durations;
          rebalancing_log := if enable_rebalancing then Some log else None |}.

(** What [get_deficit_surplus_summary] returns. *)
Record tracking_summary : Type := {
  deficits : list (nat * F);
  surpluses : list (nat * F);
  total_deficit : F;
  total_surplus : F;
  summary_rebalancing_log : list unit;
}.

Definition get_deficit_surplus_summary : method tracking_summary :=
  read (λ self,
    {| deficits := _deficits self; surpluses := _surpluses self;
       total_deficit := pysum (snd <$> _deficits self);
       total_surplus := pysum (snd <$> _surpluses self);
       summary_rebalancing_log := _rebalancing_log self |}).

Definition clear_tracking : method unit :=
  modify (λ _, {| _deficits := []; _surpluses := [];
                  _rebalancing_log := [] |}).

End SceneTiming.

Arguments SceneTimingCalculator : clear implicits.
Arguments timing : clear implicits.
Arguments tracking_summary : clear implicits.
End SceneTiming.

(** ** [scene_gap_validator.py] *)

Module GapValidator.
Section GapValidator.
Context {F : Type} `{Num F}.

(** A scene is a [dict] from field names to numbers; a timeline is a
    list of scenes.  The functions below work on values: what
    [copy.deepcopy] returns is a timeline equal to its argument, and an
    assignment to [fixed_scenes[i][k]] is an update of the list at [i].
    Module [Store] further down keeps the objects and their identities. *)
#[local] Abbreviation Scene := (gmap string F).
#[local] Abbreviation Timeline := (list (gmap string F)).

Record SceneGapValidator : Type := { default_tolerance : F }.

(** [__init__], with the default of its argument *)
Definition init : SceneGapValidator := {| default_tolerance := lit_0_001 |}.

(** [scene[key]] *)
Definition getitem (scene : Scene) (key : string) : result (exn F) F :=
  match scene !! key with
  | Some x => Ok x
  | None => Raise (KeyError key)
  end.

(** [scenes[i]] *)
Definition list_get (scenes : Timeline) (i : nat) : result (exn F) Scene :=
  match scenes !! i with
  | Some scene => Ok scene
  | None => Raise IndexError
  end.

Record gap_record : Type := {
  after_scene : nat;
  gap_start : F;
  gap_end : F;
  gap_duration : F;
}.

Record overlap_record : Type := {
  scene1 : nat;
  scene2 : nat;
  overlap_start : F;
  overlap_end : F;
  overlap_duration : F;
}.

Inductive message : Type :=
| NoScenesToValidate
| SingleScene
| ValidContinuity
| IssuesDetected (gaps overlaps : nat).

Record report : Type := {
  is_valid : bool;
  gaps : list gap_record;
  overlaps : list overlap_record;
  total_duration : F;
  msg : message;
}.

Definition required_fields : list string :=
  ["start_time"; "end_time"; "duration"].

(** The body of the loop of [_validate_scene_data] for scene [i]. *)
Definition validate_scene (self : SceneGapValidator) (i : nat) (scene : Scene)
  : result (exn F) unit :=
  _ ← for_each required_fields
        (λ field _, if decide (scene !! field = None)
                    then Raise (ValueError (SceneMissingField i field))
                    else Ok ()) ();
  end_time ← getitem scene "end_time";
  start_time ← getitem scene "start_time";
  if nleb end_time start_time then
    Raise (ValueError (SceneEndNotAfterStart i end_time start_time))
  else
    let calculated_duration := nsub end_time start_time in
    duration ← getitem scene "duration";
    if ngtb (nabs (nsub calculated_duration duration)) (default_tolerance self)
    then Raise (ValueError
                  (SceneDurationMismatch i calculated_duration duration))
    else if nltb start_time nzero || nleb duration nzero then
      Raise (ValueError (SceneNegativeValue i))
    else Ok ().

Definition _validate_scene_data (self : SceneGapValidator) (scenes : Timeline)
  : result (exn F) unit :=
  for_each (imap pair scenes) (λ item _, validate_scene self item.1 item.2) ().

(** The body of the loop over adjacent pairs; the state is
    [(gaps, overlaps)]. *)
Definition continuity_step (scenes : Timeline) (tolerance : F) (i : nat)
    (st : list gap_record * list overlap_record)
  : result (exn F) (list gap_record * list overlap_record) :=
  let '(gaps, overlaps) := st in
  current_scene ← list_get scenes i;
  next_scene ← list_get scenes (i + 1);
  next_start ← getitem next_scene "start_time";
  current_end ← getitem current_scene "end_time";
  let gap_duration := nsub next_start current_end in
  if ngtb gap_duration tolerance then
    Ok (gaps ++ [{| after_scene := i; gap_start := current_end;
                    gap_end := next_start; gap_duration := gap_duration |}],
        overlaps)
  else if nltb gap_duration (nopp tolerance) then
    Ok (gaps,
        overlaps ++ [{| scene1 := i; scene2 := i + 1;
                        overlap_start := next_start;
                        overlap_end := current_end;
                        overlap_duration := nabs gap_duration |}])
  else Ok (gaps, overlaps).

Definition validate_scene_continuity (self : SceneGapValidator)
    (scenes : Timeline) (tolerance : option F) : result (exn F) report :=
  let tolerance := default (default_tolerance self) tolerance in
  _ ← _validate_scene_data self scenes;
  match scenes with
  | [] => Ok {| is_valid := true; gaps := []; overlaps := [];
                total_duration := nzero; msg := NoScenesToValidate |}
  | [scene] =>
      duration ← getitem scene "duration";
      Ok {| is_valid := true; gaps := []; overlaps := [];
            total_duration := duration; msg := SingleScene |}
  | first_scene :: _ =>
      st ← for_each (range 0 (length scenes - 1))
             (continuity_step scenes tolerance) ([], []);
      let '(gaps, overlaps) := st in
      last_scene ← list_get scenes (length scenes - 1);
      last_end ← getitem last_scene "end_time";
      first_start ← getitem first_scene "start_time";
      let total_duration := nsub last_end first_start in
      let is_valid := bool_decide (length gaps = 0)
                      && bool_decide (length overlaps = 0) in
      Ok {| is_valid := is_valid; gaps := gaps; overlaps := overlaps;
            total_duration := total_duration;
            msg := if is_valid then ValidContinuity
                   else IssuesDetected (length gaps) (length overlaps) |}
  end.

(** The inner loop of [fix_gaps_extend_previous]: scene [j] moves
    forward by [shift_amount]. *)
Definition shift_step (shift_amount : F) (j : nat) (fixed_scenes : Timeline)
  : result (exn F) Timeline :=
  scene ← list_get fixed_scenes j;
  start_time ← getitem scene "start_time";
  let scene := <["start_time" := nadd start_time shift_amount]> scene in
  end_time ← getitem scene "end_time";
  let scene := <["end_time" := nadd end_time shift_amount]> scene in
  Ok (<[j := scene]> fixed_scenes).

Definition extend_step (self : SceneGapValidator)
    (min_scene_duration : option F) (i : nat) (fixed_scenes : Timeline)
  : result (exn F) Timeline :=
  current_scene ← list_get fixed_scenes i;
  next_scene ← list_get fixed_scenes (i + 1);
  next_start ← getitem next_scene "start_time";
  current_end ← getitem current_scene "end_time";
  let gap_duration := nsub next_start current_end in
  if ngtb gap_duration (default_tolerance self) then
    let current_scene := <["end_time" := next_start]> current_scene in
    current_start ← getitem current_scene "start_time";
    let duration := nsub next_start current_start in
    let current_scene := <["duration" := duration]> current_scene in
    match min_scene_duration with
    | Some min_d =>
        if truthy min_d && nltb duration min_d then
          let extension_needed := nsub min_d duration in
          let current_scene :=
            <["end_time" := nadd next_start extension_needed]> current_scene in
          let current_scene := <["duration" := min_d]> current_scene in
          for_each (range (i + 1) (length fixed_scenes))
            (shift_step extension_needed) (<[i := current_scene]> fixed_scenes)
        else Ok (<[i := current_scene]> fixed_scenes)
    | None => Ok (<[i := current_scene]> fixed_scenes)
    end
  else Ok fixed_scenes.

Definition fix_gaps_extend_previous (self : SceneGapValidator)
    (scenes : Timeline) (min_scene_duration : option F)
  : result (exn F) Timeline :=
  match scenes with
  | [] => Ok scenes
  | _ =>
      let fixed_scenes := scenes in
      for_each (range 0 (length fixed_scenes - 1))
        (extend_step self min_scene_duration) fixed_scenes
  end.

Definition shift_following_step (self : SceneGapValidator) (i : nat)
    (fixed_scenes : Timeline) : result (exn F) Timeline :=
  current_scene ← list_get fixed_scenes i;
  previous_scene ← list_get fixed_scenes (i - 1);
  current_start ← getitem current_scene "start_time";
  previous_end ← getitem previous_scene "end_time";
  let gap_duration := nsub current_start previous_end in
  if ngtb gap_duration (default_tolerance self) then
    let shift_amount := gap_duration in
    let current_scene :=
      <["start_time" := nsub current_start shift_amount]> current_scene in
    current_end ← getitem current_scene "end_time";
    let current_scene :=
      <["end_time" := nsub current_end shift_amount]> current_scene in
    Ok (<[i := current_scene]> fixed_scenes)
  else Ok fixed_scenes.

Definition fix_gaps_shift_following (self : SceneGapValidator)
    (scenes : Timeline) : result (exn F) Timeline :=
  match scenes with
  | [] => Ok scenes
  | _ =>
      let fixed_scenes := scenes in
      for_each (range 1 (length fixed_scenes))
        (shift_following_step self) fixed_scenes
  end.

Definition trim_step (i : nat) (fixed_scenes : Timeline)
  : result (exn F) Timeline :=
  current_scene ← list_get fixed_scenes i;
  next_scene ← list_get fixed_scenes (i + 1);
  current_end ← getitem current_scene "end_time";
  next_start ← getitem next_scene "start_time";
  if ngtb current_end next_start then
    let current_scene := <["end_time" := next_start]> current_scene in
    current_start ← getitem current_scene "start_time";
    let duration := nsub next_start current_start in
    let current_scene := <["duration" := duration]> current_scene in
    if nleb duration nzero then
      let current_scene := <["duration" := lit_0_1]> current_scene in
      let current_scene :=
        <["end_time" := nadd current_start lit_0_1]> current_scene in
      Ok (<[i := current_scene]> fixed_scenes)
    else Ok (<[i := current_scene]> fixed_scenes)
  else Ok fixed_scenes.

Definition fix_overlaps_trim_previous (self : SceneGapValidator)
    (scenes : Timeline) : result (exn F) Timeline :=
  match scenes with
  | [] => Ok scenes
  | _ =>
      let fixed_scenes := scenes in
      for_each (range 0 (length fixed_scenes - 1)) trim_step fixed_scenes
  end.

Definition fix_all_timing_issues (self : SceneGapValidator)
    (scenes : Timeline) (min_scene_duration : option F)
  : result (exn F) Timeline :=
  match scenes with
  | [] => Ok scenes
  | _ =>
      fixed_scenes ← fix_overlaps_trim_previous self scenes;
      fixed_scenes ← fix_gaps_extend_previous self fixed_scenes
                       min_scene_duration;
      validation ← validate_scene_continuity self fixed_scenes None;
      if negb (is_valid validation) then
        fixed_scenes ← fix_gaps_shift_following self scenes;
        fix_overlaps_trim_previous self fixed_scenes
      else Ok fixed_scenes
  end.

(** The rescaling loop of [enforce_total_duration]; the state is
    [(fixed_scenes, cumulative_time)]. *)
Definition rescale_step (adjustment_factor : F) (i : nat)
    (st : Timeline * F) : result (exn F) (Timeline * F) :=
  let '(fixed_scenes, cumulative_time) := st in
  scene ← list_get fixed_scenes i;
  let scene := <["start_time" := cumulative_time]> scene in
  duration ← getitem scene "duration";
  let duration := nmul duration adjustment_factor in
  let scene := <["duration" := duration]> scene in
  let end_time := nadd cumulative_time duration in
  let scene := <["end_time" := end_time]> scene in
  Ok (<[i := scene]> fixed_scenes, end_time).

Definition enforce_total_duration (self : SceneGapValidator)
    (scenes : Timeline) (target_duration : F) : result (exn F) Timeline :=
  match scenes with
  | [] => Ok scenes
  | _ =>
      let fixed_scenes := scenes in
      durations ← mapM (λ scene, getitem scene "duration") fixed_scenes;
      let current_total := pysum durations in
      if nltb (nabs (nsub current_total target_duration))
              (default_tolerance self)
      then Ok fixed_scenes
      else
        adjustment_factor ← pydiv target_duration current_total;
        st ← for_each (range 0 (length fixed_scenes))
               (rescale_step adjustment_factor) (fixed_scenes, nzero);
        let '(fixed_scenes, cumulative_time) := st in
        let actual_total := cumulative_time in
        if ngtb (nabs (nsub actual_total target_duration))
                (default_tolerance self)
        then
          let i := length fixed_scenes - 1 in
          last_scene ← list_get fixed_scenes i;
          let adjustment := nsub target_duration actual_total in
          duration ← getitem last_scene "duration";
          let last_scene :=
            <["duration" := nadd duration adjustment]> last_scene in
          end_time ← getitem last_scene "end_time";
          let last_scene :=
            <["end_time" := nadd end_time adjustment]> last_scene in
          Ok (<[i := last_scene]> fixed_scenes)
        else Ok fixed_scenes
  end.

End GapValidator.

Arguments SceneGapValidator : clear implicits.
Arguments report : clear implicits.
Arguments gap_record : clear implicits.
Arguments overlap_record : clear implicits.
End GapValidator.

(** ** [audio_master_sync.py] *)

(** The clip objects come from the media library; the module only reads
    their [duration] and calls their methods.  [set_duration] returns
    the clip it was called on with the given duration. *)
Class ClipLike (F clip : Type) : Type := {
  duration : clip → F;
  set_duration : clip → F → clip;
}.

Class ClipLaws (F clip : Type) `{ClipLike F clip} : Prop := {
  duration_set_duration : ∀ (c : clip) (d : F), duration (set_duration c d) = d;
}.

(** A clip that is nothing but its duration. *)
Record plain_clip (F : Type) : Type := { plain_duration : F }.
Arguments plain_duration {F} _.

#[global] Instance plain_clip_like {F} : ClipLike F (plain_clip F) := {|
  duration := plain_duration;
  set_duration := λ _ d, {| plain_duration := d |};
|}.

#[global] Instance plain_clip_laws {F} : ClipLaws F (plain_clip F).
Proof. by constructor. Qed.

Module AudioSync.
Section AudioSync.
Context {F clip : Type} `{Num F} `{ClipLike F clip}.

Record AudioMasterSync : Type := { default_tolerance : F }.

Definition init : AudioMasterSync := {| default_tolerance := lit_0_001 |}.

Definition enforce_audio_priority (self : AudioMasterSync) (video_clip : clip)
    (audio_duration : F) (visual_preference_duration : option F) : clip :=
  set_duration video_clip audio_duration.

End AudioSync.

Arguments AudioMasterSync : clear implicits.
End AudioSync.

(** *** The other methods of [AudioMasterSync]

    They call more of the media library than [set_duration], and any
    call into the library may raise.  [E] is what the library raises;
    [video_clip.fx(lambda clip: clip.speedx(factor))] is [speedx];
    [ColorClip] is the black clip of a given size and duration. *)
Module MasterSync.

Class VideoClip (F clip E : Type) : Type := {
  clip_duration : clip → F;
  clip_size : clip → nat * nat;
  clip_set_duration : clip → F → result E clip;
  subclip : clip → F → F → result E clip;
  loop : clip → F → result E clip;
  speedx : clip → F → result E clip;
  to_ImageClip : clip → F → result E clip;
  ColorClip : nat * nat → F → result E clip;
  concatenate_videoclips : list clip → result E clip;
}.

(** The literals [0.01], [1.0] and [2.0] (also the [int] 2 of a mixed
    division), and [float('inf')]. *)
Class SyncLiterals (F : Type) : Type := {
  lit_0_01 : F;
  lit_1 : F;
  lit_2 : F;
}.

Class Infinity (F : Type) : Type := { ninf : F }.

#[global] Instance binary64_literals : SyncLiterals float := {|
  lit_0_01 := 0x1.47ae147ae147bp-7%float;
  lit_1 := 1%float;
  lit_2 := 2%float;
|}.

#[global] Instance binary64_infinity : Infinity float :=
  {| ninf := PrimFloat.infinity |}.

#[global] Instance exact_literals : SyncLiterals Qc := {|
  lit_0_01 := Q2Qc (1 # 100);
  lit_1 := Q2Qc 1;
  lit_2 := Q2Qc 2;
|}.

(** What was caught inside [sync_video_to_audio_duration]. *)
Inductive failure (F E : Type) : Type :=
| Arithmetic (e : exn F)
| Library (e : E).

Arguments Arithmetic {F E} e.
Arguments Library {F E} e.

(** A value of an entry of the audio timeline. *)
Inductive entry_value (F : Type) : Type :=
| Str (s : string)
| Number (x : F).

Arguments Str {F} s.
Arguments Number {F} x.

(** What the methods raise: the exceptions of the timing modules
    ([ValueError("Audio duration must be positive")], [KeyError], ...),
    the two other [ValueError]s, the [Exception] that wraps what was
    caught, and the [TypeError] of a comparison of a [str] with 0. *)
Inductive sync_exn (F E : Type) : Type :=
| Timing (e : exn F)
| ClipCountMismatch
| ClipNotFound (clip_id : entry_value F)
| SyncFailed (cause : failure F E)
| TypeError.

Arguments Timing {F E} e.
Arguments ClipCountMismatch {F E}.
Arguments ClipNotFound {F E} clip_id.
Arguments SyncFailed {F E} cause.
Arguments TypeError {F E}.

Section Synchronisation.
Context {F clip E : Type} `{Num F} `{SyncLiterals F} `{VideoClip F clip E}.

(** The keyword arguments of [sync_video_to_audio_duration]. *)
Record sync_options : Type := {
  extend_strategy : string;
  trim_strategy : string;
  precision : string;
  fade_in_margin : F;
  fade_out_margin : F;
  preserve_quality : bool;
  adjust_speed : bool;
  min_video_duration : option F;
}.

(** Their defaults. *)
Definition default_options : sync_options := {|
  extend_strategy := "trim";
  trim_strategy := "from_end";
  precision := "millisecond";
  fade_in_margin := nzero;
  fade_out_margin := nzero;
  preserve_quality := true;
  adjust_speed := false;
  min_video_duration := None;
|}.

(** A call into the library, and an operation on numbers, inside the
    [try] block. *)
Definition lib {A} (r : result E A) : result (failure F E) A :=
  match r with Ok a => Ok a | Raise e => Raise (Library e) end.
Definition arith {A} (r : result (exn F) A) : result (failure F E) A :=
  match r with Ok a => Ok a | Raise e => Raise (Arithmetic e) end.

(** [except Exception as e: raise Exception(...)] *)
Definition reraise {A} (r : result (failure F E) A) : result (sync_exn F E) A :=
  match r with Ok a => Ok a | Raise e => Raise (SyncFailed e) end.

(** An exception of the timing modules, let through. *)
Definition timing {A} (r : result (exn F) A) : result (sync_exn F E) A :=
  match r with Ok a => Ok a | Raise e => Raise (Timing e) end.

Definition sync_video_to_audio_duration (self : AudioSync.AudioMasterSync F)
    (video_clip : clip) (audio_duration : F) (options : sync_options)
  : result (sync_exn F E) clip :=
  if nleb audio_duration nzero then
    Raise (Timing (ValueError AudioDurationNotPositive))
  else
    let target_duration :=
      match min_video_duration options with
      | Some min_d =>
          if truthy min_d && nltb audio_duration min_d then min_d
          else audio_duration
      | None => audio_duration
      end in
    let total_duration :=
      nadd (nadd target_duration (fade_in_margin options))
        (fade_out_margin options) in
    let tolerance := AudioSync.default_tolerance self in
    reraise
      (let current_duration := clip_duration video_clip in
       if adjust_speed options
          && ngtb (nabs (nsub current_duration total_duration)) tolerance
       then
         speed_factor ← arith (pydiv current_duration total_duration);
         lib (speedx video_clip speed_factor)
       else if String.eqb (trim_strategy options) "from_start"
               && ngtb current_duration (nadd total_duration tolerance)
       then lib (subclip video_clip nzero total_duration)
       else if String.eqb (trim_strategy options) "center"
               && ngtb current_duration (nadd total_duration tolerance)
       then
         let start_time :=
           ndiv (nsub current_duration total_duration) lit_2 in
         lib (subclip video_clip start_time (nadd start_time total_duration))
       else if String.eqb (extend_strategy options) "loop"
               && nltb current_duration (nsub total_duration tolerance)
       then lib (loop video_clip total_duration)
       else if String.eqb (extend_strategy options) "freeze_last"
               && nltb current_duration (nsub total_duration tolerance)
       then
         last_frame ← lib (to_ImageClip video_clip
                             (nsub current_duration lit_0_01));
         let extension_duration := nsub total_duration current_duration in
         extension ← lib (clip_set_duration last_frame extension_duration);
         lib (concatenate_videoclips [video_clip; extension])
       else if String.eqb (extend_strategy options) "black"
               && nltb current_duration (nsub total_duration tolerance)
       then
         let extension_duration := nsub total_duration current_duration in
         black_extension ← lib (ColorClip (clip_size video_clip)
                                  extension_duration);
         lib (concatenate_videoclips [video_clip; black_extension])
       else lib (clip_set_duration video_clip total_duration)).

(** One turn of the loop of [sync_video_scenes_to_audio_segments]; the
    two [segment.get] of the crossfades have no effect. *)
Definition segment_step (self : AudioSync.AudioMasterSync F)
    (handle_crossfades : bool) (item : clip * gmap string F)
    (synced_clips : list clip) : result (sync_exn F E) (list clip) :=
  let '(clip, segment) := item in
  target_duration ← timing (GapValidator.getitem segment "duration");
  synced_clip ← sync_video_to_audio_duration self clip target_duration
                  default_options;
  Ok (synced_clips ++ [synced_clip]).

Definition sync_video_scenes_to_audio_segments
    (self : AudioSync.AudioMasterSync F) (video_clips : list clip)
    (audio_segments : list (gmap string F)) (handle_crossfades : bool)
  : result (sync_exn F E) (list clip) :=
  if negb (length video_clips =? length audio_segments)%nat then
    Raise ClipCountMismatch
  else
    for_each (zip video_clips audio_segments)
      (segment_step self handle_crossfades) [].

(** [timeline_entry[key]] *)
Definition entry_get (timeline_entry : gmap string (entry_value F))
    (key : string) : result (sync_exn F E) (entry_value F) :=
  match timeline_entry !! key with
  | Some v => Ok v
  | None => Raise (Timing (KeyError key))
  end.

(** One turn of the loop of [batch_sync_to_audio_timeline].  A
    [clip_id] that is a number is the key of no clip; a duration that
    is a string cannot be compared with 0. *)
Definition batch_step (self : AudioSync.AudioMasterSync F)
    (video_clips : gmap string clip)
    (timeline_entry : gmap string (entry_value F))
    (synced_clips : gmap string clip)
  : result (sync_exn F E) (gmap string clip) :=
  clip_id ← entry_get timeline_entry "clip_id";
  target_duration ← entry_get timeline_entry "duration";
  match clip_id with
  | Number _ => Raise (ClipNotFound clip_id)
  | Str id =>
      match video_clips !! id with
      | None => Raise (ClipNotFound clip_id)
      | Some original_clip =>
          match target_duration with
          | Str _ => Raise TypeError
          | Number target_duration =>
              synced_clip ← sync_video_to_audio_duration self original_clip
                              target_duration default_options;
              Ok (<[id := synced_clip]> synced_clips)
          end
      end
  end.

Definition batch_sync_to_audio_timeline (self : AudioSync.AudioMasterSync F)
    (video_clips : gmap string clip)
    (audio_timeline : list (gmap string (entry_value F)))
  : result (sync_exn F E) (gmap string clip) :=
  for_each audio_timeline (batch_step self video_clips) ∅.

(** One turn of the last loop of [sync_complete_video_to_master_audio]. *)
Definition scene_step (self : AudioSync.AudioMasterSync F) (item : clip * F)
    (synced_scenes : list clip) : result (sync_exn F E) (list clip) :=
  let '(scene_clip, duration) := item in
  synced_scene ← sync_video_to_audio_duration self scene_clip duration
                   default_options;
  Ok (synced_scenes ++ [synced_scene]).

(** [sync_complete_video_to_master_audio] assigns to the last element
    of the list [scene_durations] that the caller passed.  The second
    component of what the function below returns is that list after
    the call, [None] when no list was passed. *)
Definition sync_complete_video_to_master_audio
    (self : AudioSync.AudioMasterSync F) (video_scenes : list clip)
    (master_audio_duration : F) (scene_durations : option (list F))
  : result (sync_exn F E) (list clip) * option (list F) :=
  match video_scenes with
  | [] => (Ok video_scenes, scene_durations)
  | _ =>
      let distributed :=
        match scene_durations with
        | Some ds => Ok ds
        | None =>
            let scene_count := length video_scenes in
            n ← to_float (Z.of_nat scene_count);
            base_duration ← pydiv master_audio_duration n;
            Ok (replicate scene_count base_duration)
        end in
      match distributed with
      | Raise e => (Raise (Timing e), scene_durations)
      | Ok ds =>
          let total_scene_duration := pysum ds in
          let adjusted :=
            if ngtb (nabs (nsub total_scene_duration master_audio_duration))
                    (AudioSync.default_tolerance self)
            then add_to_last ds
                   (nsub master_audio_duration total_scene_duration)
            else Ok ds in
          match adjusted with
          | Raise e => (Raise (Timing e), scene_durations)
          | Ok ds =>
              (for_each (zip video_scenes ds) (scene_step self) [],
               match scene_durations with
               | Some _ => Some ds
               | None => None
               end)
          end
      end
  end.

(** [{'clip_index': i, 'actual_duration': a, 'expected_duration': e,
    'difference': a - e}] *)
Record mismatch : Type := {
  clip_index : nat;
  actual_duration : F;
  expected_duration : F;
  difference : F;
}.

(** The two shapes of what [validate_audio_video_sync] returns. *)
Inductive sync_report : Type :=
| CountMismatch (clip_count expected_count : nat)
| Checked (is_synced : bool) (mismatches : list mismatch)
    (total_video_duration total_expected_duration total_difference : F).

Definition check_step (self : AudioSync.AudioMasterSync F)
    (item : nat * (clip * F)) (st : list mismatch * F)
  : result (sync_exn F E) (list mismatch * F) :=
  let '(i, (clip, expected_duration)) := item in
  let '(mismatches, total_video_duration) := st in
  let actual_duration := clip_duration clip in
  let total_video_duration := nadd total_video_duration actual_duration in
  if ngtb (nabs (nsub actual_duration expected_duration))
          (AudioSync.default_tolerance self)
  then Ok (mismatches ++ [{| clip_index := i;
                             actual_duration := actual_duration;
                             expected_duration := expected_duration;
                             difference :=
                               nsub actual_duration expected_duration |}],
           total_video_duration)
  else Ok (mismatches, total_video_duration).

Definition validate_audio_video_sync (self : AudioSync.AudioMasterSync F)
    (video_clips : list clip) (expected_durations : list F)
  : result (sync_exn F E) sync_report :=
  if negb (length video_clips =? length expected_durations)%nat then
    Ok (CountMismatch (length video_clips) (length expected_durations))
  else
    let total_expected_duration := pysum expected_durations in
    st ← for_each (imap pair (zip video_clips expected_durations))
           (check_step self) ([], nzero);
    let '(mismatches, total_video_duration) := st in
    Ok (Checked (bool_decide (length mismatches = 0)) mismatches
          total_video_duration total_expected_duration
          (nsub total_video_duration total_expected_duration)).

(** The recommended strategy, which also settles the [reason] given,
    and the confidence. *)
Inductive strategy : Type := no_change | speed_adjustment | trim | extend.
Inductive confidence : Type := high | medium.

Record recommendation : Type := {
  recommended_strategy : strategy;
  duration_ratio : F;
  difference_seconds : F;
  recommendation_confidence : confidence;
}.

Definition get_sync_strategy_recommendation `{Infinity F}
    (self : AudioSync.AudioMasterSync F) (video_duration audio_duration : F)
  : result (exn F) recommendation :=
  duration_ratio ← (if ngtb audio_duration nzero
                    then pydiv video_duration audio_duration else Ok ninf);
  let difference := nsub video_duration audio_duration in
  let strategy :=
    if nleb (nabs difference) (AudioSync.default_tolerance self)
    then no_change
    else if ngtb duration_ratio lit_2 then speed_adjustment
    else if ngtb difference nzero then trim
    else extend in
  Ok {| recommended_strategy := strategy;
        duration_ratio := duration_ratio;
        difference_seconds := difference;
        recommendation_confidence :=
          if ngtb (nabs difference) lit_1 then high else medium |}.

End Synchronisation.

Arguments sync_options : clear implicits.
Arguments mismatch : clear implicits.
Arguments sync_report : clear implicits.
Arguments recommendation : clear implicits.
End MasterSync.

(** ** Vocabulary of the statements about timelines *)

Section TimelineVocabulary.
Context {F : Type} `{Num F}.
Import GapValidator.

#[local] Abbreviation Scene := (gmap string F).
#[local] Abbreviation Timeline := (list (gmap string F)).

(** [{'start_time': s, 'end_time': e, 'duration': d}] *)
Definition scene (s e d : F) : Scene :=
  <["start_time" := s]> (<["end_time" := e]> (<["duration" := d]> ∅)).

(** A scene with its three timing fields. *)
Definition complete (sc : Scene) : Prop :=
  is_Some (sc !! "start_time") ∧ is_Some (sc !! "end_time")
  ∧ is_Some (sc !! "duration").

(** A scene breaks a structural invariant: a timing field is missing,
    or [end_time <= start_time], or [end_time - start_time] and
    [duration] are further apart than the validator's tolerance, or
    [start_time < 0], or [duration <= 0]. *)
Definition violates (self : SceneGapValidator F) (sc : Scene) : Prop :=
  sc !! "start_time" = None ∨ sc !! "end_time" = None
  ∨ sc !! "duration" = None
  ∨ ∃ s e d,
      sc !! "start_time" = Some s ∧ sc !! "end_time" = Some e
      ∧ sc !! "duration" = Some d
      ∧ (nleb e s = true
         ∨ ngtb (nabs (nsub (nsub e s) d)) (default_tolerance self) = true
         ∨ nltb s nzero = true
         ∨ nleb d nzero = true).

(** The error names scene [i] and a field of it that is at fault. *)
Inductive describes (self : SceneGapValidator F) (i : nat) (sc : Scene)
  : value_error F → Prop :=
| describes_missing field :
    field ∈ required_fields → sc !! field = None →
    describes self i sc (SceneMissingField i field)
| describes_end_before_start s e :
    sc !! "start_time" = Some s → sc !! "end_time" = Some e →
    nleb e s = true →
    describes self i sc (SceneEndNotAfterStart i e s)
| describes_mismatch s e d :
    sc !! "start_time" = Some s → sc !! "end_time" = Some e →
    sc !! "duration" = Some d →
    ngtb (nabs (nsub (nsub e s) d)) (default_tolerance self) = true →
    describes self i sc (SceneDurationMismatch i (nsub e s) d)
| describes_negative s d :
    sc !! "start_time" = Some s → sc !! "duration" = Some d →
    nltb s nzero = true ∨ nleb d nzero = true →
    describes self i sc (SceneNegativeValue i).

(** The difference [next.start_time - current.end_time] of the pair of
    scenes at [i] and [i + 1]. *)
Definition adjacent_gap (scenes : Timeline) (i : nat) (e s : F) : Prop :=
  ∃ current next,
    scenes !! i = Some current ∧ scenes !! (i + 1) = Some next
    ∧ current !! "end_time" = Some e ∧ next !! "start_time" = Some s.

(** Each scene starts where the one before it ends. *)
Definition contiguous (scenes : Timeline) : Prop :=
  ∀ i current next,
    scenes !! i = Some current → scenes !! (i + 1) = Some next →
    is_Some (next !! "start_time")
    ∧ next !! "start_time" = current !! "end_time".

End TimelineVocabulary.

(** ** Objects and references *)

(** The timelines of [scene_gap_validator.py] are [list] objects whose
    items are references to [dict] objects.  This module keeps both
    kinds of object in a store and runs the repair operations on
    references, with [copy.deepcopy] allocating the copies and every
    assignment [scene[key] = value] updating the object [scene] refers
    to, whoever else refers to it. *)
Module Store.
Section Store.
Context {F : Type} `{Num F}.

#[local] Abbreviation validator := (GapValidator.SceneGapValidator F).

Record store : Type := {
  dicts : gmap positive (gmap string F);
  lists : gmap positive (list positive);
}.

(** A reference to an object the store does not hold cannot arise in
    Python; the model stops on it. *)
Inductive fault : Type :=
| Exception (e : exn F)
| Dangling.

Definition py (A : Type) : Type := store → result fault A * store.

#[export] Instance py_ret : MRet py := λ A a σ, (Ok a, σ).
#[export] Instance py_bind : MBind py :=
  λ A B f m σ,
    match m σ with
    | (Ok a, σ') => f a σ'
    | (Raise e, σ') => (Raise e, σ')
    end.

Definition raise {A} (e : exn F) : py A := λ σ, (Raise (Exception e), σ).

Definition lift {A} (r : result (exn F) A) : py A :=
  match r with
  | Ok a => mret a
  | Raise e => raise e
  end.

Fixpoint for_each_py {A S} (xs : list A) (body : A → S → py S) (s : S)
  : py S :=
  match xs with
  | [] => mret s
  | x :: xs' => s' ← body x s; for_each_py xs' body s'
  end.

Definition read_dict (r : positive) : py (gmap string F) :=
  λ σ, match dicts σ !! r with
       | Some d => (Ok d, σ)
       | None => (Raise Dangling, σ)
       end.

Definition read_list (l : positive) : py (list positive) :=
  λ σ, match lists σ !! l with
       | Some rs => (Ok rs, σ)
       | None => (Raise Dangling, σ)
       end.

Definition write_dict (r : positive) (d : gmap string F) : py unit :=
  λ σ, (Ok (), {| dicts := <[r := d]> (dicts σ); lists := lists σ |}).

Definition alloc_dict (d : gmap string F) : py positive :=
  λ σ, let r := fresh (dom (dicts σ)) in
       (Ok r, {| dicts := <[r := d]> (dicts σ); lists := lists σ |}).

Definition alloc_list (rs : list positive) : py positive :=
  λ σ, let l := fresh (dom (lists σ)) in
       (Ok l, {| dicts := dicts σ; lists := <[l := rs]> (lists σ) |}).

(** [scene[key]] *)
Definition getitem (r : positive) (key : string) : py F :=
  d ← read_dict r;
  match d !! key with
  | Some x => mret x
  | None => raise (KeyError key)
  end.

(** [scene[key] = x] *)
Definition setitem (r : positive) (key : string) (x : F) : py unit :=
  d ← read_dict r; write_dict r (<[key := x]> d).

(** [scenes[i]] and [len(scenes)] *)
Definition list_get (l : positive) (i : nat) : py positive :=
  rs ← read_list l;
  match rs !! i with
  | Some r => mret r
  | None => raise IndexError
  end.

Definition len (l : positive) : py nat := rs ← read_list l; mret (length rs).

(** [copy.deepcopy(scenes)]: a new list of new dicts; a dict that
    occurs twice in [scenes] is copied once (the memo). *)
Definition deepcopy_item (r : positive)
    (st : gmap positive positive * list positive)
  : py (gmap positive positive * list positive) :=
  let '(memo, copies) := st in
  match memo !! r with
  | Some r' => mret (memo, copies ++ [r'])
  | None =>
      d ← read_dict r;
      r' ← alloc_dict d;
      mret (<[r := r']> memo, copies ++ [r'])
  end.

Definition deepcopy (scenes : positive) : py positive :=
  rs ← read_list scenes;
  st ← for_each_py rs deepcopy_item (∅, []);
  alloc_list st.2.

(** The timeline a list object holds, as a value. *)
Definition snapshot (scenes : positive) : py (list (gmap string F)) :=
  rs ← read_list scenes; mapM read_dict rs.

Definition shift_step (fixed_scenes : positive) (shift_amount : F) (j : nat)
    (_ : unit) : py unit :=
  sc ← list_get fixed_scenes j;
  start_time ← getitem sc "start_time";
  _ ← setitem sc "start_time" (nadd start_time shift_amount);
  sc ← list_get fixed_scenes j;
  end_time ← getitem sc "end_time";
  setitem sc "end_time" (nadd end_time shift_amount).

Definition extend_step (self : validator)
    (min_scene_duration : option F) (fixed_scenes : positive) (i : nat)
    (_ : unit) : py unit :=
  current_scene ← list_get fixed_scenes i;
  next_scene ← list_get fixed_scenes (i + 1);
  next_start ← getitem next_scene "start_time";
  current_end ← getitem current_scene "end_time";
  let gap_duration := nsub next_start current_end in
  if ngtb gap_duration (GapValidator.default_tolerance self) then
    next_start ← getitem next_scene "start_time";
    _ ← setitem current_scene "end_time" next_start;
    current_end ← getitem current_scene "end_time";
    current_start ← getitem current_scene "start_time";
    _ ← setitem current_scene "duration" (nsub current_end current_start);
    match min_scene_duration with
    | Some min_d =>
        if truthy min_d then
          duration ← getitem current_scene "duration";
          if nltb duration min_d then
            duration ← getitem current_scene "duration";
            let extension_needed := nsub min_d duration in
            current_end ← getitem current_scene "end_time";
            _ ← setitem current_scene "end_time"
                  (nadd current_end extension_needed);
            _ ← setitem current_scene "duration" min_d;
            n ← len fixed_scenes;
            for_each_py (range (i + 1) n)
              (shift_step fixed_scenes extension_needed) ()
          else mret ()
        else mret ()
    | None => mret ()
    end
  else mret ().

Definition fix_gaps_extend_previous (self : validator)
    (scenes : positive) (min_scene_duration : option F) : py positive :=
  rs ← read_list scenes;
  match rs with
  | [] => mret scenes
  | _ =>
      fixed_scenes ← deepcopy scenes;
      n ← len fixed_scenes;
      _ ← for_each_py (range 0 (n - 1))
            (extend_step self min_scene_duration fixed_scenes) ();
      mret fixed_scenes
  end.

Definition shift_following_step (self : validator)
    (fixed_scenes : positive) (i : nat) (_ : unit) : py unit :=
  current_scene ← list_get fixed_scenes i;
  previous_scene ← list_get fixed_scenes (i - 1);
  current_start ← getitem current_scene "start_time";
  previous_end ← getitem previous_scene "end_time";
  let gap_duration := nsub current_start previous_end in
  if ngtb gap_duration (GapValidator.default_tolerance self) then
    let shift_amount := gap_duration in
    current_start ← getitem current_scene "start_time";
    _ ← setitem current_scene "start_time" (nsub current_start shift_amount);
    current_end ← getitem current_scene "end_time";
    setitem current_scene "end_time" (nsub current_end shift_amount)
  else mret ().

Definition fix_gaps_shift_following (self : validator)
    (scenes : positive) : py positive :=
  rs ← read_list scenes;
  match rs with
  | [] => mret scenes
  | _ =>
      fixed_scenes ← deepcopy scenes;
      n ← len fixed_scenes;
      _ ← for_each_py (range 1 n) (shift_following_step self fixed_scenes) ();
      mret fixed_scenes
  end.

Definition trim_step (fixed_scenes : positive) (i : nat) (_ : unit)
  : py unit :=
  current_scene ← list_get fixed_scenes i;
  next_scene ← list_get fixed_scenes (i + 1);
  current_end ← getitem current_scene "end_time";
  next_start ← getitem next_scene "start_time";
  if ngtb current_end next_start then
    next_start ← getitem next_scene "start_time";
    _ ← setitem current_scene "end_time" next_start;
    current_end ← getitem current_scene "end_time";
    current_start ← getitem current_scene "start_time";
    _ ← setitem current_scene "duration" (nsub current_end current_start);
    duration ← getitem current_scene "duration";
    if nleb duration nzero then
      _ ← setitem current_scene "duration" lit_0_1;
      current_start ← getitem current_scene "start_time";
      duration ← getitem current_scene "duration";
      setitem current_scene "end_time" (nadd current_start duration)
    else mret ()
  else mret ().

Definition fix_overlaps_trim_previous (self : validator)
    (scenes : positive) : py positive :=
  rs ← read_list scenes;
  match rs with
  | [] => mret scenes
  | _ =>
      fixed_scenes ← deepcopy scenes;
      n ← len fixed_scenes;
      _ ← for_each_py (range 0 (n - 1)) (trim_step fixed_scenes) ();
      mret fixed_scenes
  end.

(** [validate_scene_continuity] only reads: it is run on the values the
    list holds. *)
Definition validate_scene_continuity (self : validator)
    (scenes : positive) (tolerance : option F) : py (GapValidator.report F) :=
  timeline ← snapshot scenes;
  lift (GapValidator.validate_scene_continuity self timeline tolerance).

Definition fix_all_timing_issues (self : validator)
    (scenes : positive) (min_scene_duration : option F) : py positive :=
  rs ← read_list scenes;
  match rs with
  | [] => mret scenes
  | _ =>
      fixed_scenes ← fix_overlaps_trim_previous self scenes;
      fixed_scenes ← fix_gaps_extend_previous self fixed_scenes
                       min_scene_duration;
      validation ← validate_scene_continuity self fixed_scenes None;
      if negb (GapValidator.is_valid validation) then
        fixed_scenes ← fix_gaps_shift_following self scenes;
        fix_overlaps_trim_previous self fixed_scenes
      else mret fixed_scenes
  end.

Definition rescale_step (adjustment_factor : F) (sc : positive)
    (cumulative_time : F) : py F :=
  _ ← setitem sc "start_time" cumulative_time;
  duration ← getitem sc "duration";
  _ ← setitem sc "duration" (nmul duration adjustment_factor);
  start_time ← getitem sc "start_time";
  duration ← getitem sc "duration";
  _ ← setitem sc "end_time" (nadd start_time duration);
  getitem sc "end_time".

Definition enforce_total_duration (self : validator)
    (scenes : positive) (target_duration : F) : py positive :=
  rs ← read_list scenes;
  match rs with
  | [] => mret scenes
  | _ =>
      fixed_scenes ← deepcopy scenes;
      items ← read_list fixed_scenes;
      durations ← mapM (λ sc, getitem sc "duration") items;
      let current_total := pysum durations in
      if nltb (nabs (nsub current_total target_duration))
              (GapValidator.default_tolerance self)
      then mret fixed_scenes
      else
        adjustment_factor ← lift (pydiv target_duration current_total);
        items ← read_list fixed_scenes;
        cumulative_time ← for_each_py items (rescale_step adjustment_factor)
                            nzero;
        let actual_total := cumulative_time in
        if ngtb (nabs (nsub actual_total target_duration))
                (GapValidator.default_tolerance self)
        then
          n ← len fixed_scenes;
          last_scene ← list_get fixed_scenes (n - 1);
          let adjustment := nsub target_duration actual_total in
          duration ← getitem last_scene "duration";
          _ ← setitem last_scene "duration" (nadd duration adjustment);
          end_time ← getitem last_scene "end_time";
          _ ← setitem last_scene "end_time" (nadd end_time adjustment);
          mret fixed_scenes
        else mret fixed_scenes
  end.

(** Every object of [σ] is in [σ'], unchanged. *)
Definition unchanged (σ σ' : store) : Prop :=
  dicts σ ⊆ dicts σ' ∧ lists σ ⊆ lists σ'.

(** [l] is a list object that [σ] did not hold, and none of its items
    is a dict that [σ] held. *)
Definition new_timeline (σ σ' : store) (l : positive) : Prop :=
  lists σ !! l = None
  ∧ ∃ rs, lists σ' !! l = Some rs ∧ Forall (λ r, dicts σ !! r = None) rs.

(** What an operation on a timeline does to the store it starts from:
    it changes no object that was there, and what it returns is a new
    list of new scenes, unless the argument is the empty list, which is
    returned itself. *)
Definition copies_its_argument (op : positive → py positive) : Prop :=
  ∀ (σ : store) (scenes : positive),
    unchanged σ (op scenes σ).2
    ∧ ∀ out rs,
        (op scenes σ).1 = Ok out → lists σ !! scenes = Some rs →
        match rs with
        | [] => out = scenes
        | _ => new_timeline σ (op scenes σ).2 out
        end.

End Store.

Arguments store : clear implicits.
Arguments fault : clear implicits.
End Store.

(** * Properties *)

(** ** The order of the two implementations *)

Lemma spec_float_tolerance_band (a b : spec_float) :
  SFleb (S754_zero false) a = true → SFltb a b = true →
  SFltb b (SFopp a) = false.
Proof.
  unfold SFleb, SFltb.
  destruct a as [[]|[]| |[] ma ea], b as [[]|[]| |[] mb eb]; simpl; try done.
Qed.

#[global] Instance binary64_order : NumOrder float.
Proof.
  constructor. intros tol x. simpl.
  rewrite leb_spec, !ltb_spec, opp_spec.
  apply spec_float_tolerance_band.
Qed.

#[global] Instance exact_order : NumOrder Qc.
Proof.
  constructor. intros tol x. simpl.
  rewrite !negb_true_iff, negb_false_iff, Qle_bool_iff.
  intros H0 Hx. apply Qle_bool_iff.
  apply not_true_iff_false in Hx. rewrite Qle_bool_iff in Hx.
  assert (Hopp : (Qcopp tol : Q) == - (tol : Q)) by apply Qred_correct.
  rewrite Hopp. change (Qred 0) with 0%Q in H0.
  apply Qnot_le_lt in Hx. lra.
Qed.

(** ** Loops *)

Lemma for_each_app {E A St} (xs ys : list A)
    (f : A → St → result E St) (s : St) :
  for_each (xs ++ ys) f s = s' ← for_each xs f s; for_each ys f s'.
Proof.
  revert s. induction xs as [|x xs IH]; intros s; simpl; [done|].
  destruct (f x s) as [s'|e]; simpl; [apply IH | done].
Qed.

Section Loops.
Context {E A St : Type}.
Implicit Types (body : nat → St → result E St).

Lemma range_snoc (a b : nat) : a ≤ b → range a (S b) = range a b ++ [b].
Proof.
  intros Hab. unfold range. replace (S b - a) with (S (b - a)) by lia.
  rewrite seq_S. do 2 f_equal. lia.
Qed.

Lemma range_empty (a b : nat) : b ≤ a → range a b = [].
Proof. intros Hab. unfold range. by replace (b - a) with 0 by lia. Qed.

(** An invariant indexed by the loop counter holds when the loop
    returns. *)
Lemma for_range_returns (Inv : nat → St → Prop) body (a b : nat) (s s' : St) :
  a ≤ b → Inv a s →
  (∀ i t t', a ≤ i < b → Inv i t → body i t = Ok t' → Inv (S i) t') →
  for_each (range a b) body s = Ok s' → Inv b s'.
Proof.
  intros Hab Ha Hstep. revert s'.
  induction Hab as [|b Hab IH]; intros s'.
  - rewrite range_empty by lia. simpl. by intros [= <-].
  - rewrite range_snoc, for_each_app by done.
    destruct (for_each (range a b) body s) as [t|e] eqn:Ht; simpl; [|done].
    destruct (body b t) as [t'|e] eqn:Hb; simpl; [|done].
    intros [= <-]. eapply (Hstep b t); [lia| |done].
    apply IH; [|done]. intros i u u' Hi. apply Hstep. lia.
Qed.

(** The loop returns when each turn does. *)
Lemma for_range_total (Inv : nat → St → Prop) body (a b : nat) (s : St) :
  a ≤ b → Inv a s →
  (∀ i t, a ≤ i < b → Inv i t → ∃ t', body i t = Ok t' ∧ Inv (S i) t') →
  ∃ s', for_each (range a b) body s = Ok s' ∧ Inv b s'.
Proof.
  intros Hab Ha Hstep.
  induction Hab as [|b Hab IH].
  - rewrite range_empty by lia. simpl. eauto.
  - destruct IH as (t & Ht & HI).
    { intros i u Hi. apply Hstep. lia. }
    destruct (Hstep b t) as (t' & Hb & HI'); [lia|done|].
    exists t'. rewrite range_snoc, for_each_app, Ht by done. simpl.
    by rewrite Hb.
Qed.

(** A loop that only checks: it returns when every check does, and
    otherwise raises what the first failing check raises. *)
Lemma for_each_checks_ok (xs : list A) (f : A → result E unit) :
  for_each xs (λ x _, f x) () = Ok () ↔ Forall (λ x, f x = Ok ()) xs.
Proof.
  induction xs as [|x xs IH]; simpl.
  - split; [by constructor|done].
  - rewrite Forall_cons. destruct (f x) as [[]|e]; simpl.
    + rewrite IH. naive_solver.
    + naive_solver.
Qed.

Lemma for_each_checks_raise (xs : list A) (f : A → result E unit) (e : E) :
  for_each xs (λ x _, f x) () = Raise e ↔
  ∃ i x, xs !! i = Some x ∧ f x = Raise e
         ∧ ∀ j y, j < i → xs !! j = Some y → f y = Ok ().
Proof.
  induction xs as [|x xs IH]; simpl.
  - split; [done|]. by intros (i & x & Hx & _).
  - destruct (f x) as [[]|e'] eqn:Hfx; simpl.
    + rewrite IH. split.
      * intros (i & y & Hy & Hfy & Hlt). exists (S i), y.
        split_and!; [done..|]. intros [|j] z Hj; simpl; [naive_solver|].
        apply Hlt. lia.
      * intros ([|i] & y & Hy & Hfy & Hlt); simpl in Hy.
        { congruence. }
        exists i, y. split_and!; [done..|]. intros j z Hj Hz.
        apply (Hlt (S j)); [lia|done].
    + split.
      * intros [= ->]. exists 0, x. split_and!; [done..|]. intros; lia.
      * intros ([|i] & y & Hy & Hfy & Hlt); simpl in Hy.
        { congruence. }
        specialize (Hlt 0 x). rewrite Hfx in Hlt. discriminate Hlt; [lia|done].
Qed.
End Loops.

(** ** Structural validation *)

Section Validation.
Context {F : Type} `{Num F}.
Import GapValidator.
Implicit Types (self : SceneGapValidator F) (sc : gmap string F).

Lemma describes_violates self i sc ve :
  describes self i sc ve → violates self sc.
Proof.
  unfold violates.
  destruct 1 as [field Hin Hnone|s e Hs He Hle|s e d Hs He Hd Hgt|s d Hs Hd Hneg].
  - unfold required_fields in Hin. set_solver.
  - destruct (sc !! "duration") as [d|] eqn:Hd; [|tauto].
    do 3 right. exists s, e, d. tauto.
  - do 3 right. exists s, e, d. tauto.
  - destruct (sc !! "end_time") as [e|] eqn:He; [|tauto].
    do 3 right. exists s, e, d. tauto.
Qed.

(** What the body of the loop of [_validate_scene_data] does with one
    scene. *)
Lemma validate_scene_cases self i sc :
  (validate_scene self i sc = Ok () ∧ ¬ violates self sc)
  ∨ ∃ ve, validate_scene self i sc = Raise (ValueError ve)
          ∧ describes self i sc ve.
Proof.
  unfold validate_scene, required_fields, getitem. simpl.
  destruct (sc !! "start_time") as [s|] eqn:Hs; simpl.
  2:{ right. eexists. split; [done|]. constructor; [set_solver|done]. }
  destruct (sc !! "end_time") as [e|] eqn:He; simpl.
  2:{ right. eexists. split; [done|]. constructor; [set_solver|done]. }
  destruct (sc !! "duration") as [d|] eqn:Hd; simpl.
  2:{ right. eexists. split; [done|]. constructor; [set_solver|done]. }
  destruct (nleb e s) eqn:Hes.
  { right. eexists. split; [done|]. by econstructor. }
  destruct (ngtb (nabs (nsub (nsub e s) d)) (default_tolerance self)) eqn:Hm.
  { right. eexists. split; [done|]. by econstructor. }
  destruct (nltb s nzero) eqn:Hneg; simpl.
  { right. eexists. split; [done|]. econstructor; eauto. }
  destruct (nleb d nzero) eqn:Hd0.
  { right. eexists. split; [done|]. econstructor; eauto. }
  left. split; [done|]. unfold violates.
  intros [?|[?|[?|(s' & e' & d' & ? & ? & ? & Hv)]]]; simplify_eq.
  destruct Hv as [?|[?|[?|?]]]; congruence.
Qed.

Lemma validate_scene_ok self i sc :
  validate_scene self i sc = Ok () ↔ ¬ violates self sc.
Proof.
  destruct (validate_scene_cases self i sc) as [[-> Hn]|(ve & -> & Hd)].
  - done.
  - split; [done|]. intros Hn. destruct Hn. by eapply describes_violates.
Qed.

Lemma validate_scene_data_ok self (scenes : list (gmap string F)) :
  _validate_scene_data self scenes = Ok ()
  ↔ Forall (λ sc, ¬ violates self sc) scenes.
Proof.
  unfold _validate_scene_data.
  rewrite (for_each_checks_ok (imap pair scenes)
             (λ item, validate_scene self item.1 item.2)).
  rewrite !Forall_lookup. split.
  - intros Hall i sc Hi. apply (validate_scene_ok self i).
    apply (Hall i (i, sc)). by rewrite list_lookup_imap, Hi.
  - intros Hall i [j sc]. rewrite list_lookup_imap.
    destruct (scenes !! i) as [sc'|] eqn:Hi; simpl; [|done].
    intros [= <- <-]. apply validate_scene_ok. eauto.
Qed.

Lemma validate_scene_data_raise self (scenes : list (gmap string F)) e :
  _validate_scene_data self scenes = Raise e →
  ∃ i sc ve, e = ValueError ve ∧ scenes !! i = Some sc
             ∧ describes self i sc ve
             ∧ ∀ j sc', j < i → scenes !! j = Some sc' → ¬ violates self sc'.
Proof.
  unfold _validate_scene_data.
  intros Hr.
  apply (for_each_checks_raise (imap pair scenes)
           (λ item, validate_scene self item.1 item.2)) in Hr
    as (i & [j sc] & Hi & Hraise & Hbefore).
  simpl in Hraise. rewrite list_lookup_imap in Hi.
  destruct (scenes !! i) as [sc'|] eqn:Hsc; simpl in Hi; [|done].
  injection Hi as <- <-.
  destruct (validate_scene_cases self i sc') as [[Hok _]|(ve & Hve & Hd)];
    [congruence|].
  exists i, sc', ve. split_and!; [congruence|done..|].
  intros j sc Hj Hsc'. apply (validate_scene_ok self j).
  apply (Hbefore j (j, sc)); [done|]. by rewrite list_lookup_imap, Hsc'.
Qed.

Lemma validate_scene_data_cases self (scenes : list (gmap string F)) :
  _validate_scene_data self scenes = Ok ()
  ∨ ∃ e, _validate_scene_data self scenes = Raise e.
Proof. destruct (_validate_scene_data self scenes) as [[]|e]; eauto. Qed.

End Validation.

(** ** Gaps and overlaps *)

Section Continuity.
Context {F : Type} `{Num F}.
Import GapValidator.
Implicit Types (self : SceneGapValidator F) (sc : gmap string F)
  (scenes : list (gmap string F)).

Definition gap_at (i : nat) (e s : F) : gap_record F :=
  {| after_scene := i; gap_start := e; gap_end := s;
     gap_duration := nsub s e |}.

Definition overlap_at (i : nat) (e s : F) : overlap_record F :=
  {| scene1 := i; scene2 := i + 1; overlap_start := s; overlap_end := e;
     overlap_duration := nabs (nsub s e) |}.

Lemma not_violates_complete self sc : ¬ violates self sc → complete sc.
Proof.
  unfold violates, complete. intros Hn.
  destruct (sc !! "start_time"), (sc !! "end_time"), (sc !! "duration");
    naive_solver.
Qed.

Lemma adjacent_gap_unique scenes i e s e' s' :
  adjacent_gap scenes i e s → adjacent_gap scenes i e' s' → e = e' ∧ s = s'.
Proof.
  intros (c & n & Hc & Hn & He & Hs) (c' & n' & Hc' & Hn' & He' & Hs').
  by simplify_eq.
Qed.

Lemma adjacent_gap_complete scenes i :
  Forall complete scenes → i + 1 < length scenes →
  ∃ e s, adjacent_gap scenes i e s.
Proof.
  intros Hall Hi.
  destruct (lookup_lt_is_Some_2 scenes i) as [c Hc]; [lia|].
  destruct (lookup_lt_is_Some_2 scenes (i + 1)) as [n Hn]; [lia|].
  destruct (proj1 (Forall_lookup _ _) Hall _ _ Hc) as (_ & [e He] & _).
  destruct (proj1 (Forall_lookup _ _) Hall _ _ Hn) as ([s Hs] & _ & _).
  exists e, s, c, n. eauto.
Qed.

(** The record, if any, that the pair of scenes at [j] and [j + 1]
    leaves in each list. *)
Definition gap_recorded scenes (tolerance : F) (j : nat) (g : gap_record F)
  : Prop :=
  ∃ e s, adjacent_gap scenes j e s ∧ ngtb (nsub s e) tolerance = true
         ∧ g = gap_at j e s.

Definition overlap_recorded scenes (tolerance : F) (j : nat)
    (o : overlap_record F) : Prop :=
  ∃ e s, adjacent_gap scenes j e s ∧ ngtb (nsub s e) tolerance = false
         ∧ nltb (nsub s e) (nopp tolerance) = true ∧ o = overlap_at j e s.

(** The invariant of the loop over adjacent pairs: after [i] turns the
    two lists hold the records of the pairs before [i]. *)
Definition continuity_inv scenes (tolerance : F) (i : nat)
    (st : list (gap_record F) * list (overlap_record F)) : Prop :=
  (∀ g, g ∈ st.1 ↔ ∃ j, j < i ∧ gap_recorded scenes tolerance j g)
  ∧ (∀ o, o ∈ st.2 ↔ ∃ j, j < i ∧ overlap_recorded scenes tolerance j o).

Lemma recorded_snoc {X} (l : list X) (P : nat → X → Prop) (i : nat) (y : X) :
  (∀ x, x ∈ l ↔ ∃ j, j < i ∧ P j x) → (∀ x, P i x ↔ x = y) →
  ∀ x, x ∈ l ++ [y] ↔ ∃ j, j < S i ∧ P j x.
Proof.
  intros Hl Hi x. rewrite elem_of_app, list_elem_of_singleton, Hl. split.
  - intros [(j & Hj & HP)| ->].
    + exists j. split; [lia|done].
    + exists i. split; [lia|]. by apply Hi.
  - intros (j & Hj & HP). destruct (decide (j = i)) as [->|Hne].
    + right. by apply Hi.
    + left. exists j. split; [lia|done].
Qed.

Lemma recorded_skip {X} (l : list X) (P : nat → X → Prop) (i : nat) :
  (∀ x, x ∈ l ↔ ∃ j, j < i ∧ P j x) → (∀ x, ¬ P i x) →
  ∀ x, x ∈ l ↔ ∃ j, j < S i ∧ P j x.
Proof.
  intros Hl Hi x. rewrite Hl. split.
  - intros (j & Hj & HP). exists j. split; [lia|done].
  - intros (j & Hj & HP). destruct (decide (j = i)) as [->|Hne].
    + by destruct (Hi x).
    + exists j. split; [lia|done].
Qed.

Lemma continuity_step_inv scenes tolerance i st e s :
  adjacent_gap scenes i e s → continuity_inv scenes tolerance i st →
  ∃ st', continuity_step scenes tolerance i st = Ok st'
         ∧ continuity_inv scenes tolerance (S i) st'.
Proof.
  intros Hadj [Hg Ho]. destruct st as [gs os]. simpl in Hg, Ho.
  pose proof Hadj as (c & n & Hc & Hn & He & Hs).
  unfold continuity_step, list_get, getitem. rewrite Hc, Hn. simpl.
  rewrite Hs, He. simpl.
  assert (Hsame : ∀ e' s', adjacent_gap scenes i e' s' → e' = e ∧ s' = s).
  { intros e' s' Hadj'. by eapply adjacent_gap_unique. }
  destruct (ngtb (nsub s e) tolerance) eqn:Hgt;
    [|destruct (nltb (nsub s e) (nopp tolerance)) eqn:Hov];
    eexists; (split; [done|]); split; simpl.
  - apply recorded_snoc; [done|]. intros g. split.
    + intros (e' & s' & Hadj' & _ & ->).
      by destruct (Hsame _ _ Hadj') as [-> ->].
    + intros ->. by exists e, s.
  - apply recorded_skip; [done|]. intros o (e' & s' & Hadj' & Hno & _).
    destruct (Hsame _ _ Hadj') as [-> ->]. congruence.
  - apply recorded_skip; [done|]. intros g (e' & s' & Hadj' & Hyes & _).
    destruct (Hsame _ _ Hadj') as [-> ->]. congruence.
  - apply recorded_snoc; [done|]. intros o. split.
    + intros (e' & s' & Hadj' & _ & _ & ->).
      by destruct (Hsame _ _ Hadj') as [-> ->].
    + intros ->. by exists e, s.
  - apply recorded_skip; [done|]. intros g (e' & s' & Hadj' & Hyes & _).
    destruct (Hsame _ _ Hadj') as [-> ->]. congruence.
  - apply recorded_skip; [done|]. intros o (e' & s' & Hadj' & _ & Hyes & _).
    destruct (Hsame _ _ Hadj') as [-> ->]. congruence.
Qed.

Lemma continuity_loop scenes tolerance :
  Forall complete scenes →
  ∃ st, for_each (range 0 (length scenes - 1))
          (continuity_step scenes tolerance) ([], []) = Ok st
        ∧ continuity_inv scenes tolerance (length scenes - 1) st.
Proof.
  intros Hall.
  apply (for_range_total (continuity_inv scenes tolerance)); [lia| |].
  - split; intros x; simpl; (split; [by intros ?%elem_of_nil|]);
      intros (j & ? & _); lia.
  - intros i st Hi Hinv.
    destruct (adjacent_gap_complete scenes i Hall) as (e & s & Hadj); [lia|].
    by eapply continuity_step_inv.
Qed.

(** On a timeline that passes the structural checks the validation
    returns, and its two lists are the records of the adjacent pairs. *)
Lemma validate_scene_continuity_returns self scenes tolerance :
  Forall (λ sc, ¬ violates self sc) scenes →
  let ε := default (default_tolerance self) tolerance in
  ∃ rep, validate_scene_continuity self scenes tolerance = Ok rep
         ∧ continuity_inv scenes ε (length scenes - 1) (gaps rep, overlaps rep)
         ∧ is_valid rep = bool_decide (gaps rep = [])
                          && bool_decide (overlaps rep = []).
Proof.
  intros Hvalid ε.
  assert (Hall : Forall complete scenes).
  { eapply Forall_impl; [done|]. intros sc. apply not_violates_complete. }
  unfold validate_scene_continuity.
  apply validate_scene_data_ok in Hvalid as ->.
  unfold mbind at 1, result_bind at 1.
  destruct scenes as [|first [|second rest]].
  - eexists. split; [done|]. split; [|done].
    split; intros x; simpl; (split; [by intros ?%elem_of_nil|]);
      intros (j & ? & _); lia.
  - apply Forall_inv in Hall as (_ & _ & [d Hd]).
    unfold getitem. rewrite Hd. simpl. eexists. split; [done|].
    split; [|done].
    split; intros x; simpl; (split; [by intros ?%elem_of_nil|]);
      intros (j & ? & _); lia.
  - destruct (continuity_loop (first :: second :: rest) ε Hall)
      as ([gs os] & Hloop & Hinv).
    fold ε. rewrite Hloop.
    set (scenes := first :: second :: rest) in *.
    destruct (lookup_lt_is_Some_2 scenes (length scenes - 1))
      as [last_scene Hlast]; [simpl; lia|].
    destruct (proj1 (Forall_lookup _ _) Hall _ _ Hlast) as (_ & [e He] & _).
    destruct (Forall_inv Hall) as ([s Hs] & _ & _).
    unfold mbind at 1, result_bind at 1. unfold list_get, getitem.
    rewrite Hlast. simpl. rewrite He. simpl. rewrite Hs. simpl.
    eexists. split; [done|]. split; [done|]. simpl.
    by destruct gs, os.
Qed.

End Continuity.

(** ** Trimming overlaps *)

Section Trim.
Context {F : Type} `{Num F}.
Import GapValidator.
Implicit Types (self : SceneGapValidator F) (sc : gmap string F)
  (scenes fixed : list (gmap string F)).

(** The fields other than [end_time] and [duration] are the same. *)
Definition same_but_end (sc sc' : gmap string F) : Prop :=
  ∀ key, key ≠ "end_time" → key ≠ "duration" → sc' !! key = sc !! key.

Lemma same_but_end_refl sc : same_but_end sc sc.
Proof. by intros key. Qed.

Lemma same_but_end_insert_end sc sc' x :
  same_but_end sc sc' → same_but_end sc (<["end_time" := x]> sc').
Proof. intros Hs key ? ?. rewrite lookup_insert_ne by done. by apply Hs. Qed.

Lemma same_but_end_insert_duration sc sc' x :
  same_but_end sc sc' → same_but_end sc (<["duration" := x]> sc').
Proof. intros Hs key ? ?. rewrite lookup_insert_ne by done. by apply Hs. Qed.

Lemma complete_insert sc key x : complete sc → complete (<[key := x]> sc).
Proof.
  intros (Hs & He & Hd). unfold complete.
  rewrite !lookup_insert. repeat case_decide; eauto.
Qed.

(** One turn of the loop rewrites scene [i] at most, and of it the
    fields [end_time] and [duration] at most. *)
Lemma trim_step_returns i fixed fixed' :
  trim_step i fixed = Ok fixed' →
  length fixed' = length fixed
  ∧ (∀ j, j ≠ i → fixed' !! j = fixed !! j)
  ∧ (∀ sc, fixed !! i = Some sc →
       ∃ sc', fixed' !! i = Some sc' ∧ same_but_end sc sc'
              ∧ (complete sc → complete sc')).
Proof.
  unfold trim_step, list_get, getitem.
  destruct (fixed !! i) as [c|] eqn:Hc; simpl; [|done].
  destruct (fixed !! (i + 1)) as [n|] eqn:Hn; simpl; [|done].
  destruct (c !! "end_time") as [ce|] eqn:Hce; simpl; [|done].
  destruct (n !! "start_time") as [ns|] eqn:Hns; simpl; [|done].
  assert (Hi : i < length fixed) by by eapply lookup_lt_Some.
  destruct (ngtb ce ns).
  2:{ intros [= <-]. split_and!; [done..|]. intros sc [= <-].
      exists c. split_and!; [done| apply same_but_end_refl | done]. }
  rewrite lookup_insert_ne by done.
  destruct (c !! "start_time") as [cs|] eqn:Hcs; simpl; [|done].
  destruct (nleb (nsub ns cs) nzero); intros [= <-];
    (split_and!;
     [ by rewrite length_insert
     | intros j Hj; by rewrite list_lookup_insert_ne
     | intros sc [= <-]; eexists; split_and!;
       [ by apply list_lookup_insert_eq
       | repeat first [ apply same_but_end_insert_end
                      | apply same_but_end_insert_duration ];
         apply same_but_end_refl
       | intros Hcomp; by repeat apply complete_insert ] ]).
Qed.


(** The invariant of the loop of [fix_overlaps_trim_previous]. *)
Definition trim_inv scenes (i : nat) fixed : Prop :=
  length fixed = length scenes
  ∧ (∀ j, i ≤ j → fixed !! j = scenes !! j)
  ∧ (∀ j sc, scenes !! j = Some sc →
       ∃ sc', fixed !! j = Some sc' ∧ same_but_end sc sc'
              ∧ (complete sc → complete sc')).

Lemma trim_inv_start scenes : trim_inv scenes 0 scenes.
Proof.
  split_and!; [done..|]. intros j sc Hj. exists sc.
  split_and!; [done|apply same_but_end_refl|done].
Qed.

Lemma trim_inv_step scenes i fixed fixed' :
  trim_inv scenes i fixed → trim_step i fixed = Ok fixed' →
  trim_inv scenes (S i) fixed'.
Proof.
  intros (Hlen & Hrest & Hsame) Hstep.
  apply trim_step_returns in Hstep as (Hlen' & Hother & Hthis).
  split_and!.
  - congruence.
  - intros j Hj. rewrite Hother by lia. apply Hrest. lia.
  - intros j sc Hsc. destruct (decide (j = i)) as [->|Hne].
    + destruct (Hthis sc) as (sc' & Hsc' & Hs & Hc).
      { by rewrite Hrest. }
      by exists sc'.
    + rewrite Hother by done. by apply Hsame.
Qed.




End Trim.

(** ** The statements of the design document *)

Section Claims.
Import GapValidator.

(** Two timelines of the test-suite, in binary64. *)
Definition gap_example : list (gmap string float) :=
  [scene 0 10 10; scene 12 27 15; scene 30 45 15]%float.

Definition overlap_example : list (gmap string float) :=
  [scene 0 12 12; scene 10 25 15; scene 23 38 15]%float.

(** C5.  On a timeline that passes the structural checks, with a
    tolerance that is not negative, the validation returns a report
    whose gaps are exactly the records of the adjacent pairs with
    [next.start_time - current.end_time > tolerance] and whose overlaps
    are exactly the records of the pairs where that difference is below
    [-tolerance].  On the scenes [0,10], [12,27], [30,45] the report has
    the two gaps [{after_scene: 0, gap_duration: 2.0}] and
    [{after_scene: 1, gap_duration: 3.0}] and no overlap. *)
Theorem validate_scene_continuity_gaps_overlaps :
  (∀ (F : Type) (N : Num F) (O : NumOrder F) (self : SceneGapValidator F)
     (scenes : list (gmap string F)) (tolerance : option F),
     let ε := default (default_tolerance self) tolerance in
     nleb nzero ε = true →
     Forall (λ sc, ¬ violates self sc) scenes →
     ∃ rep,
       validate_scene_continuity self scenes tolerance = Ok rep
       ∧ (∀ g, g ∈ gaps rep ↔
               ∃ i e s, adjacent_gap scenes i e s
                        ∧ ngtb (nsub s e) ε = true ∧ g = gap_at i e s)
       ∧ (∀ o, o ∈ overlaps rep ↔
               ∃ i e s, adjacent_gap scenes i e s
                        ∧ nltb (nsub s e) (nopp ε) = true
                        ∧ o = overlap_at i e s))
  ∧ ∃ rep,
      validate_scene_continuity init gap_example None = Ok rep
      ∧ gaps rep = [gap_at 0 10 12; gap_at 1 27 30]%float
      ∧ gap_duration <$> gaps rep = [2; 3]%float
      ∧ overlaps rep = [].
Proof.
  split.
  - intros F N O self scenes tolerance ε Hε Hvalid.
    destruct (validate_scene_continuity_returns self scenes tolerance Hvalid)
      as (rep & Hrep & [Hg Ho] & _).
    exists rep. split; [done|]. fold ε in Hg, Ho. simpl in Hg, Ho. split.
    + intros g. rewrite Hg. split.
      * intros (j & Hj & e & s & Hadj & Hgt & ->). by exists j, e, s.
      * intros (j & e & s & Hadj & Hgt & ->). exists j. split; [|by exists e, s].
        destruct Hadj as (c & n & _ & Hn%lookup_lt_Some & _). lia.
    + intros o. rewrite Ho. split.
      * intros (j & Hj & e & s & Hadj & _ & Hlt & ->). by exists j, e, s.
      * intros (j & e & s & Hadj & Hlt & ->). exists j. split.
        { destruct Hadj as (c & n & _ & Hn%lookup_lt_Some & _). lia. }
        exists e, s. split_and!; [done| |done..].
        destruct (ngtb (nsub s e) ε) eqn:Hgt; [|done].
        apply (tolerance_band ε) in Hgt; [congruence|done].
  - eexists. split; [reflexivity|]. split_and!; reflexivity.
Qed.

(** The first half of the statement above, on the scenes of its second
    half. *)
Lemma validate_scene_continuity_gaps_overlaps_witness :
  ∃ rep,
    validate_scene_continuity init gap_example None = Ok rep
    ∧ (∀ g, g ∈ gaps rep ↔
            ∃ i e s, adjacent_gap gap_example i e s
                     ∧ ngtb (nsub s e) lit_0_001 = true ∧ g = gap_at i e s)
    ∧ (∀ o, o ∈ overlaps rep ↔
            ∃ i e s, adjacent_gap gap_example i e s
                     ∧ nltb (nsub s e) (nopp lit_0_001) = true
                     ∧ o = overlap_at i e s).
Proof.
  apply (proj1 validate_scene_continuity_gaps_overlaps float binary64
           binary64_order init gap_example None).
  - reflexivity.
  - repeat (constructor; [by apply (validate_scene_ok init 0)|]).
    constructor.
Defined.

(** C6.  When some scene of the timeline breaks a structural invariant,
    the validation raises a [ValueError] and returns no report; the
    error names the first such scene and a field of it that is at
    fault.  When no scene does, the validation returns a report. *)
Theorem validate_scene_continuity_structural_errors :
  ∀ (F : Type) (N : Num F) (self : SceneGapValidator F)
    (scenes : list (gmap string F)) (tolerance : option F),
    (Exists (violates self) scenes →
     ∃ i sc ve,
       validate_scene_continuity self scenes tolerance = Raise (ValueError ve)
       ∧ scenes !! i = Some sc ∧ describes self i sc ve
       ∧ ∀ j sc', j < i → scenes !! j = Some sc' → ¬ violates self sc')
    ∧ (Forall (λ sc, ¬ violates self sc) scenes →
       ∃ rep, validate_scene_continuity self scenes tolerance = Ok rep).
Proof.
  intros F N self scenes tolerance. split.
  - intros Hex.
    destruct (validate_scene_data_cases self scenes) as [Hok|[e He]].
    { apply validate_scene_data_ok in Hok.
      apply Exists_exists in Hex as (sc & Hin & Hv).
      by destruct (proj1 (Forall_forall _ _) Hok sc Hin). }
    destruct (validate_scene_data_raise self scenes e He)
      as (i & sc & ve & -> & Hsc & Hd & Hbefore).
    exists i, sc, ve. split; [|done].
    unfold validate_scene_continuity. by rewrite He.
  - intros Hvalid.
    destruct (validate_scene_continuity_returns self scenes tolerance Hvalid)
      as (rep & Hrep & _).
    by exists rep.
Qed.

(** The timeline of [test_invalid_scene_data_handling]. *)
Definition invalid_example : list (gmap string float) :=
  [scene 10 5 (-5); scene 5 15 8]%float.

Lemma validate_scene_continuity_structural_errors_witness :
  ∃ i sc ve,
    validate_scene_continuity init invalid_example None
    = Raise (ValueError ve)
    ∧ invalid_example !! i = Some sc ∧ describes init i sc ve
    ∧ ∀ j sc', j < i → invalid_example !! j = Some sc' → ¬ violates init sc'.
Proof.
  apply (proj1 (validate_scene_continuity_structural_errors
                  float binary64 init invalid_example None)).
  apply Exists_cons_hd. eapply (describes_violates init 0).
  by apply (describes_end_before_start init 0 _ 10%float 5%float).
Defined.

(** The error depends on the timeline and on the validator, not on the
    tolerance of the call. *)
Lemma validate_scene_continuity_raise {F : Type} `{Num F}
    (self : SceneGapValidator F) (scenes : list (gmap string F))
    (tolerance : option F) (err : exn F) :
  validate_scene_continuity self scenes tolerance = Raise err
  ↔ _validate_scene_data self scenes = Raise err.
Proof.
  destruct (validate_scene_data_cases self scenes) as [Hok|[e He]].
  - pose proof Hok as Hvalid. apply validate_scene_data_ok in Hvalid.
    destruct (validate_scene_continuity_returns self scenes tolerance Hvalid)
      as (rep & -> & _).
    by rewrite Hok.
  - unfold validate_scene_continuity. rewrite He. simpl.
    split; intros [= <-]; reflexivity.
Qed.

(** C9.  The tolerance given to a call plays no part in the structural
    check: a scene whose [duration] is further from
    [end_time - start_time] than the validator's [default_tolerance]
    makes the call raise whatever tolerance it is given, and a call
    raises with a tolerance exactly when it raises, with the same error,
    without one. *)
Theorem validate_scene_continuity_ignores_call_tolerance :
  ∀ (F : Type) (N : Num F) (self : SceneGapValidator F)
    (scenes : list (gmap string F)) (tolerance : F),
    (∀ i sc s e d,
       scenes !! i = Some sc →
       sc !! "start_time" = Some s → sc !! "end_time" = Some e →
       sc !! "duration" = Some d →
       ngtb (nabs (nsub (nsub e s) d)) (default_tolerance self) = true →
       ∃ ve, validate_scene_continuity self scenes (Some tolerance)
             = Raise (ValueError ve))
    ∧ (∀ err,
         validate_scene_continuity self scenes (Some tolerance) = Raise err
         ↔ validate_scene_continuity self scenes None = Raise err).
Proof.
  intros F N self scenes tolerance. split.
  - intros i sc s e d Hsc Hs He Hd Hgt.
    destruct (proj1 (validate_scene_continuity_structural_errors
                       F N self scenes (Some tolerance)))
      as (j & sc' & ve & Hraise & _).
    { apply Exists_exists. exists sc. split; [by eapply list_elem_of_lookup_2|].
      do 3 right. exists s, e, d. tauto. }
    by exists ve.
  - intros err. by rewrite !validate_scene_continuity_raise.
Qed.

(** A scene from 0 to 10 that claims a duration of 10.5, validated with
    a tolerance of one second. *)
Lemma validate_scene_continuity_ignores_call_tolerance_witness :
  ∃ ve, validate_scene_continuity init [scene 0 10 10.5]%float (Some 1%float)
        = Raise (ValueError ve).
Proof.
  apply (proj1 (validate_scene_continuity_ignores_call_tolerance
                  float binary64 init [scene 0 10 10.5]%float 1%float)
           0 (scene 0 10 10.5)%float 0%float 10%float 10.5%float);
    reflexivity.
Defined.

(** The timeline as the design document writes it, its second scene
    starting at 12, and the scenes the document expects back. *)
Definition overlap_example_as_stated : list (gmap string float) :=
  [scene 0 12 12; scene 12 25 15; scene 23 38 15]%float.

Definition overlap_example_trimmed : list (gmap string float) :=
  [scene 0 10 10; scene 10 23 13; scene 23 38 15]%float.

(** On the timeline as stated the first scene is left alone and the
    second one is cut to 11 seconds. *)
Lemma fix_overlaps_trim_previous_as_stated :
  fix_overlaps_trim_previous init overlap_example_as_stated
  = Ok [scene 0 12 12; scene 12 23 11; scene 23 38 15]%float
  ∧ [scene 0 12 12; scene 12 23 11; scene 23 38 15]%float
    ≠ overlap_example_trimmed.
Proof.
  split; [reflexivity|]. intros Heq.
  apply (f_equal (λ l, match l !! 0 ≫= (.!! "end_time") with
                       | Some x => PrimFloat.eqb x 12
                       | None => false
                       end)) in Heq.
  vm_compute in Heq. discriminate.
Qed.

(** C3, with the second scene starting at 10 as in the test-suite.  For
    the scenes [0,12], [10,25], [23,38] of durations 12, 15, 15 the
    trimming returns [0,10], [10,23], [23,38] of durations 10, 13, 15,
    and the validation finds the result valid. *)
Theorem fix_overlaps_trim_previous_example :
  fix_overlaps_trim_previous init overlap_example = Ok overlap_example_trimmed
  ∧ ∃ rep,
      validate_scene_continuity init overlap_example_trimmed None = Ok rep
      ∧ is_valid rep = true.
Proof. split; [reflexivity|]. eexists. split; reflexivity. Qed.



(** Two scenes, the second one starting before the first one does. *)
Definition backwards_example : list (gmap string float) :=
  [scene 5 10 5; scene 2 8 6]%float.

(** On them [fix_all_timing_issues] returns, from its second attempt, a
    timeline in which the two scenes still overlap. *)
Lemma fix_all_timing_issues_returns_invalid :
  ∃ fixed rep,
    fix_all_timing_issues init backwards_example None = Ok fixed
    ∧ validate_scene_continuity init fixed None = Ok rep
    ∧ is_valid rep = false
    ∧ length (overlaps rep) = 1.
Proof. do 2 eexists. split_and!; reflexivity. Qed.

(** C4, as the code has it.  On a timeline that is not empty,
    [fix_all_timing_issues] trims the overlaps, extends over the gaps
    and validates the result.  If that is valid it is what the function
    returns.  If not, the function returns what shifting and then
    trimming the original timeline gives, and does not validate again.
    An exception of any of these steps is the exception of the
    function.  There is no third attempt. *)
Theorem fix_all_timing_issues_two_attempts :
  ∀ (F : Type) (N : Num F) (self : SceneGapValidator F)
    (scenes : list (gmap string F)) (min_scene_duration : option F),
    scenes ≠ [] →
    let first_attempt :=
      trimmed ← fix_overlaps_trim_previous self scenes;
      fix_gaps_extend_previous self trimmed min_scene_duration in
    let second_attempt :=
      shifted ← fix_gaps_shift_following self scenes;
      fix_overlaps_trim_previous self shifted in
    match first_attempt with
    | Raise err =>
        fix_all_timing_issues self scenes min_scene_duration = Raise err
    | Ok fixed =>
        match validate_scene_continuity self fixed None with
        | Raise err =>
            fix_all_timing_issues self scenes min_scene_duration = Raise err
        | Ok rep =>
            if is_valid rep then
              fix_all_timing_issues self scenes min_scene_duration = Ok fixed
            else
              fix_all_timing_issues self scenes min_scene_duration
              = second_attempt
        end
    end.
Proof.
  intros F N self scenes min_scene_duration Hne. simpl.
  unfold fix_all_timing_issues. destruct scenes as [|sc0 rest]; [done|].
  destruct (fix_overlaps_trim_previous self (sc0 :: rest)) as [trimmed|err];
    simpl; [|done].
  destruct (fix_gaps_extend_previous self trimmed min_scene_duration)
    as [fixed|err]; simpl; [|done].
  destruct (validate_scene_continuity self fixed None) as [rep|err];
    simpl; [|done].
  by destruct (is_valid rep).
Qed.

Lemma fix_all_timing_issues_two_attempts_witness :
  fix_all_timing_issues init backwards_example None
  = (shifted ← fix_gaps_shift_following init backwards_example;
     fix_overlaps_trim_previous init shifted).
Proof.
  exact (fix_all_timing_issues_two_attempts float binary64 init
           backwards_example None ltac:(discriminate)).
Defined.
End Claims.

(** C8.  With clips whose [set_duration] does what its name says, the
    clip that [enforce_audio_priority] returns has the audio duration,
    and the visual preference passed along makes no difference to it. *)
Theorem enforce_audio_priority_audio_wins :
  ∀ (F clip : Type) (N : Num F) (C : ClipLike F clip) (L : ClipLaws F clip)
    (self : AudioSync.AudioMasterSync F) (video_clip : clip)
    (audio_duration : F) (preference preference' : option F),
    duration (AudioSync.enforce_audio_priority self video_clip audio_duration
                preference) = audio_duration
    ∧ AudioSync.enforce_audio_priority self video_clip audio_duration
        preference
      = AudioSync.enforce_audio_priority self video_clip audio_duration
          preference'.
Proof.
  intros F clip N C L self video_clip audio_duration preference preference'.
  split; [|done]. unfold AudioSync.enforce_audio_priority.
  apply duration_set_duration.
Qed.

(** A clip of 60 seconds, an audio track of 42.123 seconds, and a
    preference for 60 seconds or none. *)
Lemma enforce_audio_priority_audio_wins_witness :
  duration (AudioSync.enforce_audio_priority AudioSync.init
              {| plain_duration := 60%float |} 42.123%float (Some 60%float))
  = 42.123%float
  ∧ AudioSync.enforce_audio_priority AudioSync.init
      {| plain_duration := 60%float |} 42.123%float (Some 60%float)
    = AudioSync.enforce_audio_priority AudioSync.init
        {| plain_duration := 60%float |} 42.123%float None.
Proof.
  exact (enforce_audio_priority_audio_wins float (plain_clip float) binary64
           plain_clip_like plain_clip_laws AudioSync.init
           {| plain_duration := 60%float |} 42.123%float
           (Some 60%float) None).
Defined.

(** ** Exact arithmetic *)

Section Exact.
#[local] Open Scope Qc_scope.

(** [float(z)] in exact arithmetic *)
Definition qz (z : Z) : Qc := Q2Qc (inject_Z z).

Lemma qz_add (a b : Z) : qz (a + b) = qz a + qz b.
Proof.
  unfold qz. apply Qc_is_canon. simpl.
  rewrite !Qred_correct, inject_Z_plus. reflexivity.
Qed.

Lemma qz_0 : qz 0 = 0.
Proof. reflexivity. Qed.

Lemma qz_1 : qz 1 = 1.
Proof. reflexivity. Qed.

Lemma qz_succ (i : nat) : qz (Z.of_nat (S i)) = qz (Z.of_nat i) + 1.
Proof. by rewrite Nat2Z.inj_succ, <-Z.add_1_r, qz_add, qz_1. Qed.

Lemma qz_eq_0 (z : Z) : qz z = 0 → z = 0%Z.
Proof.
  unfold qz. intros Hz. apply Q2Qc_eq_iff in Hz.
  unfold Qeq in Hz. simpl in Hz. lia.
Qed.

Lemma exact_nleb (x y : Qc) : nleb x y = true ↔ x <= y.
Proof. simpl. apply Qle_bool_iff. Qed.

Lemma exact_nltb (x y : Qc) : nltb x y = true ↔ x < y.
Proof.
  simpl. rewrite negb_true_iff, <-not_true_iff_false, Qle_bool_iff.
  split; [apply Qnot_le_lt|apply Qlt_not_le].
Qed.

Lemma exact_neqb (x y : Qc) : neqb x y = true ↔ x = y.
Proof.
  simpl. rewrite Qeq_bool_iff. split; [apply Qc_is_canon|by intros ->].
Qed.

Lemma exact_to_float (z : Z) : to_float z = Ok (qz z).
Proof. reflexivity. Qed.

Lemma exact_pydiv (x y : Qc) : y ≠ 0 → pydiv x y = Ok (x / y).
Proof.
  intros Hy. unfold pydiv. destruct (neqb y nzero) eqn:Heq; [|done].
  by apply exact_neqb in Heq.
Qed.

Lemma exact_pysum_replicate (n : nat) (x : Qc) :
  pysum (replicate n x) = qz (Z.of_nat n) * x.
Proof.
  induction n as [|n IH].
  - change (0 = qz 0 * x). rewrite qz_0. ring.
  - rewrite replicate_S_end. unfold pysum in *. rewrite foldl_snoc, IH.
    rewrite qz_succ. change (qz (Z.of_nat n) * x + x = (qz (Z.of_nat n) + 1) * x).
    ring.
Qed.

End Exact.

(** ** Distribution of durations *)

Section Distribution.
Import SceneTiming.

Lemma for_each_m_app {F : Type} `{Num F} {A St} (xs ys : list A)
    (body : A → St → method St) (s : St) (self : SceneTimingCalculator F) :
  for_each_m (xs ++ ys) body s self
  = match for_each_m xs body s self with
    | (Ok s', self') => for_each_m ys body s' self'
    | (Raise e, self') => (Raise e, self')
    end.
Proof.
  revert s self. induction xs as [|x xs IH]; intros s self; simpl; [done|].
  unfold mbind, method_bind.
  destruct (body x s self) as [[s'|e] self']; [apply IH|done].
Qed.

(** One turn of the tracking loop appends the difference between the
    ideal running total and the running total so far; the bookkeeping
    of deficits and surpluses touches [self] only. *)
Lemma tracking_step_returns {F : Type} `{Num F} (base_duration : F)
    (track : bool) (i : nat) (durations : list F) (running_total k : F)
    (self : SceneTimingCalculator F) :
  to_float (Z.of_nat i + 1) = Ok k →
  let scene_duration := nsub (nmul k base_duration) running_total in
  ∃ self',
    tracking_step base_duration track i (durations, running_total) self
    = (Ok (durations ++ [scene_duration], nadd running_total scene_duration),
       self').
Proof.
  intros Hk. simpl. unfold tracking_step, mbind, method_bind, lift.
  rewrite Hk. destruct track; [|by eexists].
  unfold append_deficit, append_surplus, modify, mret, method_ret.
  repeat (match goal with |- context [if ?b then _ else _] => destruct b end);
    by eexists.
Qed.

#[local] Open Scope Qc_scope.

Lemma tracking_loop_exact (base_duration : Qc) (track : bool) (n : nat)
    (self : SceneTimingCalculator Qc) :
  ∃ self',
    for_each_m (range 0 n) (tracking_step base_duration track) ([], nzero) self
    = (Ok (replicate n base_duration, qz (Z.of_nat n) * base_duration), self').
Proof.
  induction n as [|n (self1 & IH)].
  - exists self.
    replace (qz (Z.of_nat 0) * base_duration) with (nzero : Qc); [done|].
    change (0 = qz 0 * base_duration). rewrite qz_0. ring.
  - rewrite range_snoc, for_each_m_app, IH by lia.
    cbn [for_each_m]. unfold mbind, method_bind.
    destruct (tracking_step_returns base_duration track n
                (replicate n base_duration)
                (qz (Z.of_nat n) * base_duration) (qz (Z.of_nat n + 1)) self1)
      as (self2 & ->); [done|].
    exists self2. unfold mret, method_ret. rewrite replicate_S_end.
    assert (Hd : nsub (nmul (qz (Z.of_nat n + 1)) base_duration)
                   (qz (Z.of_nat n) * base_duration) = base_duration).
    { rewrite qz_add, qz_1. simpl. ring. }
    rewrite Hd.
    replace (nadd (qz (Z.of_nat n) * base_duration) base_duration)
      with (qz (Z.of_nat (S n)) * base_duration); [done|].
    rewrite qz_succ. simpl. ring.
Qed.

Lemma exact_div_mul (t : Qc) (n : Z) :
  (0 < n)%Z → qz n * (t / qz n) = t.
Proof.
  intros Hn. apply Qcmult_div_r. intros Hz%qz_eq_0. lia.
Qed.

Lemma exact_zero_within_tolerance (t : Qc) :
  ngtb (nabs (nsub t t)) lit_0_001 = false
  ∧ nltb (nabs (nsub t t)) lit_0_001 = true.
Proof.
  assert (Hz : nabs (nsub t t) = 0).
  { simpl. replace (t - t) with 0 by ring. by apply Qcabs_pos. }
  rewrite Hz. split; reflexivity.
Qed.

Lemma _distribute_with_tracking_exact (t : Qc) (n : Z) (track : bool)
    (self : SceneTimingCalculator Qc) :
  (0 < n)%Z →
  ∃ self',
    _distribute_with_tracking t n track self
    = (Ok (replicate (Z.to_nat n) (t / qz n)), self').
Proof.
  intros Hn. unfold _distribute_with_tracking, mbind, method_bind, lift.
  rewrite exact_to_float, exact_pydiv by (intros Hz%qz_eq_0; lia).
  destruct (tracking_loop_exact (t / qz n) track (Z.to_nat n) self)
    as (self' & ->).
  exists self'. cbn [fst]. rewrite exact_pysum_replicate.
  rewrite Z2Nat.id, exact_div_mul by lia.
  by rewrite (proj1 (exact_zero_within_tolerance t)).
Qed.

(** C1, in exact arithmetic.  For a positive duration and a positive
    number of scenes, without constraints, the distribution returns as
    many durations as there are scenes; the duration of scene [i] is the
    ideal running total [(i + 1) * total / count] minus the sum of the
    durations before it; and the durations add up to the total, so that
    their sum is within 0.001 of it. *)
Theorem distribute_scene_durations_tracks_total :
  ∀ (self : SceneTimingCalculator Qc) (audio_duration : Qc) (scene_count : Z)
    (track_deficit_surplus : bool),
    nltb nzero audio_duration = true → (0 < scene_count)%Z →
    ∃ durations self',
      distribute_scene_durations audio_duration scene_count None None
        track_deficit_surplus self = (Ok durations, self')
      ∧ length durations = Z.to_nat scene_count
      ∧ (∀ i d, durations !! i = Some d →
           ∃ k n, to_float (Z.of_nat i + 1) = Ok k
                  ∧ to_float scene_count = Ok n
                  ∧ d = nsub (nmul k (ndiv audio_duration n))
                          (pysum (take i durations)))
      ∧ pysum durations = audio_duration
      ∧ nltb (nabs (nsub (pysum durations) audio_duration)) lit_0_001 = true.
Proof.
  intros self t n track Ht Hn. apply exact_nltb in Ht.
  unfold distribute_scene_durations.
  destruct (nleb t nzero) eqn:Hle.
  { apply exact_nleb in Hle. by destruct (Qlt_not_le _ _ Ht). }
  destruct (Z.leb_spec n 0) as [?|_]; [lia|].
  unfold mbind at 1, method_bind at 1.
  destruct ((if track then reset_tracking else mret ()) self)
    as [r self1] eqn:Hr.
  assert (r = Ok ()) as -> by (destruct track; by injection Hr as <- _).
  unfold mbind, method_bind, lift.
  rewrite exact_to_float, exact_pydiv by (intros Hz%qz_eq_0; lia).
  simpl constraint_set. cbv beta zeta iota.
  destruct (_distribute_with_tracking_exact t n track self1 Hn)
    as (self' & Hd).
  exists (replicate (Z.to_nat n) (t / qz n)), self'.
  split; [done|]. split; [by rewrite length_replicate|].
  assert (Hsum : pysum (replicate (Z.to_nat n) (t / qz n)) = t).
  { by rewrite exact_pysum_replicate, Z2Nat.id, exact_div_mul by lia. }
  split_and!.
  - intros i d [-> Hi]%lookup_replicate.
    exists (qz (Z.of_nat i + 1)), (qz n). split_and!; [done..|].
    rewrite take_replicate, Nat.min_l, exact_pysum_replicate by lia.
    rewrite qz_add, qz_1. simpl. ring.
  - done.
  - rewrite Hsum. apply exact_zero_within_tolerance.
Qed.

(** A minute of audio over seven scenes. *)
Lemma distribute_scene_durations_tracks_total_witness :
  ∃ durations self',
    distribute_scene_durations (Q2Qc 60) 7 None None true init
    = (Ok durations, self')
    ∧ length durations = 7%nat
    ∧ (∀ i d, durations !! i = Some d →
         ∃ k n, to_float (Z.of_nat i + 1) = Ok k
                ∧ to_float 7 = Ok n
                ∧ d = nsub (nmul k (ndiv (Q2Qc 60) n))
                        (pysum (take i durations)))
    ∧ pysum durations = Q2Qc 60
    ∧ nltb (nabs (nsub (pysum durations) (Q2Qc 60))) lit_0_001 = true.
Proof.
  apply (distribute_scene_durations_tracks_total init (Q2Qc 60) 7 true);
    [reflexivity|lia].
Defined.
End Distribution.

(** ** Rescaling to a total duration *)

Section Rescale.
Context {F : Type} `{Num F}.
Import GapValidator.
Implicit Types (self : SceneGapValidator F) (sc : gmap string F)
  (scenes fixed : list (gmap string F)) (ds : list F).

(** The [duration] fields of a timeline, scene by scene. *)
Definition durations_of scenes ds : Prop :=
  Forall2 (λ sc d, sc !! "duration" = Some d) scenes ds.

(** What the rescaling loop makes of a scene of duration [d] when the
    time accumulated before it is [c]. *)
Definition rescaled_scene (factor c : F) sc (d : F) : gmap string F :=
  <["end_time" := nadd c (nmul d factor)]>
    (<["duration" := nmul d factor]> (<["start_time" := c]> sc)).

(** The rescaled durations, and the time accumulated before scene [j]. *)
Definition scaled (factor : F) ds : list F := (λ d, nmul d factor) <$> ds.
Definition elapsed (factor : F) ds (j : nat) : F :=
  pysum (take j (scaled factor ds)).

Lemma pysum_snoc (xs : list F) (x : F) : pysum (xs ++ [x]) = nadd (pysum xs) x.
Proof. unfold pysum. by rewrite foldl_snoc. Qed.

Lemma elapsed_succ factor ds j d :
  ds !! j = Some d →
  elapsed factor ds (S j) = nadd (elapsed factor ds j) (nmul d factor).
Proof.
  intros Hd. unfold elapsed, scaled.
  rewrite (take_S_r _ _ (nmul d factor)), pysum_snoc; [done|].
  by rewrite list_lookup_fmap, Hd.
Qed.

Lemma mapM_getitem_duration scenes ds :
  durations_of scenes ds →
  mapM (λ sc, getitem sc "duration") scenes = Ok ds.
Proof.
  induction 1 as [|sc d scenes ds Hd _ IH]; [done|].
  cbn [mapM]. rewrite IH. unfold getitem. rewrite Hd. done.
Qed.

Definition rescale_inv scenes ds (factor : F) (i : nat)
    (st : list (gmap string F) * F) : Prop :=
  length st.1 = length scenes
  ∧ st.2 = elapsed factor ds i
  ∧ (∀ j, i ≤ j → st.1 !! j = scenes !! j)
  ∧ (∀ j sc d, j < i → scenes !! j = Some sc → ds !! j = Some d →
       st.1 !! j = Some (rescaled_scene factor (elapsed factor ds j) sc d)).

Lemma rescale_step_inv scenes ds factor i st :
  durations_of scenes ds → i < length scenes →
  rescale_inv scenes ds factor i st →
  ∃ st', rescale_step factor i st = Ok st'
         ∧ rescale_inv scenes ds factor (S i) st'.
Proof.
  intros Hds Hi (Hlen & Hcum & Hrest & Hdone). destruct st as [fixed c].
  simpl in *. subst c.
  destruct (lookup_lt_is_Some_2 scenes i Hi) as [sc Hsc].
  destruct (Forall2_lookup_l _ _ _ _ _ Hds Hsc) as (d & Hd & Hscd).
  unfold rescale_step, list_get, getitem. rewrite Hrest, Hsc by lia. simpl.
  rewrite lookup_insert_ne, Hscd by done. simpl.
  eexists. split; [done|]. split_and!; simpl.
  - by rewrite length_insert.
  - by rewrite (elapsed_succ _ _ _ d).
  - intros j Hj. rewrite list_lookup_insert_ne by lia. apply Hrest. lia.
  - intros j sc' d' Hj Hsc' Hd'. destruct (decide (j = i)) as [->|Hne].
    + simplify_eq. by rewrite list_lookup_insert_eq by lia.
    + rewrite list_lookup_insert_ne by done. apply Hdone; [lia|done..].
Qed.

Lemma rescale_loop scenes ds factor :
  durations_of scenes ds →
  ∃ st, for_each (range 0 (length scenes)) (rescale_step factor)
          (scenes, nzero) = Ok st
        ∧ rescale_inv scenes ds factor (length scenes) st.
Proof.
  intros Hds.
  apply (for_range_total (rescale_inv scenes ds factor)); [lia| |].
  - split_and!; simpl; [done..|]. intros; lia.
  - intros i st Hi. apply rescale_step_inv; [done|lia].
Qed.

(** After the loop each scene starts where the one before it ends, the
    first one at zero. *)
Lemma rescale_inv_contiguous scenes ds factor fixed c :
  durations_of scenes ds →
  rescale_inv scenes ds factor (length scenes) (fixed, c) →
  contiguous fixed
  ∧ (∀ first, fixed !! 0 = Some first → first !! "start_time" = Some nzero)
  ∧ durations_of fixed (scaled factor ds).
Proof.
  intros Hds (Hlen & _ & _ & Hdone). simpl in *.
  assert (Hget : ∀ j sc', fixed !! j = Some sc' →
            ∃ sc d, scenes !! j = Some sc ∧ ds !! j = Some d
                    ∧ sc' = rescaled_scene factor (elapsed factor ds j) sc d).
  { intros j sc' Hj.
    assert (Hlt : j < length scenes).
    { rewrite <-Hlen. by eapply lookup_lt_Some. }
    destruct (lookup_lt_is_Some_2 scenes j Hlt) as [sc Hsc].
    destruct (Forall2_lookup_l _ _ _ _ _ Hds Hsc) as (d & Hd & _).
    exists sc, d. split_and!; [done..|].
    rewrite (Hdone j sc d) in Hj by done. congruence. }
  split_and!.
  - intros i current next Hc Hn.
    destruct (Hget _ _ Hc) as (sc & d & Hsc & Hd & ->).
    destruct (Hget _ _ Hn) as (sc' & d' & Hsc' & Hd' & ->).
    unfold rescaled_scene.
    rewrite lookup_insert_ne, lookup_insert_ne, !lookup_insert_eq by done.
    split; [done|]. f_equal. replace (i + 1) with (S i) by lia.
    by apply elapsed_succ.
  - intros first Hfirst. destruct (Hget _ _ Hfirst) as (sc & d & _ & _ & ->).
    unfold rescaled_scene.
    by rewrite lookup_insert_ne, lookup_insert_ne, lookup_insert_eq by done.
  - apply Forall2_same_length_lookup. split.
    { unfold scaled. rewrite length_fmap, Hlen. by eapply Forall2_length. }
    intros j sc' x Hj Hx.
    destruct (Hget _ _ Hj) as (sc & d & Hsc & Hd & ->).
    unfold scaled in Hx. rewrite list_lookup_fmap, Hd in Hx.
    injection Hx as <-. unfold rescaled_scene.
    by rewrite lookup_insert_ne, lookup_insert_eq by done.
Qed.

End Rescale.

Section RescaleExact.
Import GapValidator.

(** The timeline of [test_audio_duration_enforcement], moved five
    seconds away from the origin, in binary64. *)
Definition offset_example : list (gmap string float) :=
  [scene 5 15 10; scene 15 30 15; scene 30 40 10]%float.

(** Its durations add up to 35; rescaled to 45 seconds it starts at 0,
    not at 5. *)
Lemma enforce_total_duration_starts_at_zero :
  ∃ fixed first,
    enforce_total_duration init offset_example 45%float = Ok fixed
    ∧ fixed !! 0 = Some first
    ∧ first !! "start_time" = Some 0%float
    ∧ offset_example !! 0 ≫= (.!! "start_time") = Some 5%float
    ∧ PrimFloat.eqb 0 5 = false.
Proof. do 2 eexists. split_and!; reflexivity. Qed.

#[local] Open Scope Qc_scope.

Lemma exact_pysum_scaled (factor : Qc) (ds : list Qc) :
  pysum (scaled factor ds) = pysum ds * factor.
Proof.
  induction ds as [|d ds IH] using rev_ind.
  - change (0 = 0 * factor). ring.
  - unfold scaled in *. rewrite fmap_app. cbn [fmap list_fmap].
    rewrite !pysum_snoc, IH. simpl. ring.
Qed.

Lemma exact_nabs_0 (x : Qc) : nabs (nsub x x) = 0.
Proof. simpl. replace (x - x) with 0 by ring. by apply Qcabs_pos. Qed.

(** C2, in exact arithmetic and with the start the code gives.  Take a
    timeline that is not empty, whose [duration] fields add up to a
    positive total that is not within the tolerance of the target.
    Then [enforce_total_duration] returns a timeline of the same length
    whose durations add up to the target, hence within the tolerance of
    it; each scene starts where the one before it ends; each duration
    is [end_time - start_time]; and the first scene starts at 0. *)
Theorem enforce_total_duration_rescales :
  ∀ (self : SceneGapValidator Qc) (scenes : list (gmap string Qc))
    (target_duration : Qc) (ds : list Qc),
    scenes ≠ [] →
    durations_of scenes ds →
    nltb nzero (default_tolerance self) = true →
    nltb nzero (pysum ds) = true →
    nltb (nabs (nsub (pysum ds) target_duration)) (default_tolerance self)
    = false →
    ∃ fixed ds',
      enforce_total_duration self scenes target_duration = Ok fixed
      ∧ length fixed = length scenes
      ∧ durations_of fixed ds'
      ∧ pysum ds' = target_duration
      ∧ nltb (nabs (nsub (pysum ds') target_duration)) (default_tolerance self)
        = true
      ∧ contiguous fixed
      ∧ Forall (λ sc, ∃ s e d,
                  sc !! "start_time" = Some s ∧ sc !! "end_time" = Some e
                  ∧ sc !! "duration" = Some d ∧ d = nsub e s) fixed
      ∧ ∃ first, fixed !! 0%nat = Some first
                 ∧ first !! "start_time" = Some nzero.
Proof.
  intros self scenes target ds Hne Hds Hε Htotal Hfar.
  apply exact_nltb in Htotal.
  assert (Hnz : pysum ds ≠ 0).
  { intros Hz. rewrite Hz in Htotal. by apply Qclt_not_eq in Htotal. }
  set (factor := target / pysum ds).
  destruct (rescale_loop scenes ds factor Hds) as ([fixed c] & Hloop & Hinv).
  pose proof Hinv as (Hlen & Hc & _ & Hdone). simpl in Hlen, Hc, Hdone.
  destruct (rescale_inv_contiguous scenes ds factor fixed c Hds Hinv)
    as (Hcont & Hfirst & Hds').
  assert (Hsum : pysum (scaled factor ds) = target).
  { rewrite exact_pysum_scaled. unfold factor. field. done. }
  assert (Hcum : c = target).
  { rewrite Hc. unfold elapsed. rewrite take_ge; [done|].
    unfold scaled. rewrite length_fmap.
    by rewrite <-(Forall2_length _ _ _ Hds). }
  exists fixed, (scaled factor ds). split_and!; try done.
  - unfold enforce_total_duration. destruct scenes as [|sc0 rest]; [done|].
    rewrite (mapM_getitem_duration _ _ Hds). cbn [mbind result_bind].
    rewrite Hfar, (exact_pydiv target (pysum ds) Hnz). cbn [mbind result_bind].
    fold factor. rewrite Hloop. cbn [mbind result_bind]. rewrite Hcum.
    rewrite exact_nabs_0.
    destruct (ngtb 0 (default_tolerance self)) eqn:Hgt; [|done].
    unfold ngtb in Hgt. apply exact_nltb in Hgt, Hε.
    by destruct (Qclt_not_le _ _ Hgt (Qclt_le_weak _ _ Hε)).
  - rewrite Hsum, exact_nabs_0. done.
  - apply Forall_lookup. intros j sc' Hj.
    assert (Hlt : (j < length scenes)%nat).
    { rewrite <-Hlen. by eapply lookup_lt_Some. }
    destruct (lookup_lt_is_Some_2 scenes j Hlt) as [sc Hsc].
    destruct (Forall2_lookup_l _ _ _ _ _ Hds Hsc) as (d & Hd & _).
    rewrite (Hdone j sc d) in Hj by done. injection Hj as <-.
    exists (elapsed factor ds j), (elapsed factor ds j + d * factor),
      (d * factor).
    unfold rescaled_scene. split_and!.
    + by rewrite lookup_insert_ne, lookup_insert_ne, lookup_insert_eq by done.
    + by rewrite lookup_insert_eq.
    + by rewrite lookup_insert_ne, lookup_insert_eq by done.
    + simpl. ring.
  - destruct (lookup_lt_is_Some_2 fixed 0%nat) as [first Hf].
    { rewrite Hlen. destruct scenes; [done|simpl; lia]. }
    exists first. split; [done|]. by apply Hfirst.
Qed.

(** The timeline of [test_audio_duration_enforcement]: 35 seconds, to
    be rescaled to 45. *)
Definition rescale_example : list (gmap string Qc) :=
  [scene (Q2Qc 0) (Q2Qc 10) (Q2Qc 10); scene (Q2Qc 10) (Q2Qc 25) (Q2Qc 15);
   scene (Q2Qc 25) (Q2Qc 35) (Q2Qc 10)].

Lemma enforce_total_duration_rescales_witness :
  ∃ fixed ds',
    enforce_total_duration init rescale_example (Q2Qc 45) = Ok fixed
    ∧ length fixed = length rescale_example
    ∧ durations_of fixed ds'
    ∧ pysum ds' = Q2Qc 45
    ∧ nltb (nabs (nsub (pysum ds') (Q2Qc 45))) (default_tolerance init) = true
    ∧ contiguous fixed
    ∧ Forall (λ sc, ∃ s e d,
                sc !! "start_time" = Some s ∧ sc !! "end_time" = Some e
                ∧ sc !! "duration" = Some d ∧ d = nsub e s) fixed
    ∧ ∃ first, fixed !! 0%nat = Some first
               ∧ first !! "start_time" = Some nzero.
Proof.
  apply (enforce_total_duration_rescales init rescale_example (Q2Qc 45)
           [Q2Qc 10; Q2Qc 15; Q2Qc 10]).
  - discriminate.
  - repeat constructor.
  - reflexivity.
  - reflexivity.
  - reflexivity.
Defined.
End RescaleExact.

(** ** Objects the operations leave alone *)

Section Frame.
Context {F : Type} `{Num F}.
Import Store.
Implicit Types (σ : store F) (rs : list positive).

Lemma unchanged_refl σ : unchanged σ σ.
Proof. by split. Qed.

Lemma unchanged_trans σ1 σ2 σ3 :
  unchanged σ1 σ2 → unchanged σ2 σ3 → unchanged σ1 σ3.
Proof. intros [??] [??]. split; by etrans. Qed.

Lemma unchanged_fresh_dict σ σ' r :
  unchanged σ σ' → dicts σ' !! r = None → dicts σ !! r = None.
Proof.
  intros [Hd _] Hr. destruct (dicts σ !! r) as [d|] eqn:Hd'; [|done].
  by rewrite (lookup_weaken _ _ _ _ Hd' Hd) in Hr.
Qed.

Lemma unchanged_fresh_list σ σ' l :
  unchanged σ σ' → lists σ' !! l = None → lists σ !! l = None.
Proof.
  intros [_ Hl] Hr. destruct (lists σ !! l) as [d|] eqn:Hd'; [|done].
  by rewrite (lookup_weaken _ _ _ _ Hd' Hl) in Hr.
Qed.

Lemma new_timeline_earlier σ σ' σ'' l :
  unchanged σ σ' → new_timeline σ' σ'' l → new_timeline σ σ'' l.
Proof.
  intros Hu (Hl & rs & Hrs & Hfresh). split; [by eapply unchanged_fresh_list|].
  exists rs. split; [done|]. eapply Forall_impl; [done|]. simpl.
  intros r. by apply unchanged_fresh_dict.
Qed.

Lemma new_timeline_later σ σ' σ'' l :
  new_timeline σ σ' l → unchanged σ' σ'' → new_timeline σ σ'' l.
Proof.
  intros (Hl & rs & Hrs & Hfresh) [_ Hu]. split; [done|].
  exists rs. split; [|done]. by eapply lookup_weaken.
Qed.

(** A computation keeps the invariant [I] of the store, whether it
    returns or raises, and what it returns satisfies [Q]. *)
Definition keeps {A} (I : store F → Prop) (m : py A) (Q : A → Prop) : Prop :=
  ∀ σ, I σ → I (m σ).2 ∧ ∀ a, (m σ).1 = Ok a → Q a.

Lemma keeps_ret {A} (I : store F → Prop) (a : A) (Q : A → Prop) :
  Q a → keeps I (mret a) Q.
Proof. intros Ha σ Hσ. split; [done|]. by intros ? [= <-]. Qed.

Lemma keeps_raise {A} (I : store F → Prop) (e : exn F) (Q : A → Prop) :
  keeps I (raise e) Q.
Proof. intros σ Hσ. by split. Qed.

Lemma keeps_lift {A} (I : store F → Prop) (r : result (exn F) A) :
  keeps I (lift r) (λ _, True).
Proof. destruct r; [by apply keeps_ret|apply keeps_raise]. Qed.

Lemma keeps_bind {A B} (I : store F → Prop) (m : py A) (f : A → py B)
    (Q : A → Prop) (R : B → Prop) :
  keeps I m Q → (∀ a, Q a → keeps I (f a) R) → keeps I (m ≫= f) R.
Proof.
  intros Hm Hf σ Hσ. destruct (Hm σ Hσ) as [HI HQ].
  unfold mbind, py_bind. destruct (m σ) as [[a|e] σ']; simpl in *; [|done].
  by apply Hf; [apply HQ|].
Qed.

Lemma keeps_weaken {A} (I : store F → Prop) (m : py A) (Q R : A → Prop) :
  keeps I m Q → (∀ a, Q a → R a) → keeps I m R.
Proof. intros Hm HQR σ Hσ. destruct (Hm σ Hσ). naive_solver. Qed.

Lemma keeps_for_each {A St} (I : store F → Prop) (xs : list A)
    (body : A → St → py St) (Q : St → Prop) (s : St) :
  (∀ x t, x ∈ xs → Q t → keeps I (body x t) Q) → Q s →
  keeps I (for_each_py xs body s) Q.
Proof.
  revert s. induction xs as [|x xs IH]; intros s Hbody Hs; simpl.
  - by apply keeps_ret.
  - eapply keeps_bind; [apply Hbody; [left|done]|].
    intros t Ht. apply IH; [|done]. intros y u Hy. apply Hbody. by right.
Qed.

Lemma keeps_mapM {A B} (I : store F → Prop) (f : A → py B) (xs : list A) :
  (∀ x, keeps I (f x) (λ _, True)) → keeps I (mapM f xs) (λ _, True).
Proof.
  intros Hf. induction xs as [|x xs IH]; simpl.
  - by apply keeps_ret.
  - eapply keeps_bind; [apply Hf|]. intros y _.
    eapply keeps_bind; [apply IH|]. intros ys _. by apply keeps_ret.
Qed.

(** Reading keeps any invariant. *)
Lemma keeps_read_dict (I : store F → Prop) (r : positive) :
  keeps I (read_dict r) (λ _, True).
Proof. intros σ Hσ. unfold read_dict. by destruct (dicts σ !! r). Qed.

Lemma keeps_getitem (I : store F → Prop) (r : positive) (key : string) :
  keeps I (getitem r key) (λ _, True).
Proof.
  eapply keeps_bind; [apply keeps_read_dict|]. intros d _.
  destruct (d !! key); [by apply keeps_ret|apply keeps_raise].
Qed.

(** The invariant of the loops that follow a deep copy made in [σ0]:
    the objects of [σ0] are unchanged, and the list [l] holds [rs]. *)
Definition copy_inv (σ0 : store F) (l : positive) rs σ : Prop :=
  unchanged σ0 σ ∧ lists σ !! l = Some rs.

Lemma keeps_read_list σ0 l rs :
  keeps (copy_inv σ0 l rs) (read_list l) (λ rs', rs' = rs).
Proof.
  intros σ [Hu Hl]. unfold read_list. rewrite Hl. simpl.
  split; [done|]. by intros ? [= <-].
Qed.

Lemma keeps_list_get σ0 l rs (i : nat) :
  keeps (copy_inv σ0 l rs) (list_get l i) (λ r, r ∈ rs).
Proof.
  eapply keeps_bind; [apply keeps_read_list|]. intros ? ->.
  destruct (rs !! i) as [r|] eqn:Hr; [|apply keeps_raise].
  apply keeps_ret. by eapply list_elem_of_lookup_2.
Qed.

Lemma keeps_len σ0 l rs :
  keeps (copy_inv σ0 l rs) (len l) (λ _, True).
Proof.
  eapply keeps_bind; [apply keeps_read_list|]. intros ? _. by apply keeps_ret.
Qed.

(** Writing to one of the copies keeps it. *)
Lemma keeps_setitem σ0 l rs (r : positive) (key : string) (x : F) :
  Forall (λ r, dicts σ0 !! r = None) rs → r ∈ rs →
  keeps (copy_inv σ0 l rs) (setitem r key x) (λ _, True).
Proof.
  intros Hfresh Hr σ [[Hd Hl] Hrs]. unfold setitem, mbind, py_bind, read_dict.
  destruct (dicts σ !! r) as [d|]; simpl; [|done].
  split; [|done]. split; [split|]; simpl; [|done..].
  apply insert_subseteq_r; [|done].
  by apply (proj1 (Forall_forall _ _) Hfresh).
Qed.

(** A deep copy changes no object and returns a new timeline. *)
Lemma keeps_alloc_dict σ0 (d : gmap string F) :
  keeps (unchanged σ0) (alloc_dict d) (λ r, dicts σ0 !! r = None).
Proof.
  intros σ [Hd Hl]. unfold alloc_dict. simpl.
  assert (Hr : dicts σ !! fresh (dom (dicts σ)) = None).
  { apply not_elem_of_dom, is_fresh. }
  split.
  - split; simpl; [|done]. apply insert_subseteq_r; [|done].
    eapply unchanged_fresh_dict; [by split|done].
  - intros ? [= <-]. eapply unchanged_fresh_dict; [by split|done].
Qed.

Definition copies_new (σ0 : store F)
    (st : gmap positive positive * list positive) : Prop :=
  Forall (λ r, dicts σ0 !! r = None) st.2
  ∧ ∀ r r', st.1 !! r = Some r' → dicts σ0 !! r' = None.

Lemma keeps_deepcopy_item σ0 (r : positive) st :
  copies_new σ0 st →
  keeps (unchanged σ0) (deepcopy_item r st) (copies_new σ0).
Proof.
  intros [Hcopies Hmemo]. destruct st as [memo copies]. simpl in *.
  unfold deepcopy_item. destruct (memo !! r) as [r'|] eqn:Hr.
  - apply keeps_ret. split; simpl; [|done].
    apply Forall_app. split; [done|]. repeat constructor. by eapply Hmemo.
  - eapply keeps_bind; [apply keeps_read_dict|]. intros d _.
    eapply keeps_bind; [apply keeps_alloc_dict|]. intros r' Hr'.
    apply keeps_ret. split; simpl.
    + apply Forall_app. split; [done|]. by repeat constructor.
    + intros r1 r1'. rewrite lookup_insert. case_decide; [|by apply Hmemo].
      by intros [= <-].
Qed.

Lemma deepcopy_spec σ (scenes : positive) :
  unchanged σ (deepcopy scenes σ).2
  ∧ ∀ fixed, (deepcopy scenes σ).1 = Ok fixed →
             new_timeline σ (deepcopy scenes σ).2 fixed.
Proof.
  unfold deepcopy, mbind, py_bind, read_list.
  destruct (lists σ !! scenes) as [rs|]; simpl; [|by split; [split|]].
  destruct (keeps_for_each (unchanged σ) rs deepcopy_item (copies_new σ)
              (∅, [])) with (σ := σ) as [Hu Hq].
  { intros. by apply keeps_deepcopy_item. }
  { split; simpl; [constructor|]. intros ??. by rewrite lookup_empty. }
  { apply unchanged_refl. }
  destruct (for_each_py rs deepcopy_item (∅, []) σ) as [[[memo copies]|e] σ1];
    simpl in *; [|by split].
  destruct (Hq _ eq_refl) as [Hcopies _]. simpl in Hcopies.
  assert (Hl : lists σ1 !! fresh (dom (lists σ1)) = None).
  { apply not_elem_of_dom, is_fresh. }
  destruct Hu as [Hud Hul].
  assert (Hu' : unchanged σ
            {| dicts := dicts σ1;
               lists := <[fresh (dom (lists σ1)) := copies]> (lists σ1) |}).
  { split; simpl; [done|]. apply insert_subseteq_r; [|done].
    eapply unchanged_fresh_list; [by split|done]. }
  split; [done|]. intros fixed [= <-]. split.
  - eapply unchanged_fresh_list; [by split|done].
  - exists copies. split; [|done]. simpl. by rewrite lookup_insert_eq.
Qed.

(** The turns of the loops write to the copies only. *)
Ltac keeps_step :=
  lazymatch goal with
  | |- keeps _ (mbind _ (list_get _ _)) _ =>
      eapply keeps_bind; [apply keeps_list_get|intros ? ?]
  | |- keeps _ (mbind _ (len _)) _ =>
      eapply keeps_bind; [apply keeps_len|intros ? _]
  | |- keeps _ (mbind _ (getitem _ _)) _ =>
      eapply keeps_bind; [apply keeps_getitem|intros ? _]
  | |- keeps _ (mbind _ (setitem _ _ _)) _ =>
      eapply keeps_bind; [by apply keeps_setitem|intros ? _]
  | |- keeps _ (setitem _ _ _) _ => by apply keeps_setitem
  | |- keeps _ (getitem _ _) _ => apply keeps_getitem
  | |- keeps _ (mret _) _ => by apply keeps_ret
  | |- keeps _ (if ?b then _ else _) _ => destruct b
  | |- keeps _ (match ?x with _ => _ end) _ => destruct x
  end.

Section Steps.
Context (self : GapValidator.SceneGapValidator F) (σ0 : store F)
  (fixed_scenes : positive) (rs : list positive).
Hypothesis Hfresh : Forall (λ r, dicts σ0 !! r = None) rs.

Lemma keeps_shift_step (shift_amount : F) (j : nat) (u : unit) :
  keeps (copy_inv σ0 fixed_scenes rs)
    (shift_step fixed_scenes shift_amount j u) (λ _, True).
Proof using Hfresh. unfold shift_step. repeat keeps_step. Qed.

Lemma keeps_extend_step (min_scene_duration : option F) (i : nat) (u : unit) :
  keeps (copy_inv σ0 fixed_scenes rs)
    (extend_step self min_scene_duration fixed_scenes i u) (λ _, True).
Proof using Hfresh.
  unfold extend_step. repeat keeps_step.
  apply keeps_for_each; [|done]. intros. apply keeps_shift_step.
Qed.

Lemma keeps_shift_following_step (i : nat) (u : unit) :
  keeps (copy_inv σ0 fixed_scenes rs)
    (shift_following_step self fixed_scenes i u) (λ _, True).
Proof using Hfresh. unfold shift_following_step. repeat keeps_step. Qed.

Lemma keeps_trim_step (i : nat) (u : unit) :
  keeps (copy_inv σ0 fixed_scenes rs) (trim_step fixed_scenes i u) (λ _, True).
Proof using Hfresh. unfold trim_step. repeat keeps_step. Qed.

Lemma keeps_rescale_step (adjustment_factor : F) (sc : positive) (c : F) :
  sc ∈ rs →
  keeps (copy_inv σ0 fixed_scenes rs) (rescale_step adjustment_factor sc c)
    (λ _, True).
Proof using Hfresh. intros Hsc. unfold rescale_step. repeat keeps_step. Qed.
End Steps.

(** An operation that returns the empty list it is given, and otherwise
    works on a deep copy and returns it. *)
Lemma copy_then_returns_copy (body : positive → py positive) :
  (∀ σ0 fixed rs, Forall (λ r, dicts σ0 !! r = None) rs →
     keeps (copy_inv σ0 fixed rs) (body fixed) (λ out, out = fixed)) →
  copies_its_argument
    (λ scenes,
       rs ← read_list scenes;
       match rs with
       | [] => mret scenes
       | _ => fixed_scenes ← deepcopy scenes; body fixed_scenes
       end).
Proof.
  intros Hbody σ scenes. unfold mbind, py_bind, read_list.
  destruct (lists σ !! scenes) as [rs0|] eqn:Hscenes; simpl.
  2:{ split; [apply unchanged_refl|done]. }
  destruct rs0 as [|r0 rs0].
  { split; [apply unchanged_refl|]. by intros out rs [= <-] [= <-]. }
  destruct (deepcopy_spec σ scenes) as [Hu1 Hnew1].
  destruct (deepcopy scenes σ) as [[fixed|e] σ1]; simpl in *.
  2:{ split; [done|]. by intros. }
  destruct (Hnew1 fixed eq_refl) as (Hnone & rs & Hrs & Hfresh).
  destruct (Hbody σ fixed rs Hfresh σ1) as [[Hu2 Hrs2] Hout]; [by split|].
  split; [done|]. intros out rs' Hres [= <-].
  apply Hout in Hres as ->. split; [done|]. by exists rs.
Qed.

Section Operations.
Context (self : GapValidator.SceneGapValidator F).

Lemma fix_overlaps_trim_previous_copies :
  copies_its_argument (fix_overlaps_trim_previous self).
Proof.
  unfold fix_overlaps_trim_previous.
  apply (copy_then_returns_copy
           (λ fixed_scenes,
              n ← len fixed_scenes;
              _ ← for_each_py (range 0 (n - 1)) (trim_step fixed_scenes) ();
              mret fixed_scenes)).
  intros σ0 fixed rs Hfresh.
  eapply keeps_bind; [apply keeps_len|]. intros n _.
  eapply keeps_bind; [|intros; by apply keeps_ret].
  apply (keeps_for_each _ _ _ (λ _, True)); [|done].
  intros. by apply keeps_trim_step.
Qed.

Lemma fix_gaps_extend_previous_copies (min_scene_duration : option F) :
  copies_its_argument
    (λ scenes, fix_gaps_extend_previous self scenes min_scene_duration).
Proof.
  unfold fix_gaps_extend_previous.
  apply (copy_then_returns_copy
           (λ fixed_scenes,
              n ← len fixed_scenes;
              _ ← for_each_py (range 0 (n - 1))
                    (extend_step self min_scene_duration fixed_scenes) ();
              mret fixed_scenes)).
  intros σ0 fixed rs Hfresh.
  eapply keeps_bind; [apply keeps_len|]. intros n _.
  eapply keeps_bind; [|intros; by apply keeps_ret].
  apply (keeps_for_each _ _ _ (λ _, True)); [|done].
  intros. by apply keeps_extend_step.
Qed.

Lemma fix_gaps_shift_following_copies :
  copies_its_argument (fix_gaps_shift_following self).
Proof.
  unfold fix_gaps_shift_following.
  apply (copy_then_returns_copy
           (λ fixed_scenes,
              n ← len fixed_scenes;
              _ ← for_each_py (range 1 n)
                    (shift_following_step self fixed_scenes) ();
              mret fixed_scenes)).
  intros σ0 fixed rs Hfresh.
  eapply keeps_bind; [apply keeps_len|]. intros n _.
  eapply keeps_bind; [|intros; by apply keeps_ret].
  apply (keeps_for_each _ _ _ (λ _, True)); [|done].
  intros. by apply keeps_shift_following_step.
Qed.

Lemma enforce_total_duration_copies (target_duration : F) :
  copies_its_argument
    (λ scenes, enforce_total_duration self scenes target_duration).
Proof.
  unfold enforce_total_duration.
  apply (copy_then_returns_copy
           (λ fixed_scenes,
              items ← read_list fixed_scenes;
              durations ← mapM (λ sc, getitem sc "duration") items;
              let current_total := pysum durations in
              if nltb (nabs (nsub current_total target_duration))
                      (GapValidator.default_tolerance self)
              then mret fixed_scenes
              else
                adjustment_factor ← lift (pydiv target_duration current_total);
                items ← read_list fixed_scenes;
                cumulative_time ← for_each_py items
                                    (rescale_step adjustment_factor) nzero;
                let actual_total := cumulative_time in
                if ngtb (nabs (nsub actual_total target_duration))
                        (GapValidator.default_tolerance self)
                then
                  n ← len fixed_scenes;
                  last_scene ← list_get fixed_scenes (n - 1);
                  let adjustment := nsub target_duration actual_total in
                  duration ← getitem last_scene "duration";
                  _ ← setitem last_scene "duration" (nadd duration adjustment);
                  end_time ← getitem last_scene "end_time";
                  _ ← setitem last_scene "end_time" (nadd end_time adjustment);
                  mret fixed_scenes
                else mret fixed_scenes)).
  intros σ0 fixed rs Hfresh.
  eapply keeps_bind; [apply keeps_read_list|]. intros ? ->.
  eapply keeps_bind.
  { apply keeps_mapM. intros. apply keeps_getitem. }
  intros ds _. simpl.
  destruct (nltb _ _); [by apply keeps_ret|].
  eapply keeps_bind; [apply keeps_lift|]. intros factor _.
  eapply keeps_bind; [apply keeps_read_list|]. intros ? ->.
  eapply keeps_bind.
  { apply (keeps_for_each _ _ _ (λ _, True)); [|done].
    intros sc c Hsc _. by apply keeps_rescale_step. }
  intros c _. destruct (ngtb _ _); [|by apply keeps_ret].
  repeat keeps_step.
Qed.

(** Validation reads the store and leaves it as it is. *)
Lemma mapM_read_dict_store σ rs : (mapM read_dict rs σ).2 = σ.
Proof.
  induction rs as [|r rs IH]; simpl; [done|].
  unfold mbind, py_bind, read_dict at 1.
  destruct (dicts σ !! r) as [d|]; simpl; [|done].
  destruct (mapM read_dict rs σ) as [[ds|e] σ']; simpl in *; by subst.
Qed.

Lemma validate_scene_continuity_store σ (l : positive) (tolerance : option F) :
  (validate_scene_continuity self l tolerance σ).2 = σ.
Proof.
  unfold validate_scene_continuity, snapshot, mbind, py_bind, read_list.
  destruct (lists σ !! l) as [rs|]; simpl; [|done].
  pose proof (mapM_read_dict_store σ rs) as Hσ.
  destruct (mapM read_dict rs σ) as [[ds|e] σ']; simpl in *; subst; [|done].
  by destruct (GapValidator.validate_scene_continuity self ds tolerance).
Qed.

(** An operation applied to a timeline that is itself new returns a new
    timeline, be it the empty one it was given. *)
Lemma copies_new_timeline (op : positive → py positive) σ σ1 (l : positive) :
  copies_its_argument op → unchanged σ σ1 → new_timeline σ σ1 l →
  unchanged σ (op l σ1).2
  ∧ ∀ out, (op l σ1).1 = Ok out → new_timeline σ (op l σ1).2 out.
Proof.
  intros Hop Hu Hnew. destruct (Hop σ1 l) as [Hu2 Hout].
  split; [by eapply unchanged_trans|]. intros out Hres.
  pose proof Hnew as (_ & rs & Hrs & _).
  specialize (Hout out rs Hres Hrs). destruct rs as [|r rs].
  - subst out. by eapply new_timeline_later.
  - by eapply new_timeline_earlier.
Qed.

Lemma fix_all_timing_issues_copies (min_scene_duration : option F) :
  copies_its_argument
    (λ scenes, fix_all_timing_issues self scenes min_scene_duration).
Proof.
  intros σ scenes.
  destruct (fix_all_timing_issues self scenes min_scene_duration σ)
    as [res σ'] eqn:Hrun.
  simpl. unfold fix_all_timing_issues, mbind, py_bind in Hrun.
  unfold read_list at 1 in Hrun.
  destruct (lists σ !! scenes) as [rs0|] eqn:Hscenes.
  2:{ injection Hrun as <- <-. split; [apply unchanged_refl|done]. }
  destruct rs0 as [|r0 rs0].
  { injection Hrun as <- <-. split; [apply unchanged_refl|].
    by intros out rs [= <-] [= <-]. }
  (* first attempt *)
  destruct (fix_overlaps_trim_previous_copies σ scenes) as [Hu1 Hout1].
  destruct (fix_overlaps_trim_previous self scenes σ) as [[f1|e] σ1];
    simpl in *.
  2:{ by injection Hrun as <- <-. }
  specialize (Hout1 f1 _ eq_refl Hscenes). simpl in Hout1.
  destruct (copies_new_timeline
              (λ l, fix_gaps_extend_previous self l min_scene_duration)
              σ σ1 f1) as [Hu2 Hout2];
    [apply fix_gaps_extend_previous_copies|done..|].
  destruct (fix_gaps_extend_previous self f1 min_scene_duration σ1)
    as [[f2|e] σ2]; simpl in *.
  2:{ by injection Hrun as <- <-. }
  specialize (Hout2 f2 eq_refl).
  pose proof (validate_scene_continuity_store σ2 f2 None) as Hσ3.
  destruct (validate_scene_continuity self f2 None σ2) as [[rep|e] σ3];
    simpl in *; subst σ3.
  2:{ by injection Hrun as <- <-. }
  destruct (negb (GapValidator.is_valid rep)).
  2:{ injection Hrun as <- <-. split; [done|].
      by intros out rs [= <-] [= <-]. }
  (* second attempt *)
  destruct (fix_gaps_shift_following_copies σ2 scenes) as [Hu4 Hout4].
  destruct (fix_gaps_shift_following self scenes σ2) as [[g1|e] σ4];
    simpl in *.
  2:{ injection Hrun as <- <-. split; [by eapply unchanged_trans|done]. }
  assert (Hscenes2 : lists σ2 !! scenes = Some (r0 :: rs0)).
  { destruct Hu2 as [_ Hl]. by eapply lookup_weaken. }
  specialize (Hout4 g1 _ eq_refl Hscenes2). simpl in Hout4.
  destruct (copies_new_timeline (fix_overlaps_trim_previous self) σ2 σ4 g1)
    as [Hu5 Hout5]; [apply fix_overlaps_trim_previous_copies|done..|].
  destruct (fix_overlaps_trim_previous self g1 σ4) as [[g2|e] σ5];
    simpl in *; injection Hrun as <- <-.
  2:{ split; [by eapply unchanged_trans|done]. }
  split; [by eapply unchanged_trans|]. intros out rs [= <-] [= <-].
  eapply new_timeline_earlier; [done|]. by apply Hout5.
Qed.

End Operations.

End Frame.

(** Each repair or rescaling operation, run on references, changes no
    object that existed before the call; given a list that is not empty
    it returns a list object that did not exist before, whose scenes are
    dicts that did not exist either; given the empty list it returns
    that very list. *)
Theorem repair_operations_copy_their_argument :
  ∀ (F : Type) (N : Num F) (self : GapValidator.SceneGapValidator F)
    (min_scene_duration : option F) (target_duration : F),
    Store.copies_its_argument
      (λ scenes, Store.fix_gaps_extend_previous self scenes min_scene_duration)
    ∧ Store.copies_its_argument (Store.fix_gaps_shift_following self)
    ∧ Store.copies_its_argument (Store.fix_overlaps_trim_previous self)
    ∧ Store.copies_its_argument
        (λ scenes, Store.fix_all_timing_issues self scenes min_scene_duration)
    ∧ Store.copies_its_argument
        (λ scenes, Store.enforce_total_duration self scenes target_duration).
Proof.
  intros F N self min_scene_duration target_duration. split_and!.
  - apply fix_gaps_extend_previous_copies.
  - apply fix_gaps_shift_following_copies.
  - apply fix_overlaps_trim_previous_copies.
  - apply fix_all_timing_issues_copies.
  - apply enforce_total_duration_copies.
Qed.

(** * Further properties of the three modules *)

#[local] Set Default Proof Using "Type*".

(** ** A number minus itself *)

(** A difference [x - x] is never outside the band of a tolerance that
    is not negative: in exact arithmetic it is zero, in binary64 it is
    zero or, for an infinite or undefined [x], NaN, which compares
    false with everything. *)
Class NumSubDiag (F : Type) `{Num F} : Prop := {
  sub_diag_band : ∀ tol x : F,
    nleb nzero tol = true →
    nltb tol (nsub x x) = false
    ∧ nltb (nsub x x) (nopp tol) = false
    ∧ nltb tol (nabs (nsub x x)) = false;
}.

Lemma spec_float_sub_diag (a : spec_float) :
  SF64sub a a = S754_zero false ∨ SF64sub a a = S754_nan.
Proof.
  destruct a as [[]|[]| |s m e]; simpl; auto.
  left. unfold SF64sub, SFsub. by rewrite Z.sub_diag.
Qed.

Lemma spec_float_sub_diag_band (tol d : spec_float) :
  d = S754_zero false ∨ d = S754_nan →
  SFleb (S754_zero false) tol = true →
  SFltb tol d = false ∧ SFltb d (SFopp tol) = false
  ∧ SFltb tol (SFabs d) = false.
Proof.
  unfold SFleb, SFltb.
  intros [-> | ->]; destruct tol as [[]|[]| |[] m e]; simpl; try done.
Qed.

#[global] Instance binary64_sub_diag : NumSubDiag float.
Proof.
  constructor. intros tol x. simpl.
  rewrite leb_spec, !ltb_spec, opp_spec, abs_spec, sub_spec.
  apply spec_float_sub_diag_band, spec_float_sub_diag.
Qed.

#[global] Instance exact_sub_diag : NumSubDiag Qc.
Proof.
  constructor. intros tol x Htol.
  assert (Hd : nsub x x = Q2Qc 0) by (simpl; ring).
  rewrite Hd. apply exact_nleb in Htol.
  assert (Ha : nabs (Q2Qc 0 : Qc) = Q2Qc 0) by by apply Qcabs_pos.
  rewrite Ha. split_and!.
  - apply not_true_iff_false. rewrite exact_nltb. by apply Qcle_not_lt.
  - apply not_true_iff_false. rewrite exact_nltb. apply Qcle_not_lt.
    apply Qcopp_le_compat in Htol.
    replace (- nzero)%Qc with (Q2Qc 0) in Htol by (simpl; ring). done.
  - apply not_true_iff_false. rewrite exact_nltb. by apply Qcle_not_lt.
Qed.

(** ** Extending over gaps *)

Section Extend.
Context {F : Type} `{Num F}.
Import GapValidator.
Implicit Types (self : SceneGapValidator F) (sc : gmap string F)
  (scenes fixed : list (gmap string F)).

(** A scene moved forward by [shift_amount]. *)
Definition shifted (shift_amount : F) sc (s e : F) : gmap string F :=
  <["end_time" := nadd e shift_amount]>
    (<["start_time" := nadd s shift_amount]> sc).

Lemma shift_step_returns shift_amount j fixed fixed' :
  shift_step shift_amount j fixed = Ok fixed' →
  ∃ sc s e, fixed !! j = Some sc ∧ sc !! "start_time" = Some s
            ∧ sc !! "end_time" = Some e
            ∧ fixed' = <[j := shifted shift_amount sc s e]> fixed.
Proof.
  unfold shift_step, list_get, getitem.
  destruct (fixed !! j) as [sc|] eqn:Hsc; simpl; [|done].
  destruct (sc !! "start_time") as [s|] eqn:Hs; simpl; [|done].
  rewrite lookup_insert_ne by done.
  destruct (sc !! "end_time") as [e|] eqn:He; simpl; [|done].
  intros [= <-]. by exists sc, s, e.
Qed.

Lemma shift_step_total shift_amount j fixed sc :
  fixed !! j = Some sc → complete sc →
  ∃ fixed', shift_step shift_amount j fixed = Ok fixed'.
Proof.
  intros Hsc ([s Hs] & [e He] & _). unfold shift_step, list_get, getitem.
  rewrite Hsc. simpl. rewrite Hs. simpl.
  rewrite lookup_insert_ne, He by done. simpl. eauto.
Qed.

(** The invariant of the inner loop: the scenes from [a] up to [j] have
    moved, the others are as they were in [pre]. *)
Definition shift_inv (shift_amount : F) (pre : list (gmap string F))
    (a j : nat) fixed : Prop :=
  length fixed = length pre
  ∧ (∀ k, k < a ∨ j ≤ k → fixed !! k = pre !! k)
  ∧ (∀ k sc, a ≤ k < j → pre !! k = Some sc →
       ∃ s e, sc !! "start_time" = Some s ∧ sc !! "end_time" = Some e
              ∧ fixed !! k = Some (shifted shift_amount sc s e)).

Lemma shift_inv_step shift_amount pre a j fixed fixed' :
  a ≤ j → shift_inv shift_amount pre a j fixed →
  shift_step shift_amount j fixed = Ok fixed' →
  shift_inv shift_amount pre a (S j) fixed'.
Proof.
  intros Haj (Hlen & Hsame & Hmoved) Hstep.
  apply shift_step_returns in Hstep as (sc & s & e & Hsc & Hs & He & ->).
  assert (Hj : j < length fixed) by by eapply lookup_lt_Some.
  rewrite Hsame in Hsc by lia. split_and!.
  - by rewrite length_insert.
  - intros k Hk. rewrite list_lookup_insert_ne by lia. apply Hsame. lia.
  - intros k sc' Hk Hsc'. destruct (decide (k = j)) as [->|Hne].
    + simplify_eq. exists s, e. split_and!; [done..|].
      by rewrite list_lookup_insert_eq.
    + rewrite list_lookup_insert_ne by done. apply Hmoved; [lia|done].
Qed.

Lemma shift_loop_returns shift_amount a pre fixed' :
  for_each (range a (length pre)) (shift_step shift_amount) pre = Ok fixed' →
  a ≤ length pre → shift_inv shift_amount pre a (length pre) fixed'.
Proof.
  intros Hloop Ha. revert Hloop.
  apply (for_range_returns (shift_inv shift_amount pre a)); [done| |].
  - split_and!; [done..|]. intros; lia.
  - intros j t t' Hj. apply shift_inv_step. lia.
Qed.

Lemma shift_inv_complete shift_amount pre a j fixed :
  Forall complete pre → shift_inv shift_amount pre a j fixed →
  Forall complete fixed.
Proof.
  intros Hall (Hlen & Hsame & Hmoved). apply Forall_lookup. intros k sc' Hk.
  assert (Hlt : k < length pre).
  { rewrite <-Hlen. by eapply lookup_lt_Some. }
  destruct (lookup_lt_is_Some_2 pre k Hlt) as [sc Hsc].
  pose proof (Forall_lookup_1 _ _ _ _ Hall Hsc) as Hc.
  destruct (decide (a ≤ k < j)) as [Hin|Hout].
  - destruct (Hmoved k sc Hin Hsc) as (s & e & _ & _ & Hk').
    rewrite Hk' in Hk. injection Hk as <-. unfold shifted.
    by repeat apply complete_insert.
  - rewrite Hsame, Hsc in Hk by lia. by injection Hk as <-.
Qed.

Lemma shift_loop_total shift_amount a pre :
  Forall complete pre →
  ∃ fixed', for_each (range a (length pre)) (shift_step shift_amount) pre
            = Ok fixed'.
Proof.
  intros Hall. destruct (decide (a ≤ length pre)) as [Ha|Ha].
  2:{ rewrite range_empty by lia. simpl. eauto. }
  destruct (for_range_total (shift_inv shift_amount pre a)
              (shift_step shift_amount) a (length pre) pre)
    as (fixed' & Hloop & _); [done| | |eauto].
  - split_and!; [done..|]. intros; lia.
  - intros j t Hj Hinv.
    destruct (lookup_lt_is_Some_2 t j) as [sc Hsc].
    { destruct Hinv as (-> & _). lia. }
    destruct (shift_step_total shift_amount j t sc Hsc) as [t' Ht'].
    { eapply Forall_lookup_1; [|done]. by eapply shift_inv_complete. }
    exists t'. split; [done|]. eapply shift_inv_step; [lia|done..].
Qed.

Lemma complete_list_insert fixed i sc :
  Forall complete fixed → complete sc → Forall complete (<[i := sc]> fixed).
Proof.
  intros Hall Hsc. apply Forall_lookup. intros k sc' Hk.
  destruct (decide (k = i)) as [->|Hne].
  - apply list_lookup_insert_Some in Hk as [(_ & <- & _)|[? Hk]]; [done|].
    by eapply Forall_lookup_1.
  - rewrite list_lookup_insert_ne in Hk by done. by eapply Forall_lookup_1.
Qed.

Context `{!NumSubDiag F}.

(** What one turn of the loop of [fix_gaps_extend_previous] leaves: the
    scenes before [i] as they were, scene [i] with its [start_time],
    and no gap between scene [i] and the next one. *)
Lemma extend_step_returns self min_scene_duration i fixed fixed' :
  nleb nzero (default_tolerance self) = true →
  extend_step self min_scene_duration i fixed = Ok fixed' →
  length fixed' = length fixed
  ∧ (∀ k, k < i → fixed' !! k = fixed !! k)
  ∧ (∀ sc, fixed !! i = Some sc →
       ∃ sc', fixed' !! i = Some sc' ∧ same_but_end sc sc')
  ∧ (∃ e s, adjacent_gap fixed' i e s
            ∧ ngtb (nsub s e) (default_tolerance self) = false)
  ∧ (Forall complete fixed → Forall complete fixed').
Proof.
  intros Htol. unfold extend_step, list_get, getitem.
  destruct (fixed !! i) as [c|] eqn:Hc; simpl; [|done].
  destruct (fixed !! (i + 1)) as [n|] eqn:Hn; simpl; [|done].
  destruct (n !! "start_time") as [ns|] eqn:Hns; simpl; [|done].
  destruct (c !! "end_time") as [ce|] eqn:Hce; simpl; [|done].
  assert (Hi : i < length fixed) by by eapply lookup_lt_Some.
  destruct (ngtb (nsub ns ce) (default_tolerance self)) eqn:Hgap.
  2:{ intros [= <-]. split_and!; [done..| | |done].
      - intros sc [= <-]. exists c. split; [done|apply same_but_end_refl].
      - exists ce, ns. split; [by exists c, n|done]. }
  rewrite lookup_insert_ne by done.
  destruct (c !! "start_time") as [cs|] eqn:Hcs; simpl; [|done].
  destruct (sub_diag_band (default_tolerance self) ns Htol) as (Hns0 & _).
  set (c2 := <["duration" := nsub ns cs]> (<["end_time" := ns]> c)).
  assert (Hplain : ∀ fixed'', fixed'' = <[i := c2]> fixed →
    length fixed'' = length fixed
    ∧ (∀ k, k < i → fixed'' !! k = fixed !! k)
    ∧ (∀ sc, Some c = Some sc →
         ∃ sc', fixed'' !! i = Some sc' ∧ same_but_end sc sc')
    ∧ (∃ e s, adjacent_gap fixed'' i e s
              ∧ ngtb (nsub s e) (default_tolerance self) = false)
    ∧ (Forall complete fixed → Forall complete fixed'')).
  { intros ? ->. split_and!.
    - by rewrite length_insert.
    - intros k Hk. by rewrite list_lookup_insert_ne by lia.
    - intros sc [= <-]. exists c2. split; [by apply list_lookup_insert_eq|].
      apply same_but_end_insert_duration, same_but_end_insert_end,
        same_but_end_refl.
    - exists ns, ns. split; [|done]. exists c2, n. split_and!.
      + by apply list_lookup_insert_eq.
      + by rewrite list_lookup_insert_ne by lia.
      + unfold c2. by rewrite lookup_insert_ne, lookup_insert_eq by done.
      + done.
    - intros Hall. apply complete_list_insert; [done|].
      do 2 apply complete_insert. by eapply Forall_lookup_1. }
  destruct min_scene_duration as [min_d|]; [|intros [= <-]; by apply Hplain].
  destruct (truthy min_d && nltb (nsub ns cs) min_d);
    [|intros [= <-]; by apply Hplain].
  clear Hplain.
  set (ext := nsub min_d (nsub ns cs)).
  set (c4 := <["duration" := min_d]> (<["end_time" := nadd ns ext]> c2)).
  set (pre := <[i := c4]> fixed).
  assert (Hlen : length pre = length fixed) by apply length_insert.
  rewrite <-Hlen. intros Hloop.
  apply shift_loop_returns in Hloop as (Hlen' & Hsame & Hmoved); [|lia].
  destruct (sub_diag_band (default_tolerance self) (nadd ns ext) Htol)
    as (Hext0 & _).
  split_and!.
  - congruence.
  - intros k Hk. rewrite Hsame by lia. unfold pre.
    by rewrite list_lookup_insert_ne by lia.
  - intros sc [= <-]. exists c4. split.
    + rewrite Hsame by lia. by apply list_lookup_insert_eq.
    + unfold c4, c2.
      repeat first [ apply same_but_end_insert_duration
                   | apply same_but_end_insert_end ].
      apply same_but_end_refl.
  - exists (nadd ns ext), (nadd ns ext). split; [|done].
    destruct (Hmoved (i + 1) n) as (s & e & Hs & He & Hnext).
    { apply lookup_lt_Some in Hn. lia. }
    { unfold pre. by rewrite list_lookup_insert_ne by lia. }
    rewrite Hns in Hs. injection Hs as <-.
    exists c4, (shifted ext n ns e). split_and!.
    + rewrite Hsame by lia. by apply list_lookup_insert_eq.
    + done.
    + unfold c4. by rewrite lookup_insert_ne, lookup_insert_eq by done.
    + unfold shifted. by rewrite lookup_insert_ne, lookup_insert_eq by done.
  - intros Hall. eapply (shift_inv_complete ext pre); [|by split_and!].
    apply complete_list_insert; [done|]. unfold c4, c2.
    repeat apply complete_insert. by eapply Forall_lookup_1.
Qed.

Lemma extend_step_total self min_scene_duration i fixed :
  Forall complete fixed → i + 1 < length fixed →
  ∃ fixed', extend_step self min_scene_duration i fixed = Ok fixed'.
Proof.
  intros Hall Hi.
  destruct (lookup_lt_is_Some_2 fixed i) as [c Hc]; [lia|].
  destruct (lookup_lt_is_Some_2 fixed (i + 1)) as [n Hn]; [lia|].
  pose proof (Forall_lookup_1 _ _ _ _ Hall Hc) as Hcc.
  destruct Hcc as ([cs Hcs] & [ce Hce] & Hcd).
  destruct (Forall_lookup_1 _ _ _ _ Hall Hn) as ([ns Hns] & _ & _).
  unfold extend_step, list_get, getitem. rewrite Hc, Hn. simpl.
  rewrite Hns, Hce. simpl.
  destruct (ngtb (nsub ns ce) (default_tolerance self)); [|eauto].
  rewrite lookup_insert_ne, Hcs by done. simpl.
  destruct min_scene_duration as [min_d|]; [|eauto].
  destruct (truthy min_d && nltb (nsub ns cs) min_d); [|eauto].
  match goal with
  | |- ∃ _, for_each (range _ (length fixed)) _ (<[i := ?c4]> fixed) = _ =>
      rewrite <-(length_insert fixed i c4);
      apply shift_loop_total, complete_list_insert; [done|]
  end.
  repeat apply complete_insert. by split_and!; eauto.
Qed.

(** The invariant of the loop: no gap is left before scene [i]. *)
Definition extend_inv self scenes (i : nat) fixed : Prop :=
  length fixed = length scenes
  ∧ (Forall complete scenes → Forall complete fixed)
  ∧ ∀ j, j < i → ∃ e s, adjacent_gap fixed j e s
                         ∧ ngtb (nsub s e) (default_tolerance self) = false.

Lemma extend_inv_step self min_scene_duration scenes i fixed fixed' :
  nleb nzero (default_tolerance self) = true →
  extend_inv self scenes i fixed →
  extend_step self min_scene_duration i fixed = Ok fixed' →
  extend_inv self scenes (S i) fixed'.
Proof.
  intros Htol (Hlen & Hcomp & Hgaps) Hstep.
  apply extend_step_returns in Hstep
    as (Hlen' & Hbefore & Hthis & Hclosed & Hcomp'); [|done].
  split_and!; [congruence|by auto|].
  intros j Hj. destruct (decide (j = i)) as [->|Hne]; [done|].
  destruct (Hgaps j) as (e & s & (c & n & Hc & Hn & He & Hs) & Hno); [lia|].
  exists e, s. split; [|done].
  destruct (decide (j + 1 = i)) as [Heq|Hne'].
  - destruct (Hthis n) as (n' & Hn' & Hsame); [by rewrite <-Heq|].
    exists c, n'. split_and!; [by rewrite Hbefore by lia|by rewrite Heq|done|].
    by rewrite Hsame.
  - exists c, n. by rewrite !Hbefore by lia.
Qed.

Lemma fix_gaps_extend_previous_inv self min_scene_duration scenes fixed :
  nleb nzero (default_tolerance self) = true →
  fix_gaps_extend_previous self scenes min_scene_duration = Ok fixed →
  extend_inv self scenes (length scenes - 1) fixed.
Proof.
  intros Htol. unfold fix_gaps_extend_previous.
  assert (Hstart : extend_inv self scenes 0 scenes).
  { split_and!; [done..|]. intros; lia. }
  destruct scenes as [|sc0 rest]; [by intros [= <-]|].
  set (scenes := sc0 :: rest) in *.
  apply (for_range_returns (extend_inv self scenes)); [lia|done|].
  intros i t t' _. by apply extend_inv_step.
Qed.

Lemma fix_gaps_extend_previous_total self min_scene_duration scenes :
  nleb nzero (default_tolerance self) = true →
  Forall complete scenes →
  ∃ fixed, fix_gaps_extend_previous self scenes min_scene_duration = Ok fixed.
Proof.
  intros Htol Hall. unfold fix_gaps_extend_previous.
  assert (Hstart : extend_inv self scenes 0 scenes).
  { split_and!; [done..|]. intros; lia. }
  destruct scenes as [|sc0 rest]; [eauto|].
  set (scenes := sc0 :: rest) in *.
  destruct (for_range_total (extend_inv self scenes)
              (extend_step self min_scene_duration) 0 (length scenes - 1)
              scenes) as (fixed & Hfixed & _); [lia|done| |eauto].
  intros i t Hi Hinv.
  destruct (extend_step_total self min_scene_duration i t) as [t' Ht'].
  { destruct Hinv as (_ & Hc & _). auto. }
  { destruct Hinv as (-> & _). lia. }
  exists t'. split; [done|]. by eapply extend_inv_step.
Qed.

End Extend.

(** X.  After [fix_gaps_extend_previous], with or without a minimum
    duration, no scene is followed by a gap: for every adjacent pair of
    the returned timeline, [next.start_time - current.end_time] is not
    above the validator's tolerance.  The timeline returned has the
    length of the input, and the function returns whenever every scene
    has its three fields.  (For a tolerance that is not negative, in
    binary64 as in exact arithmetic.) *)
Theorem fix_gaps_extend_previous_leaves_no_gap :
  ∀ (F : Type) (N : Num F) (D : NumSubDiag F)
    (self : GapValidator.SceneGapValidator F)
    (scenes : list (gmap string F)) (min_scene_duration : option F),
    nleb nzero (GapValidator.default_tolerance self) = true →
    (Forall complete scenes →
     ∃ fixed, GapValidator.fix_gaps_extend_previous self scenes
                min_scene_duration = Ok fixed)
    ∧ ∀ fixed,
        GapValidator.fix_gaps_extend_previous self scenes min_scene_duration
        = Ok fixed →
        length fixed = length scenes
        ∧ ∀ i e s, adjacent_gap fixed i e s →
                   ngtb (nsub s e) (GapValidator.default_tolerance self)
                   = false.
Proof.
  intros F N D self scenes min_scene_duration Htol. split.
  { by apply fix_gaps_extend_previous_total. }
  intros fixed (Hlen & _ & Hgaps)%fix_gaps_extend_previous_inv; [|done].
  split; [done|]. intros i e s Hadj.
  destruct (Hgaps i) as (e' & s' & Hadj' & Hno).
  { destruct Hadj as (c & n & _ & Hn%lookup_lt_Some & _). lia. }
  by destruct (adjacent_gap_unique _ _ _ _ _ _ Hadj Hadj') as [-> ->].
Qed.

(** The gaps of [test_minimum_scene_duration_constraint], closed with a
    minimum duration of 13 seconds. *)
Lemma fix_gaps_extend_previous_leaves_no_gap_witness :
  ∃ fixed,
    GapValidator.fix_gaps_extend_previous GapValidator.init
      [scene 0 5 5; scene 10 15 5; scene 20 21 1]%float (Some 13%float)
    = Ok fixed
    ∧ length fixed = 3
    ∧ ∀ i e s, adjacent_gap fixed i e s →
               ngtb (nsub s e) (GapValidator.default_tolerance
                                  GapValidator.init) = false.
Proof.
  destruct (fix_gaps_extend_previous_leaves_no_gap float binary64
              binary64_sub_diag GapValidator.init
              [scene 0 5 5; scene 10 15 5; scene 20 21 1]%float
              (Some 13%float)) as [_ Hfixed]; [reflexivity|].
  eexists. split; [reflexivity|]. by apply Hfixed.
Defined.

(** ** Shifting over gaps *)

Section Shift.
Context {F : Type} `{Num F}.
Import GapValidator.
Implicit Types (self : SceneGapValidator F) (sc : gmap string F)
  (scenes fixed : list (gmap string F)).

(** The fields other than [start_time] and [end_time] are the same. *)
Definition same_but_times sc sc' : Prop :=
  ∀ key, key ≠ "start_time" → key ≠ "end_time" → sc' !! key = sc !! key.

(** A scene moved back by [gap]. *)
Definition moved_back (gap : F) sc (s e : F) : gmap string F :=
  <["end_time" := nsub e gap]> (<["start_time" := nsub s gap]> sc).

Lemma same_but_times_moved_back gap sc s e :
  same_but_times sc (moved_back gap sc s e).
Proof. intros key ??. unfold moved_back. by rewrite !lookup_insert_ne. Qed.

(** One turn of the loop: scene [i] stays, or moves back by the gap
    that separates it from the scene before it. *)
Lemma shift_following_step_returns self i fixed fixed' :
  shift_following_step self i fixed = Ok fixed' →
  ∃ current previous cs pe,
    fixed !! i = Some current ∧ fixed !! (i - 1) = Some previous
    ∧ current !! "start_time" = Some cs ∧ previous !! "end_time" = Some pe
    ∧ ((ngtb (nsub cs pe) (default_tolerance self) = false ∧ fixed' = fixed)
       ∨ (ngtb (nsub cs pe) (default_tolerance self) = true
          ∧ ∃ ce, current !! "end_time" = Some ce
                  ∧ fixed' = <[i := moved_back (nsub cs pe) current cs ce]>
                               fixed)).
Proof.
  unfold shift_following_step, list_get, getitem.
  destruct (fixed !! i) as [c|] eqn:Hc; simpl; [|done].
  destruct (fixed !! (i - 1)) as [p|] eqn:Hp; simpl; [|done].
  destruct (c !! "start_time") as [cs|] eqn:Hcs; simpl; [|done].
  destruct (p !! "end_time") as [pe|] eqn:Hpe; simpl; [|done].
  destruct (ngtb (nsub cs pe) (default_tolerance self)) eqn:Hgap.
  2:{ intros [= <-]. exists c, p, cs, pe. split_and!; [done..|]. by left. }
  rewrite lookup_insert_ne by done.
  destruct (c !! "end_time") as [ce|] eqn:Hce; simpl; [|done].
  intros [= <-]. exists c, p, cs, pe. split_and!; [done..|]. right.
  split; [done|]. by exists ce.
Qed.

Lemma shift_following_step_total self i fixed :
  Forall complete fixed → 1 ≤ i < length fixed →
  ∃ fixed', shift_following_step self i fixed = Ok fixed'.
Proof.
  intros Hall Hi.
  destruct (lookup_lt_is_Some_2 fixed i) as [c Hc]; [lia|].
  destruct (lookup_lt_is_Some_2 fixed (i - 1)) as [p Hp]; [lia|].
  destruct (Forall_lookup_1 _ _ _ _ Hall Hc) as ([cs Hcs] & [ce Hce] & _).
  destruct (Forall_lookup_1 _ _ _ _ Hall Hp) as (_ & [pe Hpe] & _).
  unfold shift_following_step, list_get, getitem. rewrite Hc, Hp. simpl.
  rewrite Hcs, Hpe. simpl.
  destruct (ngtb (nsub cs pe) (default_tolerance self)); [|eauto].
  rewrite lookup_insert_ne, Hce by done. simpl. eauto.
Qed.

(** The invariant of the loop of [fix_gaps_shift_following]. *)
Definition shift_following_inv scenes (i : nat) fixed : Prop :=
  length fixed = length scenes
  ∧ (∀ j, j = 0 ∨ i ≤ j → fixed !! j = scenes !! j)
  ∧ (∀ j sc, scenes !! j = Some sc →
       ∃ sc', fixed !! j = Some sc' ∧ same_but_times sc sc'
              ∧ (complete sc → complete sc')).

Lemma shift_following_inv_start scenes i : shift_following_inv scenes i scenes.
Proof.
  split_and!; [done..|]. intros j sc Hsc. exists sc. split_and!; [done| |done].
  by intros key.
Qed.

Lemma shift_following_inv_step self scenes i fixed fixed' :
  1 ≤ i → shift_following_inv scenes i fixed →
  shift_following_step self i fixed = Ok fixed' →
  shift_following_inv scenes (S i) fixed'.
Proof.
  intros Hi (Hlen & Hrest & Hsame) Hstep.
  apply shift_following_step_returns in Hstep
    as (c & p & cs & pe & Hc & Hp & Hcs & Hpe & [[_ ->]|(_ & ce & Hce & ->)]).
  { split_and!; [done| |done]. intros j Hj. apply Hrest. lia. }
  split_and!.
  - by rewrite length_insert.
  - intros j Hj. rewrite list_lookup_insert_ne by lia. apply Hrest. lia.
  - intros j sc Hsc. destruct (decide (j = i)) as [->|Hne].
    + assert (Hlt : i < length fixed) by by eapply lookup_lt_Some.
      rewrite Hrest, Hsc in Hc by lia. injection Hc as <-.
      eexists. split; [by apply list_lookup_insert_eq|].
      split; [apply same_but_times_moved_back|].
      intros Hcomp. unfold moved_back. by repeat apply complete_insert.
    + rewrite list_lookup_insert_ne by done. by apply Hsame.
Qed.

Lemma shift_following_inv_complete scenes i fixed :
  Forall complete scenes → shift_following_inv scenes i fixed →
  Forall complete fixed.
Proof.
  intros Hall (Hlen & _ & Hsame). apply Forall_lookup. intros j sc' Hj.
  destruct (lookup_lt_is_Some_2 scenes j) as [sc Hsc].
  { rewrite <-Hlen. by eapply lookup_lt_Some. }
  destruct (Hsame j sc Hsc) as (sc'' & Hsc'' & _ & Hc). simplify_eq.
  apply Hc. by eapply Forall_lookup_1.
Qed.

End Shift.

(** X.  [fix_gaps_shift_following] returns a timeline of the same
    length in which every scene has the fields of the input scene at
    the same place, [start_time] and [end_time] apart: no [duration]
    changes.  The first scene is returned as it is.  The function
    returns whenever every scene has its three fields. *)
Theorem fix_gaps_shift_following_keeps_durations :
  ∀ (F : Type) (N : Num F) (self : GapValidator.SceneGapValidator F)
    (scenes : list (gmap string F)),
    (Forall complete scenes →
     ∃ fixed, GapValidator.fix_gaps_shift_following self scenes = Ok fixed)
    ∧ ∀ fixed,
        GapValidator.fix_gaps_shift_following self scenes = Ok fixed →
        length fixed = length scenes
        ∧ fixed !! 0 = scenes !! 0
        ∧ ∀ i sc, scenes !! i = Some sc →
            ∃ sc', fixed !! i = Some sc'
                   ∧ sc' !! "duration" = sc !! "duration"
                   ∧ same_but_times sc sc'.
Proof.
  intros F N self scenes. unfold GapValidator.fix_gaps_shift_following. split.
  - intros Hall. destruct scenes as [|sc0 rest]; [eauto|].
    set (scenes := sc0 :: rest) in *.
    destruct (for_range_total (shift_following_inv scenes)
                (GapValidator.shift_following_step self) 1 (length scenes)
                scenes) as (fixed & Hfixed & _);
      [simpl; lia|apply shift_following_inv_start| |eauto].
    intros i t Hi Hinv.
    destruct (shift_following_step_total self i t) as [t' Ht'].
    { by eapply shift_following_inv_complete. }
    { destruct Hinv as (-> & _). lia. }
    exists t'. split; [done|]. eapply shift_following_inv_step; [lia|done..].
  - intros fixed Hfixed.
    assert (Hinv : shift_following_inv scenes (length scenes) fixed).
    { destruct scenes as [|sc0 rest].
      { injection Hfixed as <-. apply shift_following_inv_start. }
      revert Hfixed.
      apply (for_range_returns (shift_following_inv (sc0 :: rest)));
        [simpl; lia|apply shift_following_inv_start|].
      intros i t t' Hi. apply shift_following_inv_step. lia. }
    destruct Hinv as (Hlen & Hrest & Hsame).
    split_and!; [done|apply Hrest; by left|].
    intros i sc Hsc. destruct (Hsame i sc Hsc) as (sc' & Hsc' & Hs & _).
    exists sc'. split_and!; [done| |done]. by apply Hs.
Qed.

Lemma fix_gaps_shift_following_keeps_durations_witness :
  ∃ fixed,
    GapValidator.fix_gaps_shift_following GapValidator.init gap_example
    = Ok fixed
    ∧ length fixed = length gap_example
    ∧ fixed !! 0 = gap_example !! 0
    ∧ ∀ i sc, gap_example !! i = Some sc →
        ∃ sc', fixed !! i = Some sc'
               ∧ sc' !! "duration" = sc !! "duration"
               ∧ same_but_times sc sc'.
Proof.
  eexists. split; [reflexivity|].
  by apply (proj2 (fix_gaps_shift_following_keeps_durations float binary64
                     GapValidator.init gap_example)).
Defined.

Section ShiftExact.
Import GapValidator.
Implicit Types (self : SceneGapValidator Qc) (sc : gmap string Qc)
  (scenes fixed : list (gmap string Qc)).

(** The length [end_time - start_time] of a scene. *)
Definition span_of sc (d : Qc) : Prop :=
  ∃ s e, sc !! "start_time" = Some s ∧ sc !! "end_time" = Some e
         ∧ d = nsub e s.

Definition shift_exact_inv self scenes (i : nat) fixed : Prop :=
  length fixed = length scenes
  ∧ (∀ j, i ≤ j → fixed !! j = scenes !! j)
  ∧ (∀ j, j + 1 < i →
       ∃ e s, adjacent_gap fixed j e s
              ∧ ngtb (nsub s e) (default_tolerance self) = false)
  ∧ (∀ j sc d, scenes !! j = Some sc → span_of sc d →
       ∃ sc', fixed !! j = Some sc' ∧ span_of sc' d).

Lemma shift_exact_inv_step self scenes i fixed fixed' :
  nleb nzero (default_tolerance self) = true → 1 ≤ i →
  shift_exact_inv self scenes i fixed →
  shift_following_step self i fixed = Ok fixed' →
  shift_exact_inv self scenes (S i) fixed'.
Proof.
  intros Htol Hi (Hlen & Hrest & Hgaps & Hspan) Hstep.
  apply shift_following_step_returns in Hstep
    as (c & p & cs & pe & Hc & Hp & Hcs & Hpe & Hcase).
  assert (Hprev : i - 1 + 1 = i) by lia.
  destruct Hcase as [[Hno ->]|(_ & ce & Hce & ->)].
  { split_and!; [done| | |done].
    - intros j Hj. apply Hrest. lia.
    - intros j Hj. destruct (decide (j + 1 = i)) as [Hji|Hne].
      + exists pe, cs. split; [|done]. replace j with (i - 1) by lia.
        exists p, c. by rewrite Hprev.
      + apply Hgaps. lia. }
  assert (Hlt : i < length fixed) by by eapply lookup_lt_Some.
  set (m := moved_back (nsub cs pe) c cs ce).
  split_and!.
  - by rewrite length_insert.
  - intros j Hj. rewrite list_lookup_insert_ne by lia. apply Hrest. lia.
  - intros j Hj. destruct (decide (j + 1 = i)) as [Hji|Hne].
    + exists pe, (nsub cs (nsub cs pe)). split.
      * replace j with (i - 1) by lia. exists p, m. split_and!.
        -- by rewrite list_lookup_insert_ne by lia.
        -- rewrite Hprev. by apply list_lookup_insert_eq.
        -- done.
        -- unfold m, moved_back.
           by rewrite lookup_insert_ne, lookup_insert_eq by done.
      * replace (nsub cs (nsub cs pe)) with pe by (simpl; ring).
        apply (sub_diag_band (default_tolerance self) pe Htol).
    + destruct (Hgaps j) as (e & s & (a & b & Ha & Hb & He & Hs) & Hno);
        [lia|].
      exists e, s. split; [|done]. exists a, b.
      by rewrite !list_lookup_insert_ne by lia.
  - intros j sc d Hsc Hd. destruct (decide (j = i)) as [->|Hne].
    + rewrite Hrest, Hsc in Hc by lia. injection Hc as <-.
      exists m. split; [by apply list_lookup_insert_eq|].
      destruct Hd as (s & e & Hs & He & ->). simplify_eq.
      exists (nsub cs (nsub cs pe)), (nsub ce (nsub cs pe)).
      unfold m, moved_back. split_and!.
      * by rewrite lookup_insert_ne, lookup_insert_eq by done.
      * by rewrite lookup_insert_eq.
      * simpl. ring.
    + rewrite list_lookup_insert_ne by done. by apply (Hspan j sc d).
Qed.

End ShiftExact.

(** X.  In exact arithmetic, with a tolerance that is not negative,
    [fix_gaps_shift_following] leaves no gap: in the timeline it
    returns no scene starts more than the tolerance after the end of the
    scene before it.  Every scene keeps its length
    [end_time - start_time]. *)
Theorem fix_gaps_shift_following_closes_gaps :
  ∀ (self : GapValidator.SceneGapValidator Qc)
    (scenes fixed : list (gmap string Qc)),
    nleb nzero (GapValidator.default_tolerance self) = true →
    GapValidator.fix_gaps_shift_following self scenes = Ok fixed →
    (∀ i e s, adjacent_gap fixed i e s →
              ngtb (nsub s e) (GapValidator.default_tolerance self) = false)
    ∧ ∀ i sc d, scenes !! i = Some sc → span_of sc d →
                ∃ sc', fixed !! i = Some sc' ∧ span_of sc' d.
Proof.
  intros self scenes fixed Htol Hfixed.
  assert (Hinv : shift_exact_inv self scenes (length scenes) fixed).
  { assert (Hstart : shift_exact_inv self scenes 1 scenes).
    { split_and!; [done..| |by eauto]. intros; lia. }
    unfold GapValidator.fix_gaps_shift_following in Hfixed.
    destruct scenes as [|sc0 rest].
    { injection Hfixed as <-. destruct Hstart as (? & ? & ? & ?).
      split_and!; [done..| |done]. simpl. intros; lia. }
    revert Hfixed.
    apply (for_range_returns (shift_exact_inv self (sc0 :: rest)));
      [simpl; lia|done|].
    intros i t t' Hi. apply shift_exact_inv_step; [done|lia]. }
  destruct Hinv as (Hlen & _ & Hgaps & Hspan). split; [|done].
  intros i e s Hadj. destruct (Hgaps i) as (e' & s' & Hadj' & Hno).
  { destruct Hadj as (c & n & _ & Hn%lookup_lt_Some & _). lia. }
  by destruct (adjacent_gap_unique _ _ _ _ _ _ Hadj Hadj') as [-> ->].
Qed.

(** The timeline of [test_fix_gaps_by_shifting_scenes]. *)
Definition gap_example_exact : list (gmap string Qc) :=
  [scene (Q2Qc 0) (Q2Qc 10) (Q2Qc 10); scene (Q2Qc 12) (Q2Qc 27) (Q2Qc 15);
   scene (Q2Qc 30) (Q2Qc 45) (Q2Qc 15)].

Lemma fix_gaps_shift_following_closes_gaps_witness :
  ∃ fixed,
    GapValidator.fix_gaps_shift_following GapValidator.init gap_example_exact
    = Ok fixed
    ∧ (∀ i e s, adjacent_gap fixed i e s →
                ngtb (nsub s e) (GapValidator.default_tolerance
                                   GapValidator.init) = false)
    ∧ ∀ i sc d, gap_example_exact !! i = Some sc → span_of sc d →
                ∃ sc', fixed !! i = Some sc' ∧ span_of sc' d.
Proof.
  eexists. split; [reflexivity|].
  by apply (fix_gaps_shift_following_closes_gaps GapValidator.init
              gap_example_exact).
Defined.

(** ** Timelines without issues *)

Lemma for_range_idle {E St : Type} (body : nat → St → result E St)
    (a b : nat) (s : St) :
  (∀ i, a ≤ i < b → body i s = Ok s) →
  for_each (range a b) body s = Ok s.
Proof.
  intros Hidle. destruct (decide (a ≤ b)) as [Hab|Hab].
  - destruct (for_range_total (λ _ t, t = s) body a b s Hab eq_refl)
      as (s' & Hs' & ->); [|done].
    intros i t Hi ->. exists s. split; [by apply Hidle|done].
  - by rewrite range_empty by lia.
Qed.

Section Clean.
Context {F : Type} `{Num F}.
Import GapValidator.
Implicit Types (self : SceneGapValidator F) (sc : gmap string F)
  (scenes : list (gmap string F)).

(** No scene starts more than the tolerance after the end of the scene
    before it. *)
Definition no_gap self scenes : Prop :=
  ∀ i e s, adjacent_gap scenes i e s →
           ngtb (nsub s e) (default_tolerance self) = false.

(** No scene ends after the start of the next one. *)
Definition no_overlap scenes : Prop :=
  ∀ i e s, adjacent_gap scenes i e s → ngtb e s = false.

Lemma fix_overlaps_trim_previous_idle self scenes :
  Forall complete scenes → no_overlap scenes →
  fix_overlaps_trim_previous self scenes = Ok scenes.
Proof.
  intros Hall Hno. unfold fix_overlaps_trim_previous.
  destruct scenes as [|sc0 rest]; [done|].
  set (scenes := sc0 :: rest) in *. apply for_range_idle. intros i Hi.
  destruct (adjacent_gap_complete scenes i Hall) as (e & s & Hadj); [lia|].
  pose proof Hadj as (c & n & Hc & Hn & He & Hs).
  unfold trim_step, list_get, getitem. rewrite Hc, Hn. simpl.
  rewrite He, Hs. simpl. by rewrite (Hno i e s Hadj).
Qed.

Lemma fix_gaps_extend_previous_idle self scenes min_scene_duration :
  Forall complete scenes → no_gap self scenes →
  fix_gaps_extend_previous self scenes min_scene_duration = Ok scenes.
Proof.
  intros Hall Hno. unfold fix_gaps_extend_previous.
  destruct scenes as [|sc0 rest]; [done|].
  set (scenes := sc0 :: rest) in *. apply for_range_idle. intros i Hi.
  destruct (adjacent_gap_complete scenes i Hall) as (e & s & Hadj); [lia|].
  pose proof Hadj as (c & n & Hc & Hn & He & Hs).
  unfold extend_step, list_get, getitem. rewrite Hc, Hn. simpl.
  rewrite Hs, He. simpl. by rewrite (Hno i e s Hadj).
Qed.

Lemma fix_gaps_shift_following_idle self scenes :
  Forall complete scenes → no_gap self scenes →
  fix_gaps_shift_following self scenes = Ok scenes.
Proof.
  intros Hall Hno. unfold fix_gaps_shift_following.
  destruct scenes as [|sc0 rest]; [done|].
  set (scenes := sc0 :: rest) in *. apply for_range_idle. intros i Hi.
  destruct (adjacent_gap_complete scenes (i - 1) Hall) as (e & s & Hadj);
    [lia|].
  pose proof Hadj as (p & c & Hp & Hc & He & Hs).
  replace (i - 1 + 1) with i in Hc by lia.
  unfold shift_following_step, list_get, getitem. rewrite Hc, Hp. simpl.
  rewrite Hs, He. simpl. by rewrite (Hno (i - 1) e s Hadj).
Qed.

(** What a report that says valid tells about the timeline. *)
Lemma valid_report_no_gap self scenes rep :
  validate_scene_continuity self scenes None = Ok rep → is_valid rep = true →
  Forall complete scenes ∧ no_gap self scenes.
Proof.
  intros Hrep Hvalid.
  assert (Hdata : Forall (λ sc, ¬ violates self sc) scenes).
  { apply validate_scene_data_ok. unfold validate_scene_continuity in Hrep.
    by destruct (_validate_scene_data self scenes) as [[]|]. }
  destruct (validate_scene_continuity_returns self scenes None Hdata)
    as (rep' & Hrep' & [Hgaps _] & Hv).
  rewrite Hrep in Hrep'. injection Hrep' as <-. simpl in Hgaps.
  rewrite Hvalid in Hv. symmetry in Hv.
  apply andb_true_iff in Hv as [Hg%bool_decide_eq_true _].
  assert (Hall : Forall complete scenes).
  { eapply Forall_impl; [done|]. intros sc. apply not_violates_complete. }
  split; [done|]. intros i e s Hadj.
  destruct (ngtb (nsub s e) (default_tolerance self)) eqn:Hgt; [|done].
  assert (Hin : gap_at i e s ∈ gaps rep).
  { apply Hgaps. exists i. split.
    - destruct Hadj as (c & n & _ & Hn%lookup_lt_Some & _). lia.
    - by exists e, s. }
  rewrite Hg in Hin. by apply elem_of_nil in Hin.
Qed.

End Clean.

(** X.  A timeline that the validation reports valid, and in which no
    scene ends after the start of the next one, is returned as it is by
    [fix_overlaps_trim_previous], by [fix_gaps_extend_previous], by
    [fix_gaps_shift_following] and by [fix_all_timing_issues]. *)
Theorem repairs_keep_a_valid_timeline :
  ∀ (F : Type) (N : Num F) (self : GapValidator.SceneGapValidator F)
    (scenes : list (gmap string F)) (min_scene_duration : option F)
    (rep : GapValidator.report F),
    GapValidator.validate_scene_continuity self scenes None = Ok rep →
    GapValidator.is_valid rep = true →
    no_overlap scenes →
    GapValidator.fix_overlaps_trim_previous self scenes = Ok scenes
    ∧ GapValidator.fix_gaps_extend_previous self scenes min_scene_duration
      = Ok scenes
    ∧ GapValidator.fix_gaps_shift_following self scenes = Ok scenes
    ∧ GapValidator.fix_all_timing_issues self scenes min_scene_duration
      = Ok scenes.
Proof.
  intros F N self scenes m rep Hrep Hvalid Hover.
  destruct (valid_report_no_gap self scenes rep Hrep Hvalid) as [Hall Hgap].
  pose proof (fix_overlaps_trim_previous_idle self scenes Hall Hover) as Ht.
  pose proof (fix_gaps_extend_previous_idle self scenes m Hall Hgap) as He.
  split_and!; [done|done|by apply fix_gaps_shift_following_idle|].
  unfold GapValidator.fix_all_timing_issues.
  destruct scenes as [|sc0 rest]; [done|].
  rewrite Ht. cbn [mbind result_bind]. rewrite He. cbn [mbind result_bind].
  rewrite Hrep. cbn [mbind result_bind]. by rewrite Hvalid.
Qed.

(** The timeline of [test_perfect_scene_continuity]. *)
Definition perfect_example : list (gmap string float) :=
  [scene 0 10 10; scene 10 25 15; scene 25 40 15]%float.

Lemma repairs_keep_a_valid_timeline_witness :
  GapValidator.fix_overlaps_trim_previous GapValidator.init perfect_example
  = Ok perfect_example
  ∧ GapValidator.fix_gaps_extend_previous GapValidator.init perfect_example
      None = Ok perfect_example
  ∧ GapValidator.fix_gaps_shift_following GapValidator.init perfect_example
    = Ok perfect_example
  ∧ GapValidator.fix_all_timing_issues GapValidator.init perfect_example None
    = Ok perfect_example.
Proof.
  eapply (repairs_keep_a_valid_timeline float binary64 GapValidator.init
            perfect_example None); [reflexivity|reflexivity|].
  intros i e s (c & n & Hc & Hn & He & Hs).
  destruct i as [|[|[|i]]]; simpl in Hc, Hn; simplify_eq;
    unfold scene in He, Hs;
    rewrite lookup_insert_ne, lookup_insert_eq in He by done;
    rewrite lookup_insert_eq in Hs; by simplify_eq.
Defined.

(** ** Rescaling, for every implementation of the numbers *)

Section RescaleAny.
Context {F : Type} `{Num F}.
Import GapValidator.
Implicit Types (self : SceneGapValidator F) (sc : gmap string F)
  (scenes fixed : list (gmap string F)) (ds : list F).

(** Reading the durations fails on the first scene without one. *)
Lemma mapM_getitem_duration_cases scenes :
  (∃ ds, durations_of scenes ds)
  ∨ ((∃ i sc, scenes !! i = Some sc ∧ sc !! "duration" = None)
     ∧ mapM (λ sc, getitem sc "duration") scenes
       = Raise (KeyError "duration")).
Proof.
  induction scenes as [|sc scenes IH].
  - left. exists []. constructor.
  - destruct (sc !! "duration") as [d|] eqn:Hd.
    + destruct IH as [[ds Hds]|[(i & sc' & Hi & Hnone) Hraise]].
      * left. exists (d :: ds). by constructor.
      * right. split; [by exists (S i), sc'|].
        cbn [mapM]. rewrite Hraise. unfold getitem. by rewrite Hd.
    + right. split; [by exists 0, sc|].
      cbn [mapM]. unfold getitem. by rewrite Hd.
Qed.

(** The fields other than the three timing fields are the same. *)
Definition same_but_timing sc sc' : Prop :=
  ∀ key, key ≠ "start_time" → key ≠ "end_time" → key ≠ "duration" →
         sc' !! key = sc !! key.

(** What the rescaling leaves: the length, every scene starting where
    the one before it ends, the first one at zero, and the other
    fields. *)
Definition rescaled scenes fixed : Prop :=
  length fixed = length scenes
  ∧ contiguous fixed
  ∧ (∀ first, fixed !! 0 = Some first → first !! "start_time" = Some nzero)
  ∧ (∀ i sc, scenes !! i = Some sc →
       ∃ sc', fixed !! i = Some sc' ∧ complete sc' ∧ same_but_timing sc sc').

Lemma rescaled_scene_same factor c sc d :
  complete (rescaled_scene factor c sc d)
  ∧ same_but_timing sc (rescaled_scene factor c sc d).
Proof.
  unfold rescaled_scene. split.
  - split_and!.
    + by rewrite lookup_insert_ne, lookup_insert_ne, lookup_insert_eq by done.
    + by rewrite lookup_insert_eq.
    + by rewrite lookup_insert_ne, lookup_insert_eq by done.
  - intros key ???. by rewrite !lookup_insert_ne by done.
Qed.

Lemma rescale_inv_rescaled scenes ds factor fixed c :
  durations_of scenes ds →
  rescale_inv scenes ds factor (length scenes) (fixed, c) →
  rescaled scenes fixed.
Proof.
  intros Hds Hinv.
  destruct (rescale_inv_contiguous scenes ds factor fixed c Hds Hinv)
    as (Hcont & Hfirst & _).
  destruct Hinv as (Hlen & _ & _ & Hdone). simpl in *.
  split_and!; [done..|]. intros i sc Hsc.
  destruct (Forall2_lookup_l _ _ _ _ _ Hds Hsc) as (d & Hd & _).
  eexists. split; [apply (Hdone i sc d); [by eapply lookup_lt_Some|done..]|].
  apply rescaled_scene_same.
Qed.

(** The final adjustment changes [duration] and [end_time] of the last
    scene only. *)
Lemma rescaled_adjust_last scenes fixed last_scene (d e : F) :
  rescaled scenes fixed →
  fixed !! (length fixed - 1) = Some last_scene →
  rescaled scenes
    (<[length fixed - 1 :=
         <["end_time" := e]> (<["duration" := d]> last_scene)]> fixed).
Proof.
  intros (Hlen & Hcont & Hfirst & Hsame) Hlast.
  set (i := length fixed - 1) in *.
  assert (Hi : i < length fixed) by by eapply lookup_lt_Some.
  split_and!.
  - by rewrite length_insert.
  - intros j current next Hc Hn.
    assert (Hj : j + 1 < length fixed).
    { apply lookup_lt_Some in Hn. by rewrite length_insert in Hn. }
    rewrite list_lookup_insert_ne in Hc by lia.
    destruct (decide (j + 1 = i)) as [Hji|Hne].
    + rewrite Hji, list_lookup_insert_eq in Hn by done. injection Hn as <-.
      rewrite lookup_insert_ne, lookup_insert_ne by done.
      apply (Hcont j); [done|by rewrite Hji].
    + rewrite list_lookup_insert_ne in Hn by done. by apply (Hcont j).
  - intros first. destruct (decide (i = 0)) as [Hi0|Hne].
    + rewrite Hi0, list_lookup_insert_eq by lia. intros [= <-].
      rewrite lookup_insert_ne, lookup_insert_ne by done.
      apply Hfirst. by rewrite <-Hi0.
    + rewrite list_lookup_insert_ne by done. apply Hfirst.
  - intros j sc Hsc. destruct (Hsame j sc Hsc) as (sc' & Hsc' & Hc & Hs).
    destruct (decide (j = i)) as [->|Hne].
    + rewrite list_lookup_insert_eq by done. eexists. split; [done|].
      simplify_eq. split; [by repeat apply complete_insert|].
      intros key ???. rewrite !lookup_insert_ne by done. by apply Hs.
    + rewrite list_lookup_insert_ne by done. by exists sc'.
Qed.

End RescaleAny.

(** X.  [enforce_total_duration], for every implementation of the
    numbers.  Given the empty timeline it returns it.  Given scenes of
    which one has no [duration], it raises [KeyError('duration')].
    When the durations add up to within the tolerance of the target,
    the timeline is returned as it is.  Otherwise, when they add up to
    zero it raises [ZeroDivisionError], and when they do not it returns
    a timeline of the same length that starts at zero, in which each
    scene starts where the one before it ends, and whose scenes keep
    the fields that are not timing fields. *)
Theorem enforce_total_duration_cases :
  ∀ (F : Type) (N : Num F) (self : GapValidator.SceneGapValidator F)
    (scenes : list (gmap string F)) (target_duration : F),
    let returned := GapValidator.enforce_total_duration self scenes
                      target_duration in
    let within ds :=
      nltb (nabs (nsub (pysum ds) target_duration))
           (GapValidator.default_tolerance self) in
    (scenes = [] → returned = Ok [])
    ∧ (scenes ≠ [] →
       (∃ i sc, scenes !! i = Some sc ∧ sc !! "duration" = None) →
       returned = Raise (KeyError "duration"))
    ∧ (∀ ds, durations_of scenes ds → within ds = true →
             returned = Ok scenes)
    ∧ (∀ ds, scenes ≠ [] → durations_of scenes ds → within ds = false →
             neqb (pysum ds) nzero = true →
             returned = Raise ZeroDivisionError)
    ∧ (∀ ds, scenes ≠ [] → durations_of scenes ds → within ds = false →
             neqb (pysum ds) nzero = false →
             ∃ fixed, returned = Ok fixed ∧ rescaled scenes fixed).
Proof.
  intros F N self scenes target returned within. subst returned within.
  unfold GapValidator.enforce_total_duration. split_and!.
  - by intros ->.
  - intros Hne Hmissing. destruct scenes as [|sc0 rest]; [done|].
    destruct (mapM_getitem_duration_cases (sc0 :: rest))
      as [[ds Hds]|[_ ->]]; [|done].
    destruct Hmissing as (i & sc & Hsc & Hnone).
    destruct (Forall2_lookup_l _ _ _ _ _ Hds Hsc) as (d & _ & Hd).
    congruence.
  - intros ds Hds Hwithin. destruct scenes as [|sc0 rest]; [done|].
    rewrite (mapM_getitem_duration _ _ Hds). cbn [mbind result_bind].
    by rewrite Hwithin.
  - intros ds Hne Hds Hfar Hzero. destruct scenes as [|sc0 rest]; [done|].
    rewrite (mapM_getitem_duration _ _ Hds). cbn [mbind result_bind].
    rewrite Hfar. unfold pydiv. by rewrite Hzero.
  - intros ds Hne Hds Hfar Hzero. destruct scenes as [|sc0 rest]; [done|].
    set (scenes := sc0 :: rest) in *.
    rewrite (mapM_getitem_duration _ _ Hds). cbn [mbind result_bind].
    rewrite Hfar. unfold pydiv. rewrite Hzero. cbn [mbind result_bind].
    set (factor := ndiv target (pysum ds)).
    destruct (rescale_loop scenes ds factor Hds) as ([fixed c] & -> & Hinv).
    cbn [mbind result_bind].
    pose proof (rescale_inv_rescaled scenes ds factor fixed c Hds Hinv)
      as Hres.
    destruct (ngtb (nabs (nsub c target))
                (GapValidator.default_tolerance self)); [|by exists fixed].
    destruct (lookup_lt_is_Some_2 fixed (length fixed - 1))
      as [last_scene Hlast].
    { destruct Hres as (-> & _). simpl. lia. }
    assert (Hlen : length scenes - 1 < length scenes) by (simpl; lia).
    destruct Hres as (Hl & Hres').
    destruct (lookup_lt_is_Some_2 scenes (length fixed - 1)) as [sc Hsc];
      [lia|].
    pose proof (conj Hl Hres' : rescaled scenes fixed) as Hres.
    destruct Hres' as (_ & _ & Hsame).
    destruct (Hsame _ _ Hsc) as (sc' & Hsc' & (_ & [e He] & [d Hd]) & _).
    simplify_eq.
    unfold GapValidator.list_get, GapValidator.getitem. rewrite Hlast.
    cbn [mbind result_bind]. rewrite Hd. cbn [mbind result_bind].
    rewrite lookup_insert_ne, He by done. cbn [mbind result_bind].
    eexists. split; [done|]. by apply rescaled_adjust_last.
Qed.

(** A scene without duration, a timeline that lasts no time, and the
    timeline of [offset_example], each to be brought to 45 seconds. *)
Lemma enforce_total_duration_cases_witness :
  GapValidator.enforce_total_duration GapValidator.init
    [<["start_time" := 0%float]> (<["end_time" := 5%float]> ∅)] 45%float
  = Raise (KeyError "duration")
  ∧ GapValidator.enforce_total_duration GapValidator.init
      [scene 0 5 0]%float 45%float = Raise ZeroDivisionError
  ∧ ∃ fixed,
      GapValidator.enforce_total_duration GapValidator.init offset_example
        45%float = Ok fixed
      ∧ rescaled offset_example fixed.
Proof.
  split_and!.
  - apply (enforce_total_duration_cases float binary64); [done|].
    by exists 0%nat, (<["start_time" := 0%float]> (<["end_time" := 5%float]> ∅)).
  - apply (enforce_total_duration_cases float binary64 GapValidator.init
             [scene 0 5 0]%float 45%float) with (ds := [0%float]);
      [done|by repeat constructor|reflexivity|reflexivity].
  - apply (enforce_total_duration_cases float binary64 GapValidator.init
             offset_example 45%float)
      with (ds := [10%float; 15%float; 10%float]);
      [done|by repeat constructor|reflexivity|reflexivity].
Defined.

(** ** What trimming leaves *)

Section Trimmed.
Context {F : Type} `{Num F}.
Import GapValidator.
Implicit Types (self : SceneGapValidator F) (sc : gmap string F)
  (scenes fixed : list (gmap string F)).

(** The three ways a scene can stand before a scene that starts at [s]
    once the loop has dealt with it: it did not end after [s]; or it
    was cut to end at [s], its duration being what is left of it; or
    nothing was left of it, and it lasts 0.1 s from its start. *)
Inductive trimmed_before (s : F) sc : Prop :=
| trimmed_untouched e :
    sc !! "end_time" = Some e → ngtb e s = false → trimmed_before s sc
| trimmed_cut cs :
    sc !! "start_time" = Some cs → sc !! "end_time" = Some s →
    sc !! "duration" = Some (nsub s cs) → nleb (nsub s cs) nzero = false →
    trimmed_before s sc
| trimmed_floored cs :
    sc !! "start_time" = Some cs →
    sc !! "end_time" = Some (nadd cs lit_0_1) →
    sc !! "duration" = Some lit_0_1 → nleb (nsub s cs) nzero = true →
    trimmed_before s sc.

Definition trimmed_pair fixed (i : nat) : Prop :=
  ∃ current next s,
    fixed !! i = Some current ∧ fixed !! (i + 1) = Some next
    ∧ next !! "start_time" = Some s ∧ trimmed_before s current.

Lemma trim_step_pair i fixed fixed' :
  trim_step i fixed = Ok fixed' → trimmed_pair fixed' i.
Proof.
  unfold trim_step, list_get, getitem.
  destruct (fixed !! i) as [c|] eqn:Hc; simpl; [|done].
  destruct (fixed !! (i + 1)) as [n|] eqn:Hn; simpl; [|done].
  destruct (c !! "end_time") as [ce|] eqn:Hce; simpl; [|done].
  destruct (n !! "start_time") as [ns|] eqn:Hns; simpl; [|done].
  assert (Hi : i < length fixed) by by eapply lookup_lt_Some.
  destruct (ngtb ce ns) eqn:Hgt.
  2:{ intros [= <-]. exists c, n, ns. split_and!; [done..|].
      by eapply trimmed_untouched. }
  rewrite lookup_insert_ne by done.
  destruct (c !! "start_time") as [cs|] eqn:Hcs; simpl; [|done].
  destruct (nleb (nsub ns cs) nzero) eqn:Hle; intros [= <-];
    eexists _, n, ns;
    (split_and!;
     [by apply list_lookup_insert_eq
     |by rewrite list_lookup_insert_ne by lia
     |done|]).
  - apply (trimmed_floored _ _ cs); [|by rewrite lookup_insert_eq| |done].
    + by rewrite !lookup_insert_ne by done.
    + by rewrite lookup_insert_ne, lookup_insert_eq by done.
  - apply (trimmed_cut _ _ cs); [| | |done].
    + by rewrite !lookup_insert_ne by done.
    + by rewrite lookup_insert_ne, lookup_insert_eq by done.
    + by rewrite lookup_insert_eq.
Qed.

Definition trimmed_inv scenes (i : nat) fixed : Prop :=
  trim_inv scenes i fixed ∧ ∀ j, j < i → trimmed_pair fixed j.

Lemma trimmed_inv_step scenes i fixed fixed' :
  trimmed_inv scenes i fixed → trim_step i fixed = Ok fixed' →
  trimmed_inv scenes (S i) fixed'.
Proof.
  intros [Hinv Hpairs] Hstep. split; [by eapply trim_inv_step|].
  intros j Hj. destruct (decide (j = i)) as [->|Hne].
  { by eapply trim_step_pair. }
  destruct (Hpairs j) as (c & n & s & Hc & Hn & Hs & Ht); [lia|].
  apply trim_step_returns in Hstep as (_ & Hother & Hthis).
  destruct (decide (j + 1 = i)) as [Hji|Hne'].
  - rewrite Hji in Hn. destruct (Hthis n Hn) as (n' & Hn' & Hsame & _).
    exists c, n', s. rewrite Hji. split_and!; [|done| |done].
    + rewrite Hother by lia. done.
    + by rewrite Hsame.
  - exists c, n, s. by rewrite !Hother by lia.
Qed.

End Trimmed.

(** X.  In the timeline that [fix_overlaps_trim_previous] returns,
    every scene but the last stands in one of three ways before the
    scene that follows it: it does not end after the start of that
    scene; or it ends at that start and its [duration] is that start
    minus its own [start_time], which is more than zero; or that
    difference is zero or less, and the scene has the [duration] 0.1
    and ends 0.1 after its own start. *)
Theorem fix_overlaps_trim_previous_result :
  ∀ (F : Type) (N : Num F) (self : GapValidator.SceneGapValidator F)
    (scenes fixed : list (gmap string F)),
    GapValidator.fix_overlaps_trim_previous self scenes = Ok fixed →
    ∀ i, i + 1 < length fixed → trimmed_pair fixed i.
Proof.
  intros F N self scenes fixed Hfixed.
  assert (Hinv : trimmed_inv scenes (length scenes - 1) fixed).
  { unfold GapValidator.fix_overlaps_trim_previous in Hfixed.
    assert (Hstart : trimmed_inv scenes 0 scenes).
    { split; [apply trim_inv_start|]. intros; lia. }
    destruct scenes as [|sc0 rest]; [by injection Hfixed as <-|].
    revert Hfixed.
    apply (for_range_returns (trimmed_inv (sc0 :: rest))); [lia|done|].
    intros i t t' _. apply trimmed_inv_step. }
  destruct Hinv as [(Hlen & _) Hpairs]. intros i Hi. apply Hpairs. lia.
Qed.

(** Of the two scenes of [backwards_example], the first is left with
    0.1 s. *)
Lemma fix_overlaps_trim_previous_result_witness :
  ∃ fixed,
    GapValidator.fix_overlaps_trim_previous GapValidator.init
      backwards_example = Ok fixed
    ∧ trimmed_pair fixed 0.
Proof.
  eexists. split; [reflexivity|].
  apply (fix_overlaps_trim_previous_result float binary64 GapValidator.init
           backwards_example); [reflexivity|simpl; lia].
Defined.

(** ** What the bookkeeping of deficits and surpluses can change *)

Section Tracking.
Context {F : Type} `{Num F}.
Import SceneTiming.
Implicit Types (self : SceneTimingCalculator F).

(** [m] returns or raises [r] whatever [self] holds and leaves the log
    alone; [m'] does the same and leaves all of [self] alone. *)
Definition same_answer {A} (m m' : method A) : Prop :=
  ∃ r, (∀ self, (m self).1 = r
                ∧ _rebalancing_log (m self).2 = _rebalancing_log self)
       ∧ ∀ self, m' self = (r, self).

Lemma same_answer_quiet {A} (m : method A) (r : result (exn F) A) :
  (∀ self, m self = (r, self)) → same_answer m m.
Proof. intros Hm. exists r. split; [|done]. intros self. by rewrite Hm. Qed.

Lemma same_answer_lift {A} (r : result (exn F) A) :
  same_answer (lift r) (lift r).
Proof. by apply (same_answer_quiet _ r). Qed.

Lemma same_answer_ret {A} (a : A) : same_answer (mret a) (mret a).
Proof. by apply (same_answer_quiet _ (Ok a)). Qed.

Lemma same_answer_bind {A B} (m m' : method A) (f f' : A → method B) :
  same_answer m m' → (∀ a, same_answer (f a) (f' a)) →
  same_answer (m ≫= f) (m' ≫= f').
Proof.
  intros (r & Hm & Hm') Hf. destruct r as [a|e].
  - destruct (Hf a) as (r & Hfa & Hfa'). exists r. split.
    + intros self. unfold mbind, method_bind.
      destruct (Hm self) as [Hr Hlog]. destruct (m self) as [r' self1].
      simpl in Hr, Hlog. subst r'. destruct (Hfa self1) as [-> ->]. done.
    + intros self. unfold mbind, method_bind. by rewrite Hm', Hfa'.
  - exists (Raise e). split.
    + intros self. unfold mbind, method_bind.
      destruct (Hm self) as [Hr Hlog]. destruct (m self) as [r' self1].
      simpl in Hr, Hlog. by subst r'.
    + intros self. unfold mbind, method_bind. by rewrite Hm'.
Qed.

Lemma same_answer_modify (f : SceneTimingCalculator F → SceneTimingCalculator F) :
  (∀ self, _rebalancing_log (f self) = _rebalancing_log self) →
  same_answer (modify f) (mret ()).
Proof.
  intros Hf. exists (Ok ()). split; [|done]. intros self.
  split; [done|apply Hf].
Qed.

Lemma same_answer_seq (m m2 : method unit) :
  same_answer m (mret ()) → same_answer m2 (mret ()) →
  same_answer (m ≫= λ _, m2) (mret ()).
Proof.
  intros (r & Hm & Hr) (r2 & Hm2 & Hr2).
  assert (r = Ok ()) as -> by (specialize (Hr init); by injection Hr).
  assert (r2 = Ok ()) as -> by (specialize (Hr2 init); by injection Hr2).
  exists (Ok ()). split; [|done]. intros self. unfold mbind, method_bind.
  destruct (Hm self) as [Ha Hlog]. destruct (m self) as [r' self1].
  simpl in Ha, Hlog. subst r'. destruct (Hm2 self1) as [-> ->]. done.
Qed.

Lemma same_answer_for_each_m {A St} (xs : list A) (body body' : A → St → method St)
    (s : St) :
  (∀ x t, same_answer (body x t) (body' x t)) →
  same_answer (for_each_m xs body s) (for_each_m xs body' s).
Proof.
  intros Hbody. revert s. induction xs as [|x xs IH]; intros s.
  - apply same_answer_ret.
  - cbn [for_each_m]. apply same_answer_bind; [apply Hbody|apply IH].
Qed.

Lemma tracking_step_same_answer (base_duration : F) track i st :
  same_answer (tracking_step base_duration track i st)
    (tracking_step base_duration false i st).
Proof.
  destruct st as [durations running_total]. unfold tracking_step.
  apply same_answer_bind; [apply same_answer_lift|]. intros k.
  apply same_answer_bind; [|intros []; apply same_answer_ret].
  destruct track; [|apply same_answer_ret].
  apply same_answer_seq.
  - destruct (ngtb _ nzero); [|apply same_answer_ret].
    by apply same_answer_modify.
  - destruct (ngtb _ nzero); [|apply same_answer_ret].
    by apply same_answer_modify.
Qed.

Lemma _distribute_with_tracking_same_answer (audio_duration : F)
    (scene_count : Z) track :
  same_answer (_distribute_with_tracking audio_duration scene_count track)
    (_distribute_with_tracking audio_duration scene_count false).
Proof.
  unfold _distribute_with_tracking.
  apply same_answer_bind; [apply same_answer_lift|]. intros n.
  apply same_answer_bind; [apply same_answer_lift|]. intros base_duration.
  apply same_answer_bind.
  { apply same_answer_for_each_m. intros i st.
    apply tracking_step_same_answer. }
  intros st. destruct (ngtb _ lit_0_001);
    [apply same_answer_lift|apply same_answer_ret].
Qed.

Lemma _distribute_with_minimum_constraint_same_answer (audio_duration : F)
    (scene_count : Z) (min_duration : F) :
  same_answer
    (_distribute_with_minimum_constraint audio_duration scene_count min_duration)
    (_distribute_with_minimum_constraint audio_duration scene_count min_duration).
Proof.
  unfold _distribute_with_minimum_constraint.
  destruct (ngtb _ audio_duration); [apply same_answer_ret|].
  apply same_answer_bind; [apply same_answer_lift|]. intros n.
  apply same_answer_bind; [apply same_answer_lift|]. intros bonus.
  apply same_answer_ret.
Qed.

Lemma _distribute_with_maximum_constraint_same_answer (audio_duration : F)
    (scene_count : Z) (max_duration : F) :
  same_answer
    (_distribute_with_maximum_constraint audio_duration scene_count max_duration)
    (_distribute_with_maximum_constraint audio_duration scene_count max_duration).
Proof.
  unfold _distribute_with_maximum_constraint.
  apply same_answer_bind; [apply same_answer_lift|]. intros n.
  apply same_answer_bind; [apply same_answer_lift|]. intros base_duration.
  destruct (nleb base_duration max_duration).
  { apply _distribute_with_tracking_same_answer. }
  destruct (nltb _ audio_duration); [|apply same_answer_ret].
  apply same_answer_bind; [apply same_answer_lift|]. intros q.
  apply same_answer_bind; [apply same_answer_lift|]. intros additional.
  apply same_answer_bind; [|intros st; apply same_answer_ret].
  apply same_answer_for_each_m. intros i [[durations remaining] stopped].
  unfold extra_scene_step. destruct stopped; apply same_answer_ret.
Qed.

Lemma distribute_scene_durations_same_answer (audio_duration : F)
    (scene_count : Z) (min_scene_duration max_scene_duration : option F)
    track :
  same_answer
    (distribute_scene_durations audio_duration scene_count
       min_scene_duration max_scene_duration track)
    (distribute_scene_durations audio_duration scene_count
       min_scene_duration max_scene_duration false).
Proof.
  unfold distribute_scene_durations.
  destruct (nleb audio_duration nzero); [apply same_answer_lift|].
  destruct (scene_count <=? 0)%Z; [apply same_answer_lift|].
  apply same_answer_bind.
  { destruct track; [|apply same_answer_ret]. by apply same_answer_modify. }
  intros []. apply same_answer_bind; [apply same_answer_lift|]. intros n.
  apply same_answer_bind; [apply same_answer_lift|]. intros base_duration.
  assert (Hmax :
    same_answer
      match constraint_set max_scene_duration with
      | Some max_d =>
          if ngtb base_duration max_d then
            q ← lift (pydiv audio_duration max_d);
            adjusted_scene_count ← lift (nceil q);
            _distribute_with_maximum_constraint
              audio_duration adjusted_scene_count max_d
          else _distribute_with_tracking audio_duration scene_count track
      | None => _distribute_with_tracking audio_duration scene_count track
      end
      match constraint_set max_scene_duration with
      | Some max_d =>
          if ngtb base_duration max_d then
            q ← lift (pydiv audio_duration max_d);
            adjusted_scene_count ← lift (nceil q);
            _distribute_with_maximum_constraint
              audio_duration adjusted_scene_count max_d
          else _distribute_with_tracking audio_duration scene_count false
      | None => _distribute_with_tracking audio_duration scene_count false
      end).
  { destruct (constraint_set max_scene_duration) as [max_d|];
      [|apply _distribute_with_tracking_same_answer].
    destruct (ngtb base_duration max_d);
      [|apply _distribute_with_tracking_same_answer].
    apply same_answer_bind; [apply same_answer_lift|]. intros q.
    apply same_answer_bind; [apply same_answer_lift|]. intros count.
    apply _distribute_with_maximum_constraint_same_answer. }
  destruct (constraint_set min_scene_duration) as [min_d|]; [|done].
  destruct (nltb base_duration min_d); [|done].
  apply same_answer_bind; [apply same_answer_lift|]. intros q.
  apply same_answer_bind; [apply same_answer_lift|]. intros count.
  apply _distribute_with_minimum_constraint_same_answer.
Qed.

End Tracking.

(** X.  What [distribute_scene_durations] returns or raises depends on
    its arguments other than [track_deficit_surplus] only: not on the
    flag, and not on what [self] holds.  Without the flag the call
    leaves [self] as it is; with it, it leaves [_rebalancing_log] as it
    is. *)
Theorem distribute_scene_durations_answer_ignores_tracking :
  ∀ (F : Type) (N : Num F) (audio_duration : F) (scene_count : Z)
    (min_scene_duration max_scene_duration : option F),
    ∃ answer,
      ∀ (track_deficit_surplus : bool)
        (self : SceneTiming.SceneTimingCalculator F),
        let after :=
          SceneTiming.distribute_scene_durations audio_duration scene_count
            min_scene_duration max_scene_duration track_deficit_surplus
            self in
        after.1 = answer
        ∧ SceneTiming._rebalancing_log after.2
          = SceneTiming._rebalancing_log self
        ∧ (track_deficit_surplus = false → after.2 = self).
Proof.
  intros F N audio_duration scene_count min_d max_d.
  destruct (distribute_scene_durations_same_answer audio_duration scene_count
              min_d max_d false) as (answer & _ & Hquiet).
  exists answer. intros track self. simpl.
  destruct (distribute_scene_durations_same_answer audio_duration scene_count
              min_d max_d track) as (answer' & Htrack & Hquiet').
  assert (answer' = answer) as ->.
  { pose proof (Hquiet self) as H1. pose proof (Hquiet' self) as H2.
    congruence. }
  destruct (Htrack self) as [Ha Hlog]. split_and!; [done..|].
  intros ->. by rewrite Hquiet.
Qed.

(** ** Scenes laid one after the other *)

Section Laying.
Context {F : Type} `{Num F}.
Import SceneTiming.

(** The start and end times that the loop of [calculate_scene_timing]
    gives to durations [ds]: the sums of the durations before each
    scene, and up to it. *)
Definition starts_of (ds : list F) : list F :=
  (λ j, pysum (take j ds)) <$> seq 0 (length ds).
Definition ends_of (ds : list F) : list F :=
  (λ j, pysum (take (S j) ds)) <$> seq 0 (length ds).

Lemma starts_of_snoc (ds : list F) (d : F) :
  starts_of (ds ++ [d]) = starts_of ds ++ [pysum ds].
Proof.
  unfold starts_of. rewrite length_app, Nat.add_1_r, seq_S, fmap_app. simpl.
  rewrite take_app_length. f_equal. apply list_fmap_ext.
  intros i j [-> Hj]%lookup_seq. by rewrite take_app_le by lia.
Qed.

Lemma ends_of_snoc (ds : list F) (d : F) :
  ends_of (ds ++ [d]) = ends_of ds ++ [nadd (pysum ds) d].
Proof.
  unfold ends_of. rewrite length_app, Nat.add_1_r, seq_S, fmap_app. simpl.
  rewrite take_ge by (rewrite length_app; simpl; lia).
  rewrite pysum_snoc. f_equal. apply list_fmap_ext.
  intros i j [-> Hj]%lookup_seq. by rewrite take_app_le by lia.
Qed.

Lemma lay_loop (ds : list F) :
  for_each ds lay_step ([], [], nzero) = Ok (starts_of ds, ends_of ds, pysum ds).
Proof.
  induction ds as [|d ds IH] using rev_ind; [done|].
  rewrite for_each_app, IH. simpl.
  by rewrite starts_of_snoc, ends_of_snoc, pysum_snoc.
Qed.

Lemma starts_of_lookup (ds : list F) (i : nat) :
  i < length ds → starts_of ds !! i = Some (pysum (take i ds)).
Proof.
  intros Hi. unfold starts_of. rewrite list_lookup_fmap.
  by rewrite lookup_seq_lt.
Qed.

Lemma ends_of_lookup (ds : list F) (i : nat) :
  i < length ds → ends_of ds !! i = Some (pysum (take (S i) ds)).
Proof.
  intros Hi. unfold ends_of. rewrite list_lookup_fmap.
  by rewrite lookup_seq_lt.
Qed.

Lemma starts_of_length (ds : list F) : length (starts_of ds) = length ds.
Proof. unfold starts_of. by rewrite length_fmap, length_seq. Qed.

Lemma ends_of_length (ds : list F) : length (ends_of ds) = length ds.
Proof. unfold ends_of. by rewrite length_fmap, length_seq. Qed.

Context `{!NumSubDiag F}.

(** Each scene is laid where the one before it ends, so the second
    loop finds the difference of a number with itself. *)
Lemma gap_loop (ds : list F) :
  nleb nzero lit_0_001 = true →
  for_each (range 0 (length (starts_of ds) - 1))
    (gap_step (starts_of ds) (ends_of ds)) [] = Ok [].
Proof.
  intros Htol. apply for_range_idle. intros i Hi.
  rewrite starts_of_length in Hi.
  unfold gap_step, getindex.
  rewrite starts_of_lookup, ends_of_lookup by lia. simpl.
  replace (i + 1) with (S i) by lia.
  destruct (sub_diag_band lit_0_001 (pysum (take (S i) ds)) Htol)
    as (_ & _ & Hno).
  unfold ngtb. by rewrite Hno.
Qed.

End Laying.

(** X.  [calculate_scene_timing] returns whenever the distribution of
    the durations does, and raises what it raises.  In what it returns
    the first scene starts at zero, each scene ends its duration after
    its start, each scene starts where the one before it ends, and
    [gaps_detected] is empty: the loop that looks for gaps finds none,
    whatever the durations. *)
Theorem calculate_scene_timing_detects_no_gap :
  ∀ (F : Type) (N : Num F) (D : NumSubDiag F) (audio_duration : F)
    (scene_count : Z) (enable_rebalancing : bool)
    (self : SceneTiming.SceneTimingCalculator F),
    nleb nzero lit_0_001 = true →
    match SceneTiming.distribute_scene_durations audio_duration scene_count
            None None enable_rebalancing self with
    | (Raise e, self') =>
        SceneTiming.calculate_scene_timing audio_duration scene_count
          enable_rebalancing self = (Raise e, self')
    | (Ok ds, self') =>
        ∃ t,
          SceneTiming.calculate_scene_timing audio_duration scene_count
            enable_rebalancing self = (Ok t, self')
          ∧ SceneTiming.durations t = ds
          ∧ SceneTiming.gaps_detected t = []
          ∧ length (SceneTiming.start_times t) = length ds
          ∧ length (SceneTiming.end_times t) = length ds
          ∧ (ds ≠ [] → SceneTiming.start_times t !! 0 = Some nzero)
          ∧ (∀ i s d, SceneTiming.start_times t !! i = Some s →
                      ds !! i = Some d →
                      SceneTiming.end_times t !! i = Some (nadd s d))
          ∧ (∀ i, i + 1 < length ds →
                  SceneTiming.start_times t !! (i + 1)
                  = SceneTiming.end_times t !! i)
    end.
Proof.
  intros F N D audio_duration scene_count rebal self Htol.
  unfold SceneTiming.calculate_scene_timing, mbind, SceneTiming.method_bind.
  destruct (SceneTiming.distribute_scene_durations _ _ _ _ _ self)
    as [[ds|e] self']; [|done].
  unfold SceneTiming.lift. rewrite lay_loop. cbn [fst snd].
  rewrite (gap_loop ds Htol).
  eexists. split; [reflexivity|]. cbn.
  split_and!; [done|done|apply starts_of_length|apply ends_of_length|..].
  - intros Hne. rewrite starts_of_lookup; [done|].
    destruct ds; [done|simpl; lia].
  - intros i s d Hs Hd.
    assert (Hi : i < length ds) by by eapply lookup_lt_Some.
    rewrite starts_of_lookup in Hs by done. injection Hs as <-.
    rewrite ends_of_lookup by done.
    by rewrite (take_S_r _ _ d), pysum_snoc.
  - intros i Hi. rewrite starts_of_lookup, ends_of_lookup by lia.
    by replace (i + 1) with (S i) by lia.
Qed.

(** A minute of audio over seven scenes, in binary64. *)
Lemma calculate_scene_timing_detects_no_gap_witness :
  ∃ t self',
    SceneTiming.calculate_scene_timing 60%float 7 true SceneTiming.init
    = (Ok t, self')
    ∧ SceneTiming.gaps_detected t = []
    ∧ length (SceneTiming.start_times t) = 7
    ∧ SceneTiming.start_times t !! 0 = Some 0%float.
Proof.
  pose proof (calculate_scene_timing_detects_no_gap float binary64 _
                60%float 7 true SceneTiming.init eq_refl) as Hcalc.
  remember (SceneTiming.distribute_scene_durations 60%float 7 None None true
              SceneTiming.init) as r eqn:Hr in *.
  vm_compute in Hr. subst r.
  destruct Hcalc as (t & Ht & Hd & Hgaps & Hlen & _ & Hfirst & _).
  exists t. eexists. split; [exact Ht|].
  split_and!; [done|by rewrite Hlen|by apply Hfirst].
Defined.

(** ** Distribution in exact arithmetic *)

Section DistributionExact.
Import SceneTiming.
#[local] Open Scope Qc_scope.
Implicit Types (self : SceneTimingCalculator Qc).

(** In exact arithmetic every scene gets the base duration, and the
    bookkeeping has nothing to record. *)
Lemma tracking_step_exact (base_duration : Qc) (track : bool) (n : nat)
    (ds : list Qc) self :
  tracking_step base_duration track n (ds, qz (Z.of_nat n) * base_duration)
    self
  = (Ok (ds ++ [base_duration], qz (Z.of_nat (S n)) * base_duration), self).
Proof.
  unfold tracking_step. rewrite exact_to_float.
  unfold mbind, method_bind, lift.
  assert (Hd : nsub (nmul (qz (Z.of_nat n + 1)) base_duration)
                 (qz (Z.of_nat n) * base_duration) = base_duration).
  { rewrite qz_add, qz_1. simpl. ring. }
  rewrite Hd.
  assert (Hz : nsub base_duration base_duration = 0) by (simpl; ring).
  rewrite Hz.
  assert (Hm : pymax0 (0 : Qc) = 0) by reflexivity. rewrite Hm.
  assert (Hgt : ngtb (0 : Qc) nzero = false) by reflexivity. rewrite Hgt.
  replace (nadd (qz (Z.of_nat n) * base_duration) base_duration)
    with (qz (Z.of_nat (S n)) * base_duration)
    by (rewrite qz_succ; simpl; ring).
  by destruct track.
Qed.

Lemma tracking_loop_exact_quiet (base_duration : Qc) (track : bool) (n : nat)
    self :
  for_each_m (range 0 n) (tracking_step base_duration track) ([], nzero) self
  = (Ok (replicate n base_duration, qz (Z.of_nat n) * base_duration), self).
Proof.
  induction n as [|n IH].
  - replace (qz (Z.of_nat 0) * base_duration) with (nzero : Qc); [done|].
    change (0 = qz 0 * base_duration). rewrite qz_0. ring.
  - rewrite range_snoc, for_each_m_app, IH by lia.
    cbn [for_each_m]. unfold mbind, method_bind.
    rewrite tracking_step_exact. by rewrite replicate_S_end.
Qed.

Lemma _distribute_with_tracking_exact_quiet (t : Qc) (n : Z) (track : bool)
    self :
  (0 < n)%Z →
  _distribute_with_tracking t n track self
  = (Ok (replicate (Z.to_nat n) (t / qz n)), self).
Proof.
  intros Hn. unfold _distribute_with_tracking, mbind, method_bind, lift.
  rewrite exact_to_float, exact_pydiv by (intros Hz%qz_eq_0; lia).
  rewrite tracking_loop_exact_quiet. cbn [fst].
  rewrite exact_pysum_replicate, Z2Nat.id, exact_div_mul by lia.
  by rewrite (proj1 (exact_zero_within_tolerance t)).
Qed.


(** *** Ceilings *)

(** [math.ceil] of a rational *)
Definition qceil (x : Qc) : Z := Qceiling x.

Lemma qz_le_ceiling (x : Qc) : x <= qz (qceil x).
Proof.
  unfold Qcle, qz, qceil. simpl. rewrite Qred_correct. apply Qle_ceiling.
Qed.

Lemma qz_ceiling_lt (x : Qc) : qz (qceil x) < x + 1.
Proof.
  unfold Qclt, qz, qceil. simpl. rewrite !Qred_correct.
  pose proof (Qceiling_lt x) as Hlt.
  unfold Z.sub in Hlt. rewrite inject_Z_plus in Hlt.
  change (inject_Z (- (1))) with (- (1))%Q in Hlt. lra.
Qed.

Lemma qz_lt (a b : Z) : qz a < qz b ↔ (a < b)%Z.
Proof.
  unfold Qclt, qz. simpl. rewrite !Qred_correct. by rewrite <-Zlt_Qlt.
Qed.

Lemma qz_le (a b : Z) : qz a <= qz b ↔ (a <= b)%Z.
Proof.
  unfold Qcle, qz. simpl. rewrite !Qred_correct. by rewrite <-Zle_Qle.
Qed.

Lemma qz_pos (z : Z) : (0 < z)%Z → 0 < qz z.
Proof. intros Hz. rewrite <-qz_0. by apply qz_lt. Qed.

Lemma exact_div_pos (x y : Qc) : 0 < x → 0 < y → 0 < x / y.
Proof.
  unfold Qclt, Qcdiv, Qcmult, Qcinv. simpl. rewrite !Qred_correct.
  intros Hx Hy. apply Qmult_lt_0_compat; [done|]. by apply Qinv_lt_0_compat.
Qed.

Lemma exact_div_mul_r (x y : Qc) : 0 < y → x / y * y = x.
Proof. intros Hy. apply test_field. intros ->. by apply Qclt_not_eq in Hy. Qed.


Lemma exact_le_ceiling_mul (t m : Qc) : 0 < m → t <= qz (qceil (t / m)) * m.
Proof.
  intros Hm. rewrite <-(exact_div_mul_r t m Hm) at 1.
  apply Qcmult_le_compat_r; [apply qz_le_ceiling|by apply Qclt_le_weak].
Qed.

Lemma exact_ceiling_mul_lt (t m : Qc) :
  0 < m → qz (qceil (t / m)) * m < t + m.
Proof.
  intros Hm. replace (t + m) with ((t / m + 1) * m).
  - apply Qcmult_lt_compat_r; [done|apply qz_ceiling_lt].
  - rewrite Qcmult_plus_distr_l, exact_div_mul_r by done. ring.
Qed.

Lemma exact_ceiling_pos (t m : Qc) : 0 < t → 0 < m → (1 <= qceil (t / m))%Z.
Proof.
  intros Ht Hm. cut (0 < qceil (t / m))%Z; [lia|]. apply qz_lt.
  rewrite qz_0.
  apply (Qclt_le_trans _ (t / m)); [by apply exact_div_pos|].
  apply qz_le_ceiling.
Qed.

Lemma exact_ceiling_le (x : Qc) (n : Z) : x <= qz n → (qceil x <= n)%Z.
Proof.
  unfold Qcle, qz, qceil. simpl. rewrite Qred_correct. intros Hx.
  rewrite <-(Qceiling_Z n). by apply Qceiling_resp_le.
Qed.

Lemma exact_div_le_swap (t a b : Qc) : 0 < a → 0 < b → t / a <= b → t / b <= a.
Proof.
  intros Ha Hb Hle. apply (Qcmult_lt_0_le_reg_r _ _ b Hb).
  rewrite exact_div_mul_r by done. rewrite <-(exact_div_mul_r t a Ha).
  rewrite (Qcmult_comm a b).
  apply Qcmult_le_compat_r; [done|by apply Qclt_le_weak].
Qed.

Lemma exact_div_lt_swap (t a b : Qc) : 0 < a → 0 < b → a < t / b → b < t / a.
Proof.
  intros Ha Hb Hlt. destruct (Qclt_le_dec b (t / a)) as [|Hle]; [done|].
  apply exact_div_le_swap in Hle; [|done..].
  by destruct (Qclt_not_le _ _ Hlt).
Qed.

End DistributionExact.

Section ConstraintsExact.
Import SceneTiming.
#[local] Open Scope Qc_scope.
Implicit Types (self : SceneTimingCalculator Qc).

Lemma exact_nleb_false (x y : Qc) : y < x → nleb x y = false.
Proof.
  intros Hlt. apply not_true_iff_false. rewrite exact_nleb.
  by apply Qclt_not_le.
Qed.

Lemma exact_nltb_false (x y : Qc) : y <= x → nltb x y = false.
Proof.
  intros Hle. apply not_true_iff_false. rewrite exact_nltb.
  by apply Qcle_not_lt.
Qed.

Lemma exact_truthy (x : Qc) : 0 < x → truthy x = true.
Proof.
  intros Hx. unfold truthy. apply negb_true_iff, not_true_iff_false.
  rewrite exact_neqb. intros ->. by apply Qclt_not_eq in Hx.
Qed.

Lemma exact_pos_neq (x : Qc) : 0 < x → x ≠ 0.
Proof. intros Hx ->. by apply Qclt_not_eq in Hx. Qed.

Lemma exact_pysum_replicate_Z (k : Z) (x : Qc) :
  (0 <= k)%Z → pysum (replicate (Z.to_nat k) x) = qz k * x.
Proof. intros Hk. by rewrite exact_pysum_replicate, Z2Nat.id. Qed.

(** The distribution under a minimum, as [distribute_scene_durations]
    calls it: with the number of scenes that the minimum allows. *)
Lemma _distribute_with_minimum_constraint_exact (t m : Qc) self :
  0 < t → 0 < m →
  _distribute_with_minimum_constraint t (qceil (t / m)) m self
  = (Ok (replicate (Z.to_nat (qceil (t / m))) m), self).
Proof.
  intros Ht Hm. set (k := qceil (t / m)).
  assert (Hk : (1 <= k)%Z) by by apply exact_ceiling_pos.
  unfold _distribute_with_minimum_constraint.
  rewrite exact_pysum_replicate_Z by lia.
  destruct (ngtb (qz k * m) t) eqn:Hgt; [done|].
  assert (Heq : qz k * m = t).
  { apply Qcle_antisym; [|by apply exact_le_ceiling_mul].
    apply Qcnot_lt_le. intros Hlt. apply exact_nltb in Hlt.
    unfold ngtb in Hgt. congruence. }
  unfold mbind, method_bind, lift. rewrite exact_to_float.
  rewrite exact_pydiv by (apply exact_pos_neq, qz_pos; lia).
  unfold mret, method_ret. rewrite fmap_replicate. do 3 f_equal.
  rewrite Heq. simpl. unfold Qcdiv. ring.
Qed.

(** With tracking and valid arguments the call leaves both lists
    empty. *)
Lemma distribute_scene_durations_exact_quiet (t : Qc) (n : Z)
    (min_d max_d : option Qc) :
  0 < t → (0 < n)%Z →
  ∃ answer, ∀ s,
    distribute_scene_durations t n min_d max_d true s
    = (answer, {| _deficits := []; _surpluses := [];
                  _rebalancing_log := _rebalancing_log s |}).
Proof.
  intros Ht Hn.
  unfold distribute_scene_durations.
  rewrite exact_nleb_false by done.
  destruct (Z.leb_spec n 0) as [?|_]; [lia|].
  unfold mbind at 1, method_bind at 1.
  unfold reset_tracking, modify.
  unfold mbind at 1, method_bind at 1, lift at 1.
  rewrite exact_to_float.
  unfold mbind at 1, method_bind at 1, lift at 1.
  rewrite exact_pydiv by (apply exact_pos_neq; by apply qz_pos).
  set (standard := _distribute_with_tracking t n true).
  assert (Hstandard : ∃ r, ∀ s, standard s = (r, s)).
  { eexists. intros s. unfold standard.
    by rewrite _distribute_with_tracking_exact_quiet. }
  assert (Hconstraint : ∀ (c : Qc) (m : Z → method (list Qc)),
            (∀ k, same_answer (m k) (m k)) →
            ∃ r, ∀ s, (q ← lift (pydiv t c);
                       k ← lift (nceil q); m k) s = (r, s)).
  { intros c m Hm.
    assert (Hsame : same_answer
              (q ← lift (pydiv t c);
               k ← lift (nceil q); m k)
              (q ← lift (pydiv t c);
               k ← lift (nceil q); m k)).
    { apply same_answer_bind; [apply same_answer_lift|]. intros q.
      apply same_answer_bind; [apply same_answer_lift|]. intros k.
      apply Hm. }
    destruct Hsame as (r & _ & Hr). by exists r. }
  assert (Hmax : ∃ r, ∀ s,
            match constraint_set max_d with
            | Some max_d =>
                if ngtb (t / qz n)%Qc max_d then
                  q ← lift (pydiv t max_d);
                  adjusted_scene_count ← lift (nceil q);
                  _distribute_with_maximum_constraint
                    t adjusted_scene_count max_d
                else standard
            | None => standard
            end s = (r, s)).
  { destruct (constraint_set max_d) as [c|]; [|done].
    destruct (ngtb (t / qz n)%Qc c); [|done].
    apply (Hconstraint c
             (λ k, _distribute_with_maximum_constraint t k c)).
    intros k. apply _distribute_with_maximum_constraint_same_answer. }
  destruct (constraint_set min_d) as [c|].
  - destruct (nltb (t / qz n)%Qc c).
    + destruct (Hconstraint c
             (λ k, _distribute_with_minimum_constraint t k c))
        as [r Hr].
      { intros k. apply _distribute_with_minimum_constraint_same_answer. }
      exists r. intros s. apply Hr.
    + destruct Hmax as [r Hr]. exists r. intros s. apply Hr.
  - destruct Hmax as [r Hr]. exists r. intros s. apply Hr.
Qed.

End ConstraintsExact.

(** X.  In exact arithmetic, when the base duration [total / count] is
    below the minimum, [distribute_scene_durations] returns
    [ceil(total / minimum)] scenes of the minimum duration each: no
    more scenes than were asked for, and at least one.  Their sum is
    the audio duration or more, and less than a minimum above it; the
    maximum, if any, plays no part. *)
Theorem distribute_scene_durations_minimum_exact :
  ∀ (self : SceneTiming.SceneTimingCalculator Qc) (audio_duration : Qc)
    (scene_count : Z) (min_scene_duration : Qc)
    (max_scene_duration : option Qc) (track_deficit_surplus : bool),
    (0 < audio_duration)%Qc → (0 < scene_count)%Z →
    (audio_duration / qz scene_count < min_scene_duration)%Qc →
    let adjusted := qceil (audio_duration / min_scene_duration)%Qc in
    let durations := replicate (Z.to_nat adjusted) min_scene_duration in
    (∃ self',
       SceneTiming.distribute_scene_durations audio_duration scene_count
         (Some min_scene_duration) max_scene_duration track_deficit_surplus
         self = (Ok durations, self'))
    ∧ (1 <= adjusted <= scene_count)%Z
    ∧ (audio_duration <= pysum durations)%Qc
    ∧ (pysum durations < audio_duration + min_scene_duration)%Qc.
Proof.
  intros self t n m max track Ht Hn Hbase adjusted durations.
  assert (Hm : (0 < m)%Qc).
  { apply (Qclt_trans _ (t / qz n)); [|done].
    apply exact_div_pos; [done|by apply qz_pos]. }
  assert (Hk : (1 <= adjusted)%Z) by by apply exact_ceiling_pos.
  split_and!.
  - unfold SceneTiming.distribute_scene_durations.
    rewrite exact_nleb_false by done.
    destruct (Z.leb_spec n 0) as [?|_]; [lia|].
    unfold mbind at 1, SceneTiming.method_bind at 1.
    destruct ((if track then SceneTiming.reset_tracking else mret ()) self)
      as [r self1] eqn:Hr.
    assert (r = Ok ()) as -> by (destruct track; by injection Hr as <- _).
    unfold mbind, SceneTiming.method_bind, SceneTiming.lift.
    rewrite exact_to_float, exact_pydiv
      by (apply exact_pos_neq; by apply qz_pos).
    unfold SceneTiming.constraint_set. rewrite (exact_truthy m) by done.
    rewrite (proj2 (exact_nltb _ _) Hbase).
    rewrite exact_pydiv by by apply exact_pos_neq.
    change (nceil (t / m)%Qc) with (Ok (qceil (t / m)%Qc) : result (exn Qc) Z).
    cbv beta iota.
    rewrite _distribute_with_minimum_constraint_exact by done. by eexists.
  - done.
  - apply exact_ceiling_le.
    apply exact_div_le_swap; [by apply qz_pos|done|by apply Qclt_le_weak].
  - unfold durations. rewrite exact_pysum_replicate_Z by lia.
    by apply exact_le_ceiling_mul.
  - unfold durations. rewrite exact_pysum_replicate_Z by lia.
    by apply exact_ceiling_mul_lt.
Qed.

(** Ten seconds over four scenes of three seconds at least: four
    scenes of three seconds, twelve seconds in all. *)
Lemma distribute_scene_durations_minimum_exact_witness :
  (∃ self',
     SceneTiming.distribute_scene_durations (Q2Qc 10) 4 (Some (Q2Qc 3)) None
       false SceneTiming.init
     = (Ok (replicate 4 (Q2Qc 3)), self'))
  ∧ (1 <= 4 <= 4)%Z
  ∧ (Q2Qc 10 <= pysum (replicate 4 (Q2Qc 3)))%Qc
  ∧ (pysum (replicate 4 (Q2Qc 3)) < Q2Qc 10 + Q2Qc 3)%Qc.
Proof.
  apply (distribute_scene_durations_minimum_exact SceneTiming.init (Q2Qc 10) 4
           (Q2Qc 3) None false); [reflexivity|lia|reflexivity].
Defined.

(** X.  In exact arithmetic, when no minimum is given and the base
    duration [total / count] is above the maximum,
    [distribute_scene_durations] returns [ceil(total / maximum)] scenes,
    more than were asked for, of the same duration, which is the
    maximum at most; the durations add up to the audio duration. *)
Theorem distribute_scene_durations_maximum_exact :
  ∀ (self : SceneTiming.SceneTimingCalculator Qc) (audio_duration : Qc)
    (scene_count : Z) (max_scene_duration : Qc)
    (track_deficit_surplus : bool),
    (0 < audio_duration)%Qc → (0 < scene_count)%Z →
    (0 < max_scene_duration)%Qc →
    (max_scene_duration < audio_duration / qz scene_count)%Qc →
    let adjusted := qceil (audio_duration / max_scene_duration)%Qc in
    let durations :=
      replicate (Z.to_nat adjusted) (audio_duration / qz adjusted)%Qc in
    (∃ self',
       SceneTiming.distribute_scene_durations audio_duration scene_count
         None (Some max_scene_duration) track_deficit_surplus self
       = (Ok durations, self'))
    ∧ (scene_count < adjusted)%Z
    ∧ (audio_duration / qz adjusted <= max_scene_duration)%Qc
    ∧ pysum durations = audio_duration.
Proof.
  intros self t n M track Ht Hn HM Hbase adjusted durations.
  assert (Hk : (1 <= adjusted)%Z) by by apply exact_ceiling_pos.
  assert (Hkpos : (0 < qz adjusted)%Qc) by (apply qz_pos; lia).
  assert (Hcap : (t / qz adjusted <= M)%Qc).
  { apply exact_div_le_swap; [done..|]. apply qz_le_ceiling. }
  split_and!.
  - unfold SceneTiming.distribute_scene_durations.
    rewrite exact_nleb_false by done.
    destruct (Z.leb_spec n 0) as [?|_]; [lia|].
    unfold mbind at 1, SceneTiming.method_bind at 1.
    destruct ((if track then SceneTiming.reset_tracking else mret ()) self)
      as [r self1] eqn:Hr.
    assert (r = Ok ()) as -> by (destruct track; by injection Hr as <- _).
    unfold mbind, SceneTiming.method_bind, SceneTiming.lift.
    rewrite exact_to_float, exact_pydiv
      by (apply exact_pos_neq; by apply qz_pos).
    unfold SceneTiming.constraint_set. rewrite (exact_truthy M) by done.
    unfold ngtb. rewrite (proj2 (exact_nltb _ _) Hbase).
    rewrite exact_pydiv by by apply exact_pos_neq.
    change (nceil (t / M)%Qc) with (Ok (qceil (t / M)%Qc) : result (exn Qc) Z).
    cbv beta iota. fold adjusted.
    unfold SceneTiming._distribute_with_maximum_constraint.
    unfold mbind, SceneTiming.method_bind, SceneTiming.lift.
    rewrite exact_to_float, exact_pydiv by by apply exact_pos_neq.
    rewrite (proj2 (exact_nleb _ _) Hcap).
    rewrite _distribute_with_tracking_exact_quiet by lia. by eexists.
  - apply qz_lt. apply (Qclt_le_trans _ (t / M)); [|apply qz_le_ceiling].
    apply exact_div_lt_swap; [done|by apply qz_pos|done].
  - done.
  - unfold durations. rewrite exact_pysum_replicate_Z by lia.
    apply Qcmult_div_r. by apply exact_pos_neq.
Qed.

(** A minute over two scenes of 25 seconds at most: three scenes of 20
    seconds. *)
Lemma distribute_scene_durations_maximum_exact_witness :
  (∃ self',
     SceneTiming.distribute_scene_durations (Q2Qc 60) 2 None (Some (Q2Qc 25))
       false SceneTiming.init
     = (Ok (replicate 3 (Q2Qc 60 / qz 3)%Qc), self'))
  ∧ (2 < 3)%Z
  ∧ (Q2Qc 60 / qz 3 <= Q2Qc 25)%Qc
  ∧ pysum (replicate 3 (Q2Qc 60 / qz 3)%Qc) = Q2Qc 60.
Proof.
  apply (distribute_scene_durations_maximum_exact SceneTiming.init (Q2Qc 60) 2
           (Q2Qc 25) false); [reflexivity|lia|reflexivity|reflexivity].
Defined.

(** X.  In exact arithmetic the bookkeeping of deficits and surpluses
    has nothing to record: after a call of [distribute_scene_durations]
    with tracking, for a positive duration and a positive number of
    scenes, both lists are empty, whatever the constraints and whatever
    the lists held before; [get_deficit_surplus_summary] then reports
    empty lists and the totals 0. *)
Theorem distribute_scene_durations_tracks_nothing_exact :
  ∀ (self : SceneTiming.SceneTimingCalculator Qc) (audio_duration : Qc)
    (scene_count : Z) (min_scene_duration max_scene_duration : option Qc),
    (0 < audio_duration)%Qc → (0 < scene_count)%Z →
    ∃ answer self',
      SceneTiming.distribute_scene_durations audio_duration scene_count
        min_scene_duration max_scene_duration true self
      = (answer, self')
      ∧ SceneTiming._deficits self' = []
      ∧ SceneTiming._surpluses self' = []
      ∧ SceneTiming._rebalancing_log self' = SceneTiming._rebalancing_log self
      ∧ (SceneTiming.get_deficit_surplus_summary self').1
        = Ok {| SceneTiming.deficits := []; SceneTiming.surpluses := [];
                SceneTiming.total_deficit := nzero;
                SceneTiming.total_surplus := nzero;
                SceneTiming.summary_rebalancing_log :=
                  SceneTiming._rebalancing_log self |}.
Proof.
  intros self t n min_d max_d Ht Hn.
  destruct (distribute_scene_durations_exact_quiet t n min_d max_d Ht Hn)
    as [answer Hanswer].
  exists answer. eexists. split; [apply Hanswer|]. done.
Qed.

(** A minute over seven scenes, after an earlier call left entries. *)
Lemma distribute_scene_durations_tracks_nothing_exact_witness :
  ∃ answer self',
    SceneTiming.distribute_scene_durations (Q2Qc 60) 7 None None true
      {| SceneTiming._deficits := [(0%nat, Q2Qc 1)];
         SceneTiming._surpluses := [(1%nat, Q2Qc 1)];
         SceneTiming._rebalancing_log := [] |}
    = (answer, self')
    ∧ SceneTiming._deficits self' = []
    ∧ SceneTiming._surpluses self' = [].
Proof.
  destruct (distribute_scene_durations_tracks_nothing_exact
              {| SceneTiming._deficits := [(0%nat, Q2Qc 1)];
                 SceneTiming._surpluses := [(1%nat, Q2Qc 1)];
                 SceneTiming._rebalancing_log := [] |}
              (Q2Qc 60) 7 None None)
    as (answer & self' & Hanswer & Hd & Hs & _); [reflexivity|lia|].
  exists answer, self'. split_and!; assumption.
Defined.

(** ** Distribution by weights *)

Section Weighted.
Context {F : Type} `{Num F}.
Import SceneTiming.

(** The share of the audio that a weight gets. *)
Definition share_of (audio_duration total_weight weight : F) : F :=
  nmul (ndiv weight total_weight) audio_duration.

Lemma weighted_step_returns (audio_duration total_weight w : F)
    (acc : list F) :
  neqb total_weight nzero = false →
  weighted_step audio_duration total_weight w acc
  = Ok (acc ++ [share_of audio_duration total_weight w]).
Proof. intros Hnz. unfold weighted_step, pydiv. by rewrite Hnz. Qed.

Lemma weighted_loop (audio_duration total_weight : F) (ws acc : list F) :
  neqb total_weight nzero = false →
  for_each ws (weighted_step audio_duration total_weight) acc
  = Ok (acc ++ (share_of audio_duration total_weight <$> ws)).
Proof.
  intros Hnz. revert acc. induction ws as [|w ws IH]; intros acc.
  - by rewrite app_nil_r.
  - cbn [for_each]. rewrite weighted_step_returns by done.
    cbn [mbind result_bind]. rewrite IH. by rewrite <-app_assoc.
Qed.

Lemma weighted_loop_zero (audio_duration total_weight : F) (ws acc : list F) :
  neqb total_weight nzero = true → ws ≠ [] →
  for_each ws (weighted_step audio_duration total_weight) acc
  = Raise ZeroDivisionError.
Proof.
  intros Hz Hne. destruct ws as [|w ws]; [done|].
  cbn [for_each]. unfold weighted_step, pydiv. by rewrite Hz.
Qed.

Lemma weights_rejected_true (ws : list F) :
  weights_rejected ws = true ↔ ws = [] ∨ ∃ w, w ∈ ws ∧ nleb w nzero = true.
Proof.
  unfold weights_rejected.
  rewrite orb_true_iff, bool_decide_eq_true, existsb_exists.
  split; (intros [?|(w & Hw & ?)]; [by left|right; exists w]).
  - split; [by apply list_elem_of_In|done].
  - split; [by apply list_elem_of_In|done].
Qed.

Lemma add_to_last_returns (xs : list F) (d : F) :
  xs ≠ [] →
  ∃ x, last xs = Some x
       ∧ add_to_last xs d = Ok (<[pred (length xs) := nadd x d]> xs).
Proof.
  intros Hne. unfold add_to_last. destruct (last xs) as [x|] eqn:Hlast.
  - by exists x.
  - by apply last_None in Hlast.
Qed.

End Weighted.

(** X.  [distribute_scene_durations_weighted] never changes [self].
    It raises [ValueError] for an audio duration that is not positive,
    and otherwise for weights that are empty or of which one is not
    positive; it raises [ZeroDivisionError] when the weights add up to
    zero, and nothing else.  What it returns has one duration for each
    weight, and each of them but the last is the share
    [weight / total_weight * audio_duration]. *)
Theorem distribute_scene_durations_weighted_shape :
  ∀ (F : Type) (N : Num F) (audio_duration : F) (scene_weights : list F)
    (self : SceneTiming.SceneTimingCalculator F),
    let after := SceneTiming.distribute_scene_durations_weighted
                   audio_duration scene_weights self in
    let rejected :=
      scene_weights = [] ∨ ∃ w, w ∈ scene_weights ∧ nleb w nzero = true in
    after.2 = self
    ∧ (after.1 = Raise (ValueError AudioDurationNotPositive)
       ↔ nleb audio_duration nzero = true)
    ∧ (after.1 = Raise (ValueError WeightsNotPositive)
       ↔ nleb audio_duration nzero = false ∧ rejected)
    ∧ (after.1 = Raise ZeroDivisionError
       ↔ nleb audio_duration nzero = false ∧ ¬ rejected
         ∧ neqb (pysum scene_weights) nzero = true)
    ∧ (is_ok after.1 = true
       ↔ nleb audio_duration nzero = false ∧ ¬ rejected
         ∧ neqb (pysum scene_weights) nzero = false)
    ∧ ∀ durations,
        after.1 = Ok durations →
        length durations = length scene_weights
        ∧ ∀ i w, i + 1 < length scene_weights →
                 scene_weights !! i = Some w →
                 durations !! i
                 = Some (share_of audio_duration (pysum scene_weights) w).
Proof.
  intros F N audio ws self after rejected. subst after.
  unfold SceneTiming.distribute_scene_durations_weighted.
  destruct (nleb audio nzero) eqn:Haudio.
  { simpl. split_and!; first [done|split; intros; destruct_and?; done]. }
  destruct (SceneTiming.weights_rejected ws) eqn:Hrej.
  { apply weights_rejected_true in Hrej. simpl.
    split_and!; first [done|split; intros; destruct_and?; done]. }
  assert (Hnot : ¬ rejected).
  { intros Hr%weights_rejected_true. congruence. }
  assert (Hne : ws ≠ []) by (intros ->; apply Hnot; by left).
  unfold mbind, SceneTiming.method_bind, SceneTiming.lift.
  destruct (neqb (pysum ws) nzero) eqn:Hz.
  { rewrite weighted_loop_zero by done. simpl.
    split_and!; first [done|split; intros; destruct_and?; done]. }
  rewrite weighted_loop by done. rewrite app_nil_l.
  set (shares := share_of audio (pysum ws) <$> ws).
  assert (Hlen : length shares = length ws) by apply length_fmap.
  assert (Hshares : shares ≠ []).
  { intros Hs. apply Hne. apply fmap_nil_inv in Hs. done. }
  destruct (ngtb (nabs (nsub (pysum shares) audio)) lit_0_001).
  - destruct (add_to_last_returns shares (nsub audio (pysum shares)) Hshares)
      as (x & _ & ->). simpl.
    split_and!; try first [done|split; intros; destruct_and?; done].
    intros durations [= <-]. rewrite length_insert. split; [done|].
    intros i w Hi Hw. rewrite list_lookup_insert_ne by lia.
    unfold shares. by rewrite list_lookup_fmap, Hw.
  - simpl.
    split_and!; try first [done|split; intros; destruct_and?; done].
    intros durations [= <-]. split; [done|].
    intros i w Hi Hw. unfold shares. by rewrite list_lookup_fmap, Hw.
Qed.

Section WeightedExact.
Import SceneTiming.
#[local] Open Scope Qc_scope.

Lemma exact_add_pos (a b : Qc) : 0 <= a → 0 < b → 0 < a + b.
Proof.
  unfold Qcle, Qclt. simpl. rewrite !Qred_correct. intros Ha Hb. lra.
Qed.

Lemma exact_mul_pos (a b : Qc) : 0 < a → 0 < b → 0 < a * b.
Proof.
  unfold Qclt. simpl. rewrite !Qred_correct. apply Qmult_lt_0_compat.
Qed.

Lemma exact_pysum_nonneg (ws : list Qc) : Forall (λ w, 0 < w) ws → 0 <= pysum ws.
Proof.
  induction ws as [|w ws IH] using rev_ind; [done|].
  intros [Hws Hw%Forall_inv]%Forall_app. rewrite pysum_snoc.
  apply Qclt_le_weak, exact_add_pos; [by apply IH|done].
Qed.

Lemma exact_pysum_pos (ws : list Qc) :
  ws ≠ [] → Forall (λ w, 0 < w) ws → 0 < pysum ws.
Proof.
  destruct ws as [|w ws _] using rev_ind; [done|].
  intros _ [Hws Hw%Forall_inv]%Forall_app. rewrite pysum_snoc.
  apply exact_add_pos; [by apply exact_pysum_nonneg|done].
Qed.

Lemma exact_pysum_shares (t W : Qc) (ws : list Qc) :
  pysum (share_of t W <$> ws) = pysum ws / W * t.
Proof.
  induction ws as [|w ws IH] using rev_ind.
  - change (0 = 0 / W * t). unfold Qcdiv. ring.
  - rewrite fmap_app. cbn [fmap list_fmap]. rewrite !pysum_snoc, IH.
    unfold share_of. simpl. unfold Qcdiv. ring.
Qed.

End WeightedExact.

(** X.  In exact arithmetic, for a positive audio duration and weights
    that are all positive, [distribute_scene_durations_weighted] gives
    each weight its share [weight / total_weight * audio_duration];
    the shares are positive and add up to the audio duration. *)
Theorem distribute_scene_durations_weighted_exact :
  ∀ (self : SceneTiming.SceneTimingCalculator Qc) (audio_duration : Qc)
    (scene_weights : list Qc),
    (0 < audio_duration)%Qc → scene_weights ≠ [] →
    Forall (λ w, 0 < w)%Qc scene_weights →
    let durations :=
      share_of audio_duration (pysum scene_weights) <$> scene_weights in
    SceneTiming.distribute_scene_durations_weighted audio_duration
      scene_weights self = (Ok durations, self)
    ∧ pysum durations = audio_duration
    ∧ Forall (λ d, 0 < d)%Qc durations.
Proof.
  intros self t ws Ht Hne Hpos durations.
  assert (HW : (0 < pysum ws)%Qc) by by apply exact_pysum_pos.
  assert (Hsum : pysum durations = t).
  { unfold durations. rewrite exact_pysum_shares. unfold Qcdiv.
    rewrite Qcmult_inv_r by by apply exact_pos_neq. ring. }
  split_and!; [|done|].
  - unfold SceneTiming.distribute_scene_durations_weighted.
    rewrite exact_nleb_false by done.
    destruct (SceneTiming.weights_rejected ws) eqn:Hrej.
    { apply weights_rejected_true in Hrej as [?|(w & Hw & Hle)]; [done|].
      apply exact_nleb in Hle.
      destruct (Qclt_not_le _ _ (proj1 (Forall_forall _ _) Hpos w Hw) Hle). }
    unfold mbind, SceneTiming.method_bind, SceneTiming.lift.
    rewrite weighted_loop, app_nil_l.
    2:{ apply not_true_iff_false. rewrite exact_neqb.
        by apply exact_pos_neq. }
    fold durations. rewrite Hsum.
    by rewrite (proj1 (exact_zero_within_tolerance t)).
  - unfold durations. apply Forall_fmap. eapply Forall_impl; [done|].
    intros w Hw. simpl. unfold share_of. simpl.
    apply exact_mul_pos; [by apply exact_div_pos|done].
Qed.

(** A minute shared by the weights 1, 2 and 3. *)
Lemma distribute_scene_durations_weighted_exact_witness :
  let weights := [Q2Qc 1; Q2Qc 2; Q2Qc 3] in
  let durations := share_of (Q2Qc 60) (pysum weights) <$> weights in
  SceneTiming.distribute_scene_durations_weighted (Q2Qc 60) weights
    SceneTiming.init = (Ok durations, SceneTiming.init)
  ∧ pysum durations = Q2Qc 60
  ∧ Forall (λ d, 0 < d)%Qc durations.
Proof.
  apply (distribute_scene_durations_weighted_exact SceneTiming.init (Q2Qc 60)
           [Q2Qc 1; Q2Qc 2; Q2Qc 3]); [reflexivity|done|].
  repeat constructor.
Defined.
